(** * MidiTok: the tokenizer base class [MIDITokenizer]

    A shallow embedding of [miditok/midi_tokenizer_base.py]: the bucket
    model built at construction (velocities, tempos, durations, rests, time
    signatures), the quantizer ([quantize_notes], [quantize_tempos],
    [quantize_time_signatures]), the time-signature reduction, the graph of
    the token types with its special tokens and the token-type validation,
    the preprocessing and encoding facade ([preprocess_midi],
    [midi_to_tokens]), the conversion between events and tokens, and the
    decoding facade ([tokens_to_midi]).

    Conventions of the embedding.
    - Python [int] is [Z].  Python's [//] and [%] round towards minus
      infinity and give the remainder the sign of the divisor, exactly as
      [Z.div] and [Z.modulo] do; only a zero divisor differs (Python
      raises), and it is written out where the source divides.
    - A Python [float] that the source only builds from integers and then
      compares or truncates ([int(a / b)], [x <= n / 2], [linspace] with an
      integer dtype) is taken as the exact rational; a raw tempo value,
      which is a float in the MIDI object, is a [Q].
    - A computation that can raise returns an [outcome]; a [while] loop is
      a function with fuel, and running out of fuel is [Diverge]. *)

From Stdlib Require Import ZArith QArith Qabs Lia.
From stdpp Require Import base option list list_numbers sorting strings gmap.

Close Scope Q_scope.
Local Open Scope Z_scope.

(** ** Outcomes: a result, a raised exception, or a loop still running *)

Inductive exn : Set :=
| IndexError
| KeyError
| ValueError
| ZeroDivisionError
| AssertionError.

Inductive outcome (A : Type) : Type :=
| Done (a : A)
| Raise (e : exn)
| Diverge.

Arguments Done {A} a.
Arguments Raise {A} e.
Arguments Diverge {A}.

Definition bind {A B : Type} (m : outcome A) (k : A → outcome B) : outcome B :=
  match m with
  | Done a => k a
  | Raise e => Raise e
  | Diverge => Diverge
  end.

Notation "'let*' x ':=' m 'in' k" := (bind m (fun x => k))
  (at level 10, x pattern, m at level 100, k at level 200).

(** [subscript l i e] is [l[i]] for [0 <= i], raising [e] out of range. *)
Definition subscript {A : Type} (l : list A) (i : nat) (e : exn) : outcome A :=
  match l !! i with
  | Some a => Done a
  | None => Raise e
  end.

(** [all_done ms] runs a comprehension whose items can raise. *)
Fixpoint all_done {A : Type} (ms : list (outcome A)) : outcome (list A) :=
  match ms with
  | [] => Done []
  | m :: ms' => let* a := m in let* l := all_done ms' in Done (a :: l)
  end.

(** ** Python arithmetic *)

(** [a // b] *)
Definition floordiv (a b : Z) : outcome Z :=
  if b =? 0 then Raise ZeroDivisionError else Done (a / b).

(** [a % b] *)
Definition pymod (a b : Z) : outcome Z :=
  if b =? 0 then Raise ZeroDivisionError else Done (a mod b).

(** [int(a / b)]: true division, then truncation towards zero. *)
Definition int_truediv (a b : Z) : outcome Z :=
  if b =? 0 then Raise ZeroDivisionError else Done (a ÷ b).

(** [max(l)] of a list of integers. *)
Definition pymax (l : list Z) : outcome Z :=
  match l with
  | [] => Raise ValueError
  | x :: l' => Done (foldl Z.max x l')
  end.

(** [range(start, stop)] *)
Definition range (start stop : Z) : list Z := seqZ start (stop - start).

(** A Python [range] object with its step, and [x in r]. *)
Record pyrange : Set := { r_start : Z; r_stop : Z; r_step : Z }.

Definition in_range (x : Z) (r : pyrange) : bool :=
  if 0 <? r_step r
  then (r_start r <=? x) && (x <? r_stop r) && ((x - r_start r) mod r_step r =? 0)
  else (r_stop r <? x) && (x <=? r_start r) && ((x - r_start r) mod r_step r =? 0).

(** ** NumPy: [argmin] and [linspace] *)

(** [np.argmin] over distances ordered by [ltb]: the first index holding
    the minimum; an empty array raises [ValueError].  [argmin_from] scans
    the rest of the array, [best] and [d] being the winner so far and [i]
    the index of the next item. *)
Fixpoint argmin_from {A : Type} (ltb : A → A → bool)
    (best : nat) (d : A) (i : nat) (l : list A) : nat :=
  match l with
  | [] => best
  | x :: l' =>
      if ltb x d then argmin_from ltb i x (S i) l'
      else argmin_from ltb best d (S i) l'
  end.

(** [np.argmin(l)] *)
Definition argmin {A : Type} (ltb : A → A → bool) (l : list A) : outcome nat :=
  match l with
  | [] => Raise ValueError
  | x :: l' => Done (argmin_from ltb 0%nat x 1%nat l')
  end.

(** [np.linspace(start, stop, num, dtype=np.intc)] for integer end points:
    the samples [start + i * (stop - start) / (num - 1)], floored when they
    are converted to integers (NumPy before 1.20 truncates them, which is
    the same for the samples of a range that is not negative).  One sample
    is [start]; a negative [num] raises. *)
Definition linspace_intc (start stop num : Z) : outcome (list Z) :=
  if num <? 0 then Raise ValueError
  else if num =? 1 then Done [start]
  else Done ((λ i, (start * (num - 1) + i * (stop - start)) / (num - 1))
               <$> seqZ 0 num).

(** ** Data model *)

(** [miditoolkit.Note] *)
Record Note : Set := {
  pitch : Z;
  velocity : Z;
  start : Z;
  end_ : Z
}.

(** [miditoolkit.TempoChange]: the raw tempo is a float, a quantized one
    is a value of the tempo bins. *)
Record TempoChange : Set := {
  tempo : Q;
  time : Z
}.

(** [miditoolkit.Instrument] *)
Record Instrument : Set := {
  program : Z;
  is_drum : bool;
  notes : list Note
}.

(** [miditoolkit.MidiFile], the fields the tokenizer reads and writes. *)
Record MidiFile : Set := {
  ticks_per_beat : Z;
  instruments : list Instrument;
  tempo_changes : list TempoChange;
  max_tick : Z
}.

(** A duration bin [(beat, pos, res)]. *)
Definition duration : Set := Z * Z * Z.

(** The [additional_tokens] dict of the constructor. *)
Record AdditionalTokens : Set := {
  Tempo : bool;
  tempo_range : Z * Z;
  nb_tempos : Z;
  Rest : bool;
  rest_range : Z * Z;
  TimeSignature : bool;
  time_signature_range : Z * Z
}.

(** The attributes of a [MIDITokenizer] that the methods below read.
    [beat_res] is the dict [{(beat_x1, beat_x2): res}] as its [items()], in
    insertion order; [tokens_types_graph] is the dict that the encoding's
    [_create_token_types_graph] returns. *)
Record MIDITokenizer : Type := {
  pitch_range : pyrange;
  beat_res : list (Z * Z * Z);
  nb_velocities : Z;
  additional_tokens : AdditionalTokens;
  durations : list duration;
  velocities : list Z;
  _first_beat_res : Z;
  tempos : list Z;
  rests : list (Z * Z);
  tokens_types_graph : gmap string (list string)
}.

(** ** Bucket model *)

(** [np.linspace(0, 127, self.nb_velocities + 1, dtype=np.intc)[1:]] *)
Definition init_velocities (nb_velocities : Z) : outcome (list Z) :=
  let* bins := linspace_intc 0 127 (nb_velocities + 1) in
  Done (drop 1 bins).

(** [max(self.beat_res)]: the greatest key, tuples being compared
    lexicographically. *)
Definition tuple_ltb (k1 k2 : Z * Z) : bool :=
  (k1.1 <? k2.1) || ((k1.1 =? k2.1) && (k1.2 <? k2.2)).

(** An empty dict has no greatest key. *)
Definition max_key (beat_res : list (Z * Z * Z)) : outcome (Z * Z) :=
  match beat_res with
  | [] => Raise ValueError
  | (k, _) :: l =>
      Done (foldl (λ best kr, if tuple_ltb best kr.1 then kr.1 else best) k l)
  end.

(** [self.beat_res[key]] *)
Definition beat_res_at (beat_res : list (Z * Z * Z)) (key : Z * Z) : outcome Z :=
  match find (λ kr : Z * Z * Z, (kr.1.1 =? key.1) && (kr.1.2 =? key.2)) beat_res with
  | Some kr => Done kr.2
  | None => Raise KeyError
  end.

(** [__create_durations_tuples]: the bins of each range in turn, one bin
    at the last beat, and [del durations[0]]. *)
Definition __create_durations_tuples (beat_res : list (Z * Z * Z))
    : outcome (list duration) :=
  let durations :=
    mjoin ((λ kr : Z * Z * Z,
              let '(beat_range, res) := kr in
              mjoin ((λ beat, (λ pos, (beat, pos, res)) <$> range 0 res)
                       <$> range beat_range.1 beat_range.2))
             <$> beat_res) in
  let* last_range := max_key beat_res in
  let* last_res := beat_res_at beat_res last_range in
  let durations :=
    durations ++ [(Z.max last_range.1 last_range.2, 0, last_res)] in
  Done (drop 1 durations).

(** [(beat * res + pos) * time_division // res], the expression of
    [_token_duration_to_ticks] (on the parsed [beat.pos.res] value) and of
    the cache filled by [midi_to_tokens]. *)
Definition duration_to_ticks (d : duration) (time_division : Z) : outcome Z :=
  let '(beat, pos, res) := d in
  floordiv ((beat * res + pos) * time_division) res.

(** [self.durations_ticks[time_division]] as [midi_to_tokens] fills it. *)
Definition durations_ticks (durations : list duration) (time_division : Z)
    : outcome (list Z) :=
  all_done ((λ d, duration_to_ticks d time_division) <$> durations).

(** [self._first_beat_res] *)
Definition first_beat_res (beat_res : list (Z * Z * Z)) : outcome Z :=
  let* first := subscript beat_res.*2 0 IndexError in
  match find (λ kr : Z * Z * Z, (kr.1.1 =? 0) || (kr.1.2 =? 0)) beat_res with
  | Some kr => Done kr.2
  | None => Done first
  end.

(** The [while div > 1] loop of [__create_rests]. *)
Fixpoint rests_loop (fuel : nat) (first_res div : Z) (rests : list (Z * Z))
    : outcome (list (Z * Z)) :=
  if 1 <? div then
    match fuel with
    | O => Diverge
    | S fuel' =>
        rests_loop fuel' first_res (div / 2) (rests ++ [(0, first_res / div)])
    end
  else Done rests.

(** [__create_rests]; the loop halves [div], so [div] iterations are more
    than it can make. *)
Definition __create_rests (rest_range' : Z * Z) (first_res : Z)
    : outcome (list (Z * Z)) :=
  let '(div, max_beat) := rest_range' in
  if (div mod 2 =? 0) && (div <=? first_res) then
    let* rests := rests_loop (Z.to_nat div) first_res div [] in
    Done (rests ++ ((λ i, (i, 0)) <$> range 1 (max_beat + 1)))
  else Raise AssertionError.

(** [__init__] without [params]: the bins and the attributes derived from
    the arguments; [graph] stands for what [_create_token_types_graph]
    returns.  The time-signature list and the vocabulary are left out. *)
Definition __init__ (pitch_range' : pyrange) (beat_res' : list (Z * Z * Z))
    (nb_velocities' : Z) (additional_tokens' : AdditionalTokens)
    (graph : gmap string (list string)) : outcome MIDITokenizer :=
  let* durations' := __create_durations_tuples beat_res' in
  let* velocities' := init_velocities nb_velocities' in
  let* first_res := first_beat_res beat_res' in
  let* tempos' :=
    if Tempo additional_tokens' then
      linspace_intc (tempo_range additional_tokens').1
        (tempo_range additional_tokens').2 (nb_tempos additional_tokens')
    else Done [0] in
  let* rests' :=
    if Rest additional_tokens' then
      if (rest_range additional_tokens').1 / 4 <=? first_res then
        __create_rests (rest_range additional_tokens') first_res
      else Raise AssertionError
    else Done [] in
  Done {| pitch_range := pitch_range'; beat_res := beat_res';
          nb_velocities := nb_velocities';
          additional_tokens := additional_tokens';
          durations := durations'; velocities := velocities';
          _first_beat_res := first_res; tempos := tempos'; rests := rests';
          tokens_types_graph := graph |}.

(** ** Quantizer *)

(** [int(time_division / max(self.beat_res.values()))] *)
Definition ticks_per_sample (self : MIDITokenizer) (time_division : Z) : outcome Z :=
  let* res := pymax (beat_res self).*2 in
  int_truediv time_division res.

(** [x + (-offset if offset <= ticks_per_sample / 2 else ticks_per_sample - offset)] *)
Definition snap (tps x offset : Z) : Z :=
  x + (if 2 * offset <=? tps then - offset else tps - offset).

(** [bins[int(np.argmin(np.abs(bins - value)))]] *)
Definition nearest_bin (bins : list Z) (value : Z) : outcome Z :=
  let* k := argmin Z.ltb ((λ b, Z.abs (b - value)) <$> bins) in
  subscript bins k IndexError.

(** One turn of the loop of [quantize_notes] on a note that is kept. *)
Definition quantize_note (self : MIDITokenizer) (tps : Z) (n : Note) : outcome Note :=
  let* start_offset := pymod (start n) tps in
  let* end_offset := pymod (end_ n) tps in
  let start' := snap tps (start n) start_offset in
  let end' := snap tps (end_ n) end_offset in
  let end' := if start' =? end' then end' + tps else end' in
  let* velocity' := nearest_bin (velocities self) (velocity n) in
  Done {| pitch := pitch n; velocity := velocity'; start := start'; end_ := end' |}.

(** The [while i < len(notes)] loop: [del notes[i]] leaves [i] where it
    is, a kept note is overwritten in place. *)
Fixpoint quantize_notes_loop (fuel : nat) (self : MIDITokenizer) (tps : Z)
    (pitch_range : pyrange) (i : nat) (notes : list Note) : outcome (list Note) :=
  match notes !! i with
  | None => Done notes
  | Some n =>
      match fuel with
      | O => Diverge
      | S fuel' =>
          if negb (in_range (pitch n) pitch_range) then
            quantize_notes_loop fuel' self tps pitch_range i (delete i notes)
          else
            let* n' := quantize_note self tps n in
            quantize_notes_loop fuel' self tps pitch_range (S i) (<[i:=n']> notes)
      end
  end.

(** [quantize_notes]: the list it leaves in [notes].  Every turn of the
    loop deletes a note or moves [i] forward, so [len(notes)] turns end it. *)
Definition quantize_notes (self : MIDITokenizer) (notes : list Note)
    (time_division : Z) (pitch_range' : option pyrange) : outcome (list Note) :=
  let pitch_range' := default (pitch_range self) pitch_range' in
  let* tps := ticks_per_sample self time_division in
  quantize_notes_loop (length notes) self tps pitch_range' 0 notes.

(** [x < y] on tempo values. *)
Definition Qltb (x y : Q) : bool := negb (Qle_bool y x).

(** [self.tempos[np.argmin(np.abs(self.tempos - value))]] *)
Definition nearest_tempo (bins : list Z) (value : Q) : outcome Z :=
  let* k := argmin Qltb ((λ b, Qabs (inject_Z b - value)%Q) <$> bins) in
  subscript bins k IndexError.

(** The [while i < len(tempos)] loop of [quantize_tempos]. *)
Fixpoint quantize_tempos_loop (fuel : nat) (self : MIDITokenizer) (tps : Z)
    (prev_tempo : Z) (i : nat) (tempos_ : list TempoChange)
    : outcome (list TempoChange) :=
  match tempos_ !! i with
  | None => Done tempos_
  | Some tc =>
      match fuel with
      | O => Diverge
      | S fuel' =>
          let* tempo' := nearest_tempo (tempos self) (tempo tc) in
          if tempo' =? prev_tempo then
            quantize_tempos_loop fuel' self tps prev_tempo i (delete i tempos_)
          else
            let* rest := pymod (time tc) tps in
            let tc' := {| tempo := inject_Z tempo'; time := snap tps (time tc) rest |} in
            quantize_tempos_loop fuel' self tps tempo' (S i) (<[i:=tc']> tempos_)
      end
  end.

(** [quantize_tempos]: the list it leaves in [tempos]; [prev_tempo]
    starts at -1. *)
Definition quantize_tempos (self : MIDITokenizer) (tempos_ : list TempoChange)
    (time_division : Z) : outcome (list TempoChange) :=
  let* tps := ticks_per_sample self time_division in
  quantize_tempos_loop (length tempos_) self tps (-1) 0 tempos_.

(** ** Time-signature reduction *)

(** The [while] loop that halves both terms of the signature. *)
Fixpoint reduction_loop (fuel : nat) (max_beat_res numerator denominator : Z)
    : outcome (Z * Z) :=
  if (max_beat_res <? denominator) && (denominator mod 2 =? 0)
     && (numerator mod 2 =? 0) then
    match fuel with
    | O => Diverge
    | S fuel' => reduction_loop fuel' max_beat_res (numerator / 2) (denominator / 2)
    end
  else Done (numerator, denominator).

(** [for i in range(2, numerator + 1): if numerator % i == 0: ... break]:
    the [i] at which the loop breaks, if it does. *)
Definition first_factor (numerator : Z) : option Z :=
  find (λ i, numerator mod i =? 0) (range 2 (numerator + 1)).

(** The [while numerator > nb_notes * denominator] loop. *)
Fixpoint decomposition_loop (fuel : nat) (nb_notes numerator denominator : Z)
    : outcome (Z * Z) :=
  if nb_notes * denominator <? numerator then
    match fuel with
    | O => Diverge
    | S fuel' =>
        let numerator :=
          match first_factor numerator with
          | Some i => numerator / i
          | None => numerator
          end in
        decomposition_loop fuel' nb_notes numerator denominator
    end
  else Done (numerator, denominator).

(** [_reduce_time_signature], each loop running at most [fuel] turns. *)
Definition _reduce_time_signature (fuel : nat) (self : MIDITokenizer)
    (numerator denominator : Z) : outcome (Z * Z) :=
  let '(max_beat_res, nb_notes) := time_signature_range (additional_tokens self) in
  let* reduced := reduction_loop fuel max_beat_res numerator denominator in
  let '(numerator, denominator) := reduced in
  if denominator <=? max_beat_res then
    decomposition_loop fuel nb_notes numerator denominator
  else Raise AssertionError.

(** ** Validation of token-type successions *)

Section Validation.

(** [self.vocab.token_type], of [miditok/vocabulary.py]: the type of a
    token, raising on a token the vocabulary does not hold. *)
Variable token_type : Z → outcome string.

(** [self.tokens_types_graph[previous_type]] *)
Definition successors (self : MIDITokenizer) (previous_type : string)
    : outcome (list string) :=
  match tokens_types_graph self !! previous_type with
  | Some types => Done types
  | None => Raise KeyError
  end.

(** The loop taken when [consider_pad] holds. *)
Fixpoint errors_with_pad (self : MIDITokenizer) (err : Z)
    (previous_type : string) (tokens : list Z) : outcome Z :=
  match tokens with
  | [] => Done err
  | token :: tokens' =>
      let* type := token_type token in
      let* allowed := successors self previous_type in
      let err := if bool_decide (type ∈ allowed) then err else err + 1 in
      let* previous_type := token_type token in
      errors_with_pad self err previous_type tokens'
  end.

(** The loop taken otherwise, left at the first PAD token. *)
Fixpoint errors_until_pad (self : MIDITokenizer) (err : Z)
    (previous_type : string) (tokens : list Z) : outcome Z :=
  match tokens with
  | [] => Done err
  | token :: tokens' =>
      if bool_decide (previous_type = "PAD") then Done err
      else
        let* type := token_type token in
        let* allowed := successors self previous_type in
        let err := if bool_decide (type ∈ allowed) then err else err + 1 in
        let* previous_type := token_type token in
        errors_until_pad self err previous_type tokens'
  end.

(** [err / len(tokens)] *)
Definition ratio (err : Z) (len : nat) : outcome Q :=
  match len with
  | O => Raise ZeroDivisionError
  | S _ => Done (Qmake err (Pos.of_nat len))
  end.

(** [token_types_errors]: the error ratio of a sequence of tokens. *)
Definition token_types_errors (self : MIDITokenizer) (tokens : list Z)
    (consider_pad : bool) : outcome Q :=
  let* first := subscript tokens 0 IndexError in
  let* previous_type := token_type first in
  let* err :=
    if consider_pad then errors_with_pad self 0 previous_type (drop 1 tokens)
    else errors_until_pad self 0 previous_type (drop 1 tokens) in
  ratio err (length tokens).

End Validation.

(** ** Decoding facade *)

Section Decoding.

(** The tokens of one track, and the abstract [tokens_to_track] of the
    encoding: the track and the tempo changes it decodes. *)
Variable Tokens : Type.
Variable tokens_to_track :
  Tokens → Z → Z * bool → outcome (Instrument * list TempoChange).

(** [max([note.end for note in track.notes]) if len(track.notes) > 0 else 0] *)
Definition last_tick (track : Instrument) : outcome Z :=
  if (0 <? length (notes track))%nat then pymax (end_ <$> notes track)
  else Done 0.

(** The body of [for i, track_tokens in enumerate(tokens)]. *)
Definition decode_track (programs : option (list (Z * bool))) (time_division : Z)
    (midi : MidiFile) (i : nat) (track_tokens : Tokens) : outcome MidiFile :=
  let* decoded :=
    match programs with
    | Some programs =>
        let* program := subscript programs i IndexError in
        tokens_to_track track_tokens time_division program
    | None => tokens_to_track track_tokens time_division (0, false)
    end in
  let '(track, tempo_changes') := decoded in
  let midi :=
    {| ticks_per_beat := ticks_per_beat midi;
       instruments := instruments midi ++ [track];
       tempo_changes := tempo_changes midi;
       max_tick := max_tick midi |} in
  if (i =? 0)%nat then
    let* first := subscript tempo_changes' 0 IndexError in
    Done {| ticks_per_beat := ticks_per_beat midi;
            instruments := instruments midi;
            tempo_changes :=
              <[0%nat := {| tempo := tempo first; time := 0 |}]> tempo_changes';
            max_tick := max_tick midi |}
  else Done midi.

(** The loop over the tracks from index [i] on. *)
Fixpoint decode_tracks (programs : option (list (Z * bool))) (time_division : Z)
    (midi : MidiFile) (i : nat) (tokens : list Tokens) : outcome MidiFile :=
  match tokens with
  | [] => Done midi
  | track_tokens :: tokens' =>
      let* midi := decode_track programs time_division midi i track_tokens in
      decode_tracks programs time_division midi (S i) tokens'
  end.

(** [tokens_to_midi], up to the file it may write. *)
Definition tokens_to_midi (tokens : list Tokens)
    (programs : option (list (Z * bool))) (time_division : Z) : outcome MidiFile :=
  let midi :=
    {| ticks_per_beat := time_division; instruments := [];
       tempo_changes := []; max_tick := 0 |} in
  let* midi := decode_tracks programs time_division midi 0 tokens in
  let* ticks := all_done (last_tick <$> instruments midi) in
  let* max_tick' := pymax ticks in
  Done {| ticks_per_beat := ticks_per_beat midi;
          instruments := instruments midi;
          tempo_changes := tempo_changes midi;
          max_tick := max_tick' |}.

End Decoding.

(** ** Notions the properties are stated with *)

(** [p] is the smallest factor of [n] greater than 1. *)
Definition smallest_factor (n p : Z) : Prop :=
  1 < p ∧ (p | n) ∧ ∀ q, 1 < q → (q | n) → p ≤ q.

(** [n'] is reached from [n] by dividing by the smallest factor greater
    than 1 for as long as the number exceeds [bound]. *)
Inductive divided_down (bound : Z) : Z → Z → Prop :=
| divided_stop (n : Z) :
    n ≤ bound → divided_down bound n n
| divided_step (n p n' : Z) :
    bound < n → smallest_factor n p → divided_down bound (n / p) n' →
    divided_down bound n n'.

(** The grid line at or below [x] on a grid of step [step], and the grid
    line nearest to [x], the lower one when [x] is halfway. *)
Definition line_below (step x : Z) : Z := step * (x / step).

Definition nearest_line (step x : Z) : Z :=
  if decide (2 * (x - line_below step x) ≤ step) then line_below step x
  else line_below step x + step.

(** Sequential deduplication: a value equal to the last one kept ([prev]
    at first) is dropped. *)
Fixpoint dedup_adjacent (prev : Z) (l : list Z) : list Z :=
  match l with
  | [] => []
  | b :: l' =>
      if decide (b = prev) then dedup_adjacent prev l'
      else b :: dedup_adjacent b l'
  end.

(** What the loop of [quantize_tempos] makes of the changes it has not
    visited yet, [prev] being the tempo of the last change it kept. *)
Fixpoint quantize_tempos_from (self : MIDITokenizer) (tps prev : Z)
    (l : list TempoChange) : outcome (list TempoChange) :=
  match l with
  | [] => Done []
  | tc :: l' =>
      let* tempo' := nearest_tempo (tempos self) (tempo tc) in
      if tempo' =? prev then quantize_tempos_from self tps prev l'
      else
        let* rest := pymod (time tc) tps in
        let* out := quantize_tempos_from self tps tempo' l' in
        Done ({| tempo := inject_Z tempo'; time := snap tps (time tc) rest |} :: out)
  end.

(** The succession of type [next] after type [previous] is in the graph. *)
Definition in_graph (graph : gmap string (list string)) (previous next : string)
    : bool :=
  match graph !! previous with
  | Some allowed => bool_decide (next ∈ allowed)
  | None => false
  end.

(** The pairs of neighbours of a sequence. *)
Definition adjacent_pairs {A : Type} (l : list A) : list (A * A) := zip l (drop 1 l).

(** A sequence of types up to its first PAD, which is kept. *)
Fixpoint until_pad (types : list string) : list string :=
  match types with
  | [] => []
  | type :: types' =>
      if decide (type = "PAD") then [type] else type :: until_pad types'
  end.

(** The number of pairs whose succession is not in the graph. *)
Definition errors_in (graph : gmap string (list string))
    (pairs : list (string * string)) : nat :=
  length (filter (λ p, in_graph graph p.1 p.2 = false) pairs).

(** The number of pairs of neighbours whose succession is not in the
    graph, over the whole sequence or up to its first PAD. *)
Definition transition_errors (graph : gmap string (list string))
    (consider_pad : bool) (types : list string) : nat :=
  errors_in graph (adjacent_pairs (if consider_pad then types else until_pad types)).

(** Modelled from the spec: the lookup of a tick value among the duration
    bins, which the encodings do when they write a Duration or TimeShift
    token and which is not in [midi_tokenizer_base.py].  The spec has the
    bins in ascending order "because later lookups use nearest-match", the
    first minimum winning as it does for velocities: the bin is the one at
    the index of the nearest value of the tick cache. *)
Definition ticks_to_duration (durations : list duration) (time_division ticks : Z)
    : outcome duration :=
  let* bins := durations_ticks durations time_division in
  let* k := argmin Z.ltb ((λ b, Z.abs (b - ticks)) <$> bins) in
  subscript durations k IndexError.

(** ** A tokenizer to run the methods on *)

(** A small REMI-like configuration: pitches 21 to 108, eight samples per
    beat over the first four beats and four over the next eight, four
    velocity bins, four tempo bins, rests and time signatures enabled. *)
Definition sample_beat_res : list (Z * Z * Z) := [((0, 4), 8); ((4, 12), 4)].

Definition sample_additional_tokens : AdditionalTokens :=
  {| Tempo := true; tempo_range := (40, 250); nb_tempos := 4;
     Rest := true; rest_range := (4, 6);
     TimeSignature := true; time_signature_range := (8, 2) |}.

Definition sample_graph : gmap string (list string) :=
  list_to_map
    [("Bar", ["Position"; "PAD"]);
     ("Position", ["Pitch"; "PAD"]);
     ("Pitch", ["Velocity"; "PAD"]);
     ("Velocity", ["Duration"; "PAD"]);
     ("Duration", ["Pitch"; "Position"; "Bar"; "PAD"]);
     ("PAD", ["PAD"])].

Definition done_or {A : Type} (a : A) (m : outcome A) : A :=
  match m with
  | Done a' => a'
  | _ => a
  end.

Definition sample_tokenizer : MIDITokenizer :=
  {| pitch_range := {| r_start := 21; r_stop := 109; r_step := 1 |};
     beat_res := sample_beat_res;
     nb_velocities := 4;
     additional_tokens := sample_additional_tokens;
     durations := done_or [] (__create_durations_tuples sample_beat_res);
     velocities := [31; 63; 95; 127];
     _first_beat_res := 8;
     tempos := [40; 110; 180; 250];
     rests := [(0, 2); (0, 4); (1, 0); (2, 0); (3, 0); (4, 0); (5, 0); (6, 0)];
     tokens_types_graph := sample_graph |}.

(** The same tokenizer built without padding: PAD is in no list of the
    graph and is not a key of it. *)
Definition sample_tokenizer_no_pad : MIDITokenizer :=
  {| pitch_range := pitch_range sample_tokenizer;
     beat_res := beat_res sample_tokenizer;
     nb_velocities := nb_velocities sample_tokenizer;
     additional_tokens := additional_tokens sample_tokenizer;
     durations := durations sample_tokenizer;
     velocities := velocities sample_tokenizer;
     _first_beat_res := _first_beat_res sample_tokenizer;
     tempos := tempos sample_tokenizer;
     rests := rests sample_tokenizer;
     tokens_types_graph :=
       list_to_map
         [("Bar", ["Position"]);
          ("Position", ["Pitch"]);
          ("Pitch", ["Velocity"]);
          ("Velocity", ["Duration"]);
          ("Duration", ["Pitch"; "Position"; "Bar"])] |}.

(** The vocabulary of the sample: token 0 is PAD, then one token per type. *)
Definition sample_token_type (token : Z) : outcome string :=
  subscript ["PAD"; "Bar"; "Position"; "Pitch"; "Velocity"; "Duration"]
    (Z.to_nat token) KeyError.

(** Notes of a track at 480 ticks per beat (a grid of 60 ticks): the second
    one is below the pitch range, the third starts halfway between two grid
    lines, the fourth is shorter than half a step. *)
Definition sample_notes : list Note :=
  [ {| pitch := 60; velocity := 70; start := 29; end_ := 31 |};
    {| pitch := 10; velocity := 70; start := 29; end_ := 31 |};
    {| pitch := 61; velocity := 79; start := 30; end_ := 150 |};
    {| pitch := 62; velocity := 127; start := 241; end_ := 250 |} ].

Definition sample_quantized : list Note :=
  [ {| pitch := 60; velocity := 63; start := 0; end_ := 60 |};
    {| pitch := 61; velocity := 63; start := 0; end_ := 120 |};
    {| pitch := 62; velocity := 127; start := 240; end_ := 300 |} ].

(** Tempo changes at 480 ticks per beat: the second falls in the bin of the
    first, the fourth in the bin of the first again after another bin. *)
Definition sample_tempos : list TempoChange :=
  [ {| tempo := 121.5%Q; time := 31 |};
    {| tempo := 118%Q; time := 100 |};
    {| tempo := 50%Q; time := 150 |};
    {| tempo := 120%Q; time := 400 |} ].

Definition sample_tempos_quantized : list TempoChange :=
  [ {| tempo := inject_Z 110; time := 60 |};
    {| tempo := inject_Z 40; time := 120 |};
    {| tempo := inject_Z 110; time := 420 |} ].

(** Nine tokens: a bar, a position and a note, then a pitch after a
    pitch and a bar after a pitch, then padding and a duration after it. *)
Definition sample_tokens : list Z := [1; 2; 3; 4; 5; 3; 3; 1; 0; 0; 5].

(** A decoder to run [tokens_to_midi] with: every token is the pitch of a
    note one beat long, and the tempo changes start, as the decoders of the
    encodings do, with a default tempo whose time is -1. *)
Definition sample_tokens_to_track (tokens : list Z) (time_division : Z)
    (program' : Z * bool) : outcome (Instrument * list TempoChange) :=
  Done ({| program := program'.1; is_drum := program'.2;
           notes := imap (λ i token,
                      {| pitch := token; velocity := 63;
                         start := Z.of_nat i * time_division;
                         end_ := (Z.of_nat i + 1) * time_division |}) tokens |},
        [ {| tempo := inject_Z 120; time := -1 |};
          {| tempo := inject_Z (Z.of_nat (length tokens)); time := time_division |} ]).

Definition sample_midi : MidiFile :=
  {| ticks_per_beat := 480;
     instruments :=
       [ {| program := 0; is_drum := false;
            notes := [ {| pitch := 60; velocity := 63; start := 0; end_ := 480 |};
                       {| pitch := 62; velocity := 63; start := 480; end_ := 960 |} ] |};
         {| program := 0; is_drum := false;
            notes := [ {| pitch := 64; velocity := 63; start := 0; end_ := 480 |} ] |} ];
     tempo_changes := [ {| tempo := inject_Z 120; time := 0 |};
                        {| tempo := inject_Z 2; time := 480 |} ];
     max_tick := 960 |}.

(** * More of the tokenizer *)

(** ** Quantization of time-signature changes *)

Module TimeSignature.
(** [miditoolkit.TimeSignature] *)
Record t : Set := {
  numerator : Z;
  denominator : Z;
  time : Z
}.
End TimeSignature.

(** [divmod(a, b)] *)
Definition divmod (a b : Z) : outcome (Z * Z) :=
  if b =? 0 then Raise ZeroDivisionError else Done (a / b, a mod b).

(** [(a.numerator, a.denominator) == (b.numerator, b.denominator)] *)
Definition same_signature (a b : TimeSignature.t) : bool :=
  (TimeSignature.numerator a =? TimeSignature.numerator b)
  && (TimeSignature.denominator a =? TimeSignature.denominator b).

(** The [while i < len(time_sigs)] loop of [quantize_time_signatures]:
    a change that repeats the signature kept before it, or whose time is
    the tick of that one, is deleted; another one is moved to the next bar
    when it is not on a bar.  The changes of the list are distinct objects,
    so that writing the time of one leaves the others as they are. *)
Fixpoint quantize_time_signatures_loop (fuel : nat)
    (time_division ticks_per_bar current_bar previous_tick : Z)
    (prev_time_sig : TimeSignature.t) (i : nat)
    (time_sigs : list TimeSignature.t) : outcome (list TimeSignature.t) :=
  match time_sigs !! i with
  | None => Done time_sigs
  | Some time_sig =>
      match fuel with
      | O => Diverge
      | S fuel' =>
          if same_signature time_sig prev_time_sig
             || (TimeSignature.time time_sig =? previous_tick) then
            quantize_time_signatures_loop fuel' time_division ticks_per_bar
              current_bar previous_tick prev_time_sig i (delete i time_sigs)
          else
            let* bar := divmod (TimeSignature.time time_sig - previous_tick)
                          ticks_per_bar in
            let '(bar_offset, rest) := bar in
            let bar_offset := if 0 <? rest then bar_offset + 1 else bar_offset in
            let time_sig :=
              if 0 <? rest then
                {| TimeSignature.numerator := TimeSignature.numerator time_sig;
                   TimeSignature.denominator := TimeSignature.denominator time_sig;
                   TimeSignature.time := previous_tick + bar_offset * ticks_per_bar |}
              else time_sig in
            quantize_time_signatures_loop fuel' time_division
              (time_division * TimeSignature.numerator time_sig)
              (current_bar + bar_offset) (TimeSignature.time time_sig) time_sig
              (S i) (<[i:=time_sig]> time_sigs)
      end
  end.

(** [quantize_time_signatures]: the list it leaves in [time_sigs].  The
    loop starts at index 1, with tick 0 as the previous tick. *)
Definition quantize_time_signatures (time_sigs : list TimeSignature.t)
    (time_division : Z) : outcome (list TimeSignature.t) :=
  let* first := subscript time_sigs 0 IndexError in
  quantize_time_signatures_loop (length time_sigs) time_division
    (time_division * TimeSignature.numerator first) 0 0 first 1 time_sigs.

(** What the loop makes of the changes it has not visited yet. *)
Fixpoint quantize_time_signatures_from (time_division ticks_per_bar previous_tick : Z)
    (prev_time_sig : TimeSignature.t) (l : list TimeSignature.t)
    : outcome (list TimeSignature.t) :=
  match l with
  | [] => Done []
  | time_sig :: l' =>
      if same_signature time_sig prev_time_sig
         || (TimeSignature.time time_sig =? previous_tick) then
        quantize_time_signatures_from time_division ticks_per_bar previous_tick
          prev_time_sig l'
      else
        let* bar := divmod (TimeSignature.time time_sig - previous_tick)
                      ticks_per_bar in
        let time_sig :=
          if 0 <? bar.2 then
            {| TimeSignature.numerator := TimeSignature.numerator time_sig;
               TimeSignature.denominator := TimeSignature.denominator time_sig;
               TimeSignature.time := previous_tick + (bar.1 + 1) * ticks_per_bar |}
          else time_sig in
        let* out := quantize_time_signatures_from time_division
                      (time_division * TimeSignature.numerator time_sig)
                      (TimeSignature.time time_sig) time_sig l' in
        Done (time_sig :: out)
  end.

(** Every change of [l] is a whole number of bars after the one before
    it, the bars being those of the signature before it; [previous_tick]
    and [numerator] stand for the change before the first. *)
Fixpoint on_bars (time_division previous_tick numerator : Z)
    (l : list TimeSignature.t) : Prop :=
  match l with
  | [] => True
  | time_sig :: l' =>
      (TimeSignature.time time_sig - previous_tick) mod (time_division * numerator) = 0
      ∧ on_bars time_division (TimeSignature.time time_sig)
          (TimeSignature.numerator time_sig) l'
  end.

(** Three changes at 480 ticks per beat: the second comes in the middle
    of the second bar of 4/4, the third repeats it. *)
Definition sample_time_sigs : list TimeSignature.t :=
  [ {| TimeSignature.numerator := 4; TimeSignature.denominator := 4;
       TimeSignature.time := 0 |};
    {| TimeSignature.numerator := 3; TimeSignature.denominator := 4;
       TimeSignature.time := 2500 |};
    {| TimeSignature.numerator := 3; TimeSignature.denominator := 4;
       TimeSignature.time := 6000 |};
    {| TimeSignature.numerator := 6; TimeSignature.denominator := 8;
       TimeSignature.time := 6720 |} ].

Definition sample_time_sigs_quantized : list TimeSignature.t :=
  [ {| TimeSignature.numerator := 4; TimeSignature.denominator := 4;
       TimeSignature.time := 0 |};
    {| TimeSignature.numerator := 3; TimeSignature.denominator := 4;
       TimeSignature.time := 3840 |};
    {| TimeSignature.numerator := 6; TimeSignature.denominator := 8;
       TimeSignature.time := 6720 |} ].

(** ** The special tokens of the token-types graph *)

(** The dict that [_create_token_types_graph] builds, from a type to the
    list of the types that may follow it, as its items in insertion order.
    Its lists are distinct objects. *)
Definition types_graph : Type := list (string * list string).

(** [list(dic.keys())] *)
Definition dict_keys (dic : types_graph) : list string := dic.*1.

(** [dic[key] = value]: a key of the dict keeps its place, a new one comes
    last. *)
Fixpoint dict_set (dic : types_graph) (key : string) (value : list string)
    : types_graph :=
  match dic with
  | [] => [(key, value)]
  | (k, v) :: dic' =>
      if decide (k = key) then (k, value) :: dic'
      else (k, v) :: dict_set dic' key value
  end.

(** [for value in dic.values(): value.append(type)] *)
Definition append_to_values (type : string) (dic : types_graph) : types_graph :=
  (λ kv, (kv.1, kv.2 ++ [type])) <$> dic.

(** The flags [self._pad], [self._sos_eos] and [self._mask] of a tokenizer. *)
Record SpecialTokens : Set := {
  _pad : bool;
  _sos_eos : bool;
  _mask : bool
}.

(** [_add_special_tokens_to_types_graph]: the dict it leaves in [dic]. *)
Definition _add_special_tokens_to_types_graph (self : SpecialTokens)
    (dic : types_graph) : types_graph :=
  let dic :=
    if _pad self then dict_set (append_to_values "PAD" dic) "PAD" ["PAD"]
    else dic in
  let dic :=
    if _sos_eos self then
      let dic := dict_set dic "SOS" (dict_keys dic) in
      let dic := dict_set dic "EOS" [] in
      append_to_values "EOS" dic
    else dic in
  if _mask self then
    let dic := dict_set dic "MASK" (dict_keys dic) in
    append_to_values "MASK" dic
  else dic.

(** The special types that the lists of the graph are given, in the
    order in which they are appended. *)
Definition appended_types (self : SpecialTokens) : list string :=
  (if _pad self then ["PAD"] else [])
  ++ (if _sos_eos self then ["EOS"] else [])
  ++ (if _mask self then ["MASK"] else []).

(** The graph of the sample before its special tokens. *)
Definition sample_base_graph : types_graph :=
  [("Bar", ["Position"]);
   ("Position", ["Pitch"]);
   ("Pitch", ["Velocity"]);
   ("Velocity", ["Duration"]);
   ("Duration", ["Pitch"; "Position"; "Bar"])].

(** ** Time signatures of the vocabulary *)

(** [__create_time_signatures], for a [max_beat_res] below [2 ** 53]:
    there [math.log2(max_beat_res).is_integer()] holds for the powers of 2
    only, and [int(math.log2(max_beat_res))] is their exponent. *)
Definition __create_time_signatures (time_signature_range' : Z * Z)
    : outcome (list (Z * Z)) :=
  let '(max_beat_res, nb_notes) := time_signature_range' in
  if (0 <? max_beat_res) && (2 ^ Z.log2 max_beat_res =? max_beat_res) then
    Done (mjoin ((λ i, (λ j, (j, 2 ^ i)) <$> range 1 (2 ^ i * nb_notes + 1))
                   <$> range 0 (Z.log2 max_beat_res + 1)))
  else Raise AssertionError.

(** ** Beat ranges that follow one another *)

(** The ranges of [beat_res] start at [start], each is not empty, has a
    positive resolution and ends where the next one starts. *)
Fixpoint contiguous_from (start : Z) (ranges : list (Z * Z * Z)) : Prop :=
  match ranges with
  | [] => True
  | kr :: ranges' =>
      kr.1.1 = start ∧ kr.1.1 < kr.1.2 ∧ 0 < kr.2 ∧ contiguous_from kr.1.2 ranges'
  end.

(** The beat at which the last range ends. *)
Definition ranges_end (start : Z) (ranges : list (Z * Z * Z)) : Z :=
  foldl (λ _ kr, kr.1.2) start ranges.

(** The ticks of a bin whose position is below its resolution: its beats
    and the ticks of its position. *)
Definition ticks_of (time_division : Z) (d : duration) : Z :=
  d.1.1 * time_division + d.1.2 * time_division / d.2.

(** The bins of one range, and of the ranges one after another, as
    [__create_durations_tuples] lists them. *)
Definition range_bins (kr : Z * Z * Z) : list duration :=
  mjoin ((λ beat, (λ pos, (beat, pos, kr.2)) <$> range 0 kr.2)
           <$> range kr.1.1 kr.1.2).

Definition ranges_bins (ranges : list (Z * Z * Z)) : list duration :=
  mjoin (range_bins <$> ranges).

(** The program [tokens_to_midi] passes to [tokens_to_track] for the
    track of index [i]: [programs[i]], or the default of the decoder. *)
Definition program_of (programs : option (list (Z * bool))) (i : nat)
    (program' : Z * bool) : Prop :=
  match programs with
  | Some programs => programs !! i = Some program'
  | None => program' = (0, false)
  end.

(** ** Start and end of sequence *)

Section Framing.

(** [self.vocab[event]], of [miditok/vocabulary.py]: the token of an
    event given as a string, raising on an event the vocabulary does not
    hold. *)
Variable vocab : string → outcome Z.

(** [add_sos_eos_to_seq]: the list it leaves in [seq], which it changes in
    place, and how the call ends.  When [self.vocab['EOS_None']] raises the
    SOS token is in the list already. *)
Definition add_sos_eos_to_seq (seq : list Z) : list Z * outcome unit :=
  match vocab "SOS_None" with
  | Done sos =>
      let seq := sos :: seq in
      match vocab "EOS_None" with
      | Done eos => (seq ++ [eos], Done ())
      | Raise e => (seq, Raise e)
      | Diverge => (seq, Diverge)
      end
  | Raise e => (seq, Raise e)
  | Diverge => (seq, Diverge)
  end.

End Framing.

(** The sample with SOS and EOS: the tokens -1 and -2, and the graph that
    [_add_special_tokens_to_types_graph] makes with padding and both. *)
Definition sample_vocab (event : string) : outcome Z :=
  if decide (event = "SOS_None") then Done (-1)
  else if decide (event = "EOS_None") then Done (-2)
  else Raise KeyError.

Definition sample_token_type_sos_eos (token : Z) : outcome string :=
  if token =? -1 then Done "SOS"
  else if token =? -2 then Done "EOS"
  else sample_token_type token.

Definition sample_tokenizer_sos_eos : MIDITokenizer :=
  {| pitch_range := pitch_range sample_tokenizer;
     beat_res := beat_res sample_tokenizer;
     nb_velocities := nb_velocities sample_tokenizer;
     additional_tokens := additional_tokens sample_tokenizer;
     durations := durations sample_tokenizer;
     velocities := velocities sample_tokenizer;
     _first_beat_res := _first_beat_res sample_tokenizer;
     tempos := tempos sample_tokenizer;
     rests := rests sample_tokenizer;
     tokens_types_graph :=
       list_to_map
         (_add_special_tokens_to_types_graph
            {| _pad := true; _sos_eos := true; _mask := false |}
            sample_base_graph) |}.

(** ** Preprocessing of a MIDI object *)

(** The key [(x.start, x.pitch, x.end)] of the sort of the notes. *)
Definition note_key (x : Note) : Z * Z * Z := (start x, pitch x, end_ x).

(** [a < b] on such keys: tuples compare item by item. *)
Definition key_ltb (a b : Z * Z * Z) : bool :=
  let '(a1, a2, a3) := a in
  let '(b1, b2, b3) := b in
  (a1 <? b1) || ((a1 =? b1) && ((a2 <? b2) || ((a2 =? b2) && (a3 <? b3)))).

(** [notes.sort(key=...)]: the sort of Python is stable, so that its
    result is the one of the insertion sort that puts a note before the
    first of the notes after it whose key is not lower. *)
Fixpoint insert_note (x : Note) (sorted : list Note) : list Note :=
  match sorted with
  | [] => [x]
  | y :: sorted' =>
      if key_ltb (note_key y) (note_key x) then y :: insert_note x sorted'
      else x :: sorted
  end.

Definition sort_notes (notes : list Note) : list Note :=
  foldr insert_note [] notes.

Section Preprocessing.

(** [remove_duplicated_notes], of [miditok/utils.py]: the list it leaves
    in the notes it is given. *)
Variable remove_duplicated_notes : list Note → outcome (list Note).

(** The first three statements of the loop of [preprocess_midi]: the
    track with its notes quantized, sorted and without duplicates. *)
Definition preprocess_track (self : MIDITokenizer) (ticks_per_beat' : Z)
    (track : Instrument) : outcome Instrument :=
  let* quantized := quantize_notes self (notes track) ticks_per_beat' None in
  let* notes' := remove_duplicated_notes (sort_notes quantized) in
  Done {| program := program track; is_drum := is_drum track; notes := notes' |}.

(** The [while t < len(midi.instruments)] loop. *)
Fixpoint preprocess_tracks_loop (fuel : nat) (self : MIDITokenizer)
    (ticks_per_beat' : Z) (t : nat) (instruments' : list Instrument)
    : outcome (list Instrument) :=
  match instruments' !! t with
  | None => Done instruments'
  | Some track =>
      match fuel with
      | O => Diverge
      | S fuel' =>
          let* track := preprocess_track self ticks_per_beat' track in
          let instruments' := <[t := track]> instruments' in
          if (length (notes track) =? 0)%nat then
            preprocess_tracks_loop fuel' self ticks_per_beat' t
              (delete t instruments')
          else
            preprocess_tracks_loop fuel' self ticks_per_beat' (S t) instruments'
      end
  end.

(** [preprocess_midi]: the MIDI object it leaves, as the record above and
    its [time_signature_changes].  Every turn of the loop deletes a track
    or moves [t] forward, so [len(midi.instruments)] turns end it. *)
Definition preprocess_midi (self : MIDITokenizer) (midi : MidiFile)
    (time_signature_changes : list TimeSignature.t)
    : outcome (MidiFile * list TimeSignature.t) :=
  let* instruments' :=
    preprocess_tracks_loop (length (instruments midi)) self (ticks_per_beat midi)
      0 (instruments midi) in
  let* max_tick' :=
    if (0 <? length instruments')%nat then
      let* ends :=
        all_done ((λ track, pymax (end_ <$> notes track)) <$> instruments') in
      pymax ends
    else Done (max_tick midi) in
  let* tempo_changes' :=
    if Tempo (additional_tokens self) then
      quantize_tempos self (tempo_changes midi) (ticks_per_beat midi)
    else Done (tempo_changes midi) in
  let time_signature_changes :=
    if (length time_signature_changes =? 0)%nat then
      time_signature_changes
        ++ [ {| TimeSignature.numerator := 4; TimeSignature.denominator := 4;
                TimeSignature.time := 0 |} ]
    else time_signature_changes in
  let* time_signature_changes :=
    if TimeSignature (additional_tokens self) then
      quantize_time_signatures time_signature_changes (ticks_per_beat midi)
    else Done time_signature_changes in
  Done ({| ticks_per_beat := ticks_per_beat midi;
           instruments := instruments';
           tempo_changes := tempo_changes';
           max_tick := max_tick' |},
        time_signature_changes).

(** What the loop makes of the tracks it has not visited yet. *)
Fixpoint preprocess_tracks_from (self : MIDITokenizer) (ticks_per_beat' : Z)
    (l : list Instrument) : outcome (list Instrument) :=
  match l with
  | [] => Done []
  | track :: l' =>
      let* track := preprocess_track self ticks_per_beat' track in
      let* rest := preprocess_tracks_from self ticks_per_beat' l' in
      Done (if (length (notes track) =? 0)%nat then rest else track :: rest)
  end.

(** A track that the loop has been through: its program is the one of a
    track of the file, its notes are what [remove_duplicated_notes] leaves
    of the quantized and sorted notes of that track. *)
Definition preprocessed (self : MIDITokenizer) (ticks_per_beat' : Z)
    (track track' : Instrument) : Prop :=
  program track' = program track ∧ is_drum track' = is_drum track ∧
  ∃ quantized,
    quantize_notes self (notes track) ticks_per_beat' None = Done quantized ∧
    remove_duplicated_notes (sort_notes quantized) = Done (notes track').

End Preprocessing.

(** The order of the keys of two notes: [key a <= key b]. *)
Definition notes_ordered (a b : Note) : Prop :=
  start a < start b ∨
  (start a = start b ∧
   (pitch a < pitch b ∨ (pitch a = pitch b ∧ end_ a ≤ end_ b))).

(** A [remove_duplicated_notes] to run the sample with: of the notes that
    follow each other with the same pitch and start, the first one stays. *)
Fixpoint sample_remove_duplicated_notes_from (previous : Note) (notes : list Note)
    : list Note :=
  match notes with
  | [] => []
  | x :: notes' =>
      if (pitch x =? pitch previous) && (start x =? start previous) then
        sample_remove_duplicated_notes_from previous notes'
      else x :: sample_remove_duplicated_notes_from x notes'
  end.

Definition sample_remove_duplicated_notes (notes : list Note) : outcome (list Note) :=
  match notes with
  | [] => Done []
  | x :: notes' => Done (x :: sample_remove_duplicated_notes_from x notes')
  end.

(** A file to preprocess at 480 ticks per beat: the notes of the first
    track are those above, the second track has no note in the pitch range,
    the notes of the third are not in order and two of them are one once
    they are quantized. *)
Definition sample_raw_midi : MidiFile :=
  {| ticks_per_beat := 480;
     instruments :=
       [ {| program := 0; is_drum := false; notes := sample_notes |};
         {| program := 5; is_drum := false;
            notes := [ {| pitch := 10; velocity := 70; start := 0; end_ := 480 |} ] |};
         {| program := 9; is_drum := true;
            notes := [ {| pitch := 40; velocity := 100; start := 475; end_ := 600 |};
                       {| pitch := 36; velocity := 100; start := 2; end_ := 118 |};
                       {| pitch := 36; velocity := 90; start := 0; end_ := 100 |} ] |} ];
     tempo_changes := sample_tempos;
     max_tick := 600 |}.

(** What [preprocess_midi] makes of it, with no time signature in the
    file. *)
Definition sample_preprocessed : MidiFile :=
  {| ticks_per_beat := 480;
     instruments :=
       [ {| program := 0; is_drum := false;
            notes := [ {| pitch := 60; velocity := 63; start := 0; end_ := 60 |};
                       {| pitch := 61; velocity := 63; start := 0; end_ := 120 |};
                       {| pitch := 62; velocity := 127; start := 240; end_ := 300 |} ] |};
         {| program := 9; is_drum := true;
            notes := [ {| pitch := 36; velocity := 95; start := 0; end_ := 120 |};
                       {| pitch := 40; velocity := 95; start := 480; end_ := 600 |} ] |} ];
     tempo_changes := sample_tempos_quantized;
     max_tick := 600 |}.

(** ** Events and tokens *)

(** An [Event] of [miditok/vocabulary.py], as [tokens_to_events] builds
    it: [Event(name, val)] with its type and its value, two strings. *)
Record Event : Set := {
  type_ : string;
  value : string
}.

(** A [Vocabulary] of [miditok/vocabulary.py]: its two dicts. *)
Record Vocabulary : Type := {
  event_to_token : gmap string Z;
  token_to_event : gmap Z string
}.

(** The character ['_']. *)
Definition underscore : Ascii.ascii := Ascii.ascii_of_nat 95.

(** [s.split(sep)] for a separator of one character: the parts of [s]
    between the occurrences of [sep], one more than there are
    occurrences. *)
Fixpoint split (sep : Ascii.ascii) (s : string) : list string :=
  match s with
  | EmptyString => [EmptyString]
  | String c s' =>
      if Ascii.eqb c sep then EmptyString :: split sep s'
      else
        match split sep s' with
        | part :: parts => String c part :: parts
        | [] => [String c EmptyString]
        end
  end.

(** The number of occurrences of a character in a string. *)
Fixpoint count_char (c : Ascii.ascii) (s : string) : nat :=
  match s with
  | EmptyString => 0
  | String c' s' => (if Ascii.eqb c' c then 1 else 0) + count_char c s'
  end.

(** [name, val = vocab.token_to_event[token].split('_')] followed by
    [Event(name, val)]: the unpacking raises a ValueError unless the
    entry has two parts. *)
Definition token_to_event_object (vocab : Vocabulary) (token : Z) : outcome Event :=
  let* entry :=
    match token_to_event vocab !! token with
    | Some entry => Done entry
    | None => Raise KeyError
    end in
  match split underscore entry with
  | [name; val] => Done {| type_ := name; value := val |}
  | _ => Raise ValueError
  end.

(** [tokens_to_events] with a single vocabulary. *)
Definition tokens_to_events (vocab : Vocabulary) (tokens : list Z)
    : outcome (list Event) :=
  all_done (token_to_event_object vocab <$> tokens).

(** [tokens_to_events] with multiple vocabularies ([is_multi_voc]): the
    token of index [i] of a time step is looked up in [self.vocab[i]]. *)
Definition tokens_to_events_multi (vocab : list Vocabulary)
    (tokens : list (list Z)) : outcome (list (list Event)) :=
  all_done
    ((λ multi_token,
        all_done
          (imap (λ i token,
                   let* vocab_i := subscript vocab i IndexError in
                   token_to_event_object vocab_i token) multi_token))
       <$> tokens).

Section EventsToTokens.

(** [str(event)], of [miditok/vocabulary.py]. *)
Variable str : Event → string.

(** [events_to_tokens] *)
Definition events_to_tokens (vocab : Vocabulary) (events : list Event)
    : outcome (list Z) :=
  all_done
    ((λ event,
        match event_to_token vocab !! str event with
        | Some token => Done token
        | None => Raise KeyError
        end) <$> events).

End EventsToTokens.

(** The string [type_value] of an event. *)
Definition type_value (event : Event) : string :=
  type_ event +:+ String underscore (value event).

(** A vocabulary to run the sample with, one of its entries with two
    underscores. *)
Definition sample_vocabulary : Vocabulary :=
  {| event_to_token :=
       list_to_map [("PAD_None", 0); ("Pitch_60", 1); ("Velocity_63", 2);
                    ("Duration_1.0.8", 3); ("Time_Shift_1.0.8", 4)];
     token_to_event :=
       list_to_map [(0, "PAD_None"); (1, "Pitch_60"); (2, "Velocity_63");
                    (3, "Duration_1.0.8"); (4, "Time_Shift_1.0.8")] |}.

(** ** Encoding of a MIDI object *)

Module Metadata.
(** [self.current_midi_metadata], a dict with these keys; the key
    signatures are only handed over. *)
Record t (KeySignatures : Type) : Type := {
  time_division : Z;
  tempo_changes : list TempoChange;
  time_sig_changes : list TimeSignature.t;
  key_sig_changes : KeySignatures
}.
Arguments time_division {_} _.
Arguments tempo_changes {_} _.
Arguments time_sig_changes {_} _.
Arguments key_sig_changes {_} _.
End Metadata.

Section Encoding.

Variable remove_duplicated_notes : list Note → outcome (list Note).
Variable KeySignatures : Type.

(** The tokens of one track, and the abstract [track_to_tokens] of the
    encoding, which reads the cache [self.durations_ticks] and the metadata
    of the tokenizer. *)
Variable Tokens : Type.
Variable track_to_tokens :
  gmap Z (list Z) → Metadata.t KeySignatures → Instrument → outcome Tokens.



End Encoding.


(** * Properties *)

(** Linear arithmetic with [/] and [mod]. *)
Ltac div_lia := zify; Z.to_euclidean_division_equations; lia.

(** ** Outcomes *)

Lemma bind_Done {A B : Type} (m : outcome A) (k : A → outcome B) (b : B) :
  bind m k = Done b ↔ ∃ a, m = Done a ∧ k a = Done b.
Proof.
  destruct m as [a|e|]; simpl; split; try (intros [a' [? ?]]); try discriminate; eauto.
  by simplify_eq.
Qed.

Lemma bind_assoc {A B C : Type} (m : outcome A) (k : A → outcome B) (h : B → outcome C) :
  bind (bind m k) h = bind m (λ a, bind (k a) h).
Proof. by destruct m. Qed.

Lemma bind_ext {A B : Type} (m : outcome A) (k1 k2 : A → outcome B) :
  (∀ a, m = Done a → k1 a = k2 a) → bind m k1 = bind m k2.
Proof. destruct m; simpl; auto. Qed.

Lemma subscript_Done {A : Type} (l : list A) (i : nat) (e : exn) (a : A) :
  subscript l i e = Done a ↔ l !! i = Some a.
Proof. unfold subscript. destruct (l !! i); split; intros; simplify_eq; done. Qed.

Lemma all_done_Done {A B : Type} (f : A → outcome B) (l : list A) (out : list B) :
  all_done (f <$> l) = Done out ↔ Forall2 (λ a b, f a = Done b) l out.
Proof.
  revert out. induction l as [|a l IH]; intros out.
  - simpl. split; [intros; simplify_eq; constructor | by inversion 1].
  - rewrite fmap_cons. cbn [all_done]. rewrite bind_Done. split.
    + intros (b & Hb & Hk). apply bind_Done in Hk as (bs & Hbs & ?); simplify_eq.
      constructor; [done | by apply IH].
    + inversion 1 as [|? b ? bs Hb Hbs]; subst. exists b. split; [done|].
      apply IH in Hbs. by rewrite Hbs.
Qed.

(** [sample_tokenizer] is what the constructor builds. *)
Lemma sample_tokenizer_init :
  __init__ {| r_start := 21; r_stop := 109; r_step := 1 |} sample_beat_res 4
    sample_additional_tokens sample_graph = Done sample_tokenizer.
Proof. reflexivity. Qed.

(** ** Rest buckets *)

Lemma rests_loop_fuel (fuel : nat) (first_res div : Z) (rests : list (Z * Z)) :
  (Z.to_nat div ≤ fuel)%nat → rests_loop fuel first_res div rests ≠ Diverge.
Proof.
  revert div rests. induction fuel as [|fuel IH]; intros div rests Hfuel; simpl.
  - destruct (Z.ltb_spec 1 div); [lia | done].
  - destruct (Z.ltb_spec 1 div); [|done]. apply IH.
    assert (div / 2 < div) by (apply Z.div_lt; lia). lia.
Qed.

(** [__create_rests] returns or fails its assertion: its loop ends. *)
Lemma create_rests_ends (range' : Z * Z) (first_res : Z) :
  __create_rests range' first_res ≠ Diverge.
Proof.
  destruct range' as [div max_beat]. unfold __create_rests.
  destruct (_ && _); [|done].
  pose proof (rests_loop_fuel (Z.to_nat div) first_res div [] (le_n _)) as H.
  by destruct (rests_loop _ _ _ _).
Qed.

(** C9: with [rest_range = (4, 6)] and a first beat resolution of 8,
    [__create_rests] builds exactly
    [(0,2), (0,4), (1,0), (2,0), (3,0), (4,0), (5,0), (6,0)]: the sub-beat
    rests of the halved divisors, smallest first, then the whole beats 1
    to 6.  The first beat resolution is the one [__init__] takes from a
    [beat_res] whose first range starts at beat 0. *)
Theorem create_rests_4_6_8 :
  first_beat_res [((0, 4), 8); ((4, 12), 4)] = Done 8 ∧
  __create_rests (4, 6) 8 =
    Done [(0, 2); (0, 4); (1, 0); (2, 0); (3, 0); (4, 0); (5, 0); (6, 0)].
Proof. split; reflexivity. Qed.

(** ** Velocity buckets *)

Lemma StronglySorted_fmap_seqZ (f : Z → Z) (m n : Z) :
  (∀ i j, m ≤ i → i < j → j < m + n → f i < f j) →
  StronglySorted Z.lt (f <$> seqZ m n).
Proof.
  remember (Z.to_nat n) as k eqn:Hk. revert m n Hk.
  induction k as [|k IH]; intros m n Hk Hf.
  - rewrite seqZ_nil by lia. constructor.
  - rewrite seqZ_cons by lia. rewrite fmap_cons. constructor.
    + apply IH; [lia|]. intros i j ? ? ?. apply Hf; lia.
    + apply Forall_fmap, Forall_seqZ. intros j Hj. simpl. apply Hf; lia.
Qed.

Lemma StronglySorted_lt_NoDup (l : list Z) : StronglySorted Z.lt l → NoDup l.
Proof.
  induction 1 as [|x l _ IH Hx]; constructor; [|done].
  intros Hin. rewrite Forall_forall in Hx. specialize (Hx _ Hin). lia.
Qed.

Lemma init_velocities_bins (N : Z) :
  1 ≤ N → init_velocities N = Done ((λ i, i * 127 / N) <$> seqZ 1 N).
Proof.
  intros HN. unfold init_velocities, linspace_intc.
  destruct (Z.ltb_spec (N + 1) 0); [lia|].
  destruct (Z.eqb_spec (N + 1) 1); [lia|]. simpl.
  rewrite (seqZ_cons 0) by lia. rewrite fmap_cons. simpl. rewrite drop_0.
  replace (Z.succ 0) with 1 by lia. replace (Z.pred (N + 1)) with N by lia.
  f_equal. apply list_fmap_ext. intros _ i _. f_equal; lia.
Qed.

(** Scaling by [a / n] with [n <= a] keeps integers apart. *)
Lemma scaled_div_mono (a n i j : Z) :
  0 < n → n ≤ a → i < j → i * a / n < j * a / n.
Proof.
  intros Hn Ha Hij.
  assert (i * a / n + 1 ≤ (i + 1) * a / n).
  { rewrite <- (Z.div_add _ 1 n) by lia. apply Z.div_le_mono; lia. }
  assert ((i + 1) * a / n ≤ j * a / n) by (apply Z.div_le_mono; nia). lia.
Qed.

(** C7, amended: for [0 <= nb_velocities = N <= 127] the velocity bins
    are [N] values, pairwise distinct, strictly ascending, none of them 0
    and none above 127: the linear interpolation [i * 127 / N], [i = 1..N],
    of [[0, 127]] without its 0 end point, each sample rounded down to an
    integer. *)
Theorem velocities_bins (N : Z) :
  0 ≤ N → N ≤ 127 →
  ∃ bins, init_velocities N = Done bins ∧
    length bins = Z.to_nat N ∧
    NoDup bins ∧
    StronglySorted Z.lt bins ∧
    (0 ∉ bins) ∧
    bins = (λ i, i * 127 / N) <$> seqZ 1 N ∧
    Forall (λ v, 1 ≤ v ≤ 127) bins.
Proof.
  intros H0 H127. destruct (decide (N = 0)) as [->|Hne].
  { exists []. repeat split; try constructor. set_solver. }
  assert (1 ≤ N) as H1 by lia.
  assert (StronglySorted Z.lt ((λ i, i * 127 / N) <$> seqZ 1 N)) as Hsorted.
  { apply StronglySorted_fmap_seqZ. intros i j _ Hij _. apply scaled_div_mono; lia. }
  assert (Forall (λ v, 1 ≤ v ≤ 127) ((λ i, i * 127 / N) <$> seqZ 1 N)) as Hbound.
  { apply Forall_fmap, Forall_seqZ. intros i Hi. simpl. split.
    - apply Z.div_le_lower_bound; lia.
    - apply Z.div_le_upper_bound; nia. }
  eexists. split; [by apply init_velocities_bins|].
  split; [by rewrite length_fmap, length_seqZ|].
  split; [by apply StronglySorted_lt_NoDup|].
  split; [done|]. split; [|done].
  intros Hin. rewrite Forall_forall in Hbound. specialize (Hbound _ Hin). lia.
Qed.

Lemma velocities_bins_witness :
  ∃ bins, init_velocities 4 = Done bins ∧
    length bins = Z.to_nat 4 ∧
    NoDup bins ∧
    StronglySorted Z.lt bins ∧
    (0 ∉ bins) ∧
    bins = (λ i, i * 127 / 4) <$> seqZ 1 4 ∧
    Forall (λ v, 1 ≤ v ≤ 127) bins.
Proof. apply (velocities_bins 4); lia. Defined.

(** C7 as stated fails above 127 bins: with 128 bins the first one is 0,
    and with 256 the first two are equal.  The samples are rounded down:
    with 2 bins the sample 63.5 gives 63. *)
Lemma velocities_bins_128 :
  (∃ bins, init_velocities 128 = Done bins ∧ length bins = 128%nat ∧ 0 ∈ bins) ∧
  (∃ bins, init_velocities 256 = Done bins ∧ length bins = 256%nat ∧ ¬ NoDup bins) ∧
  init_velocities 2 = Done [63; 127].
Proof.
  split; [|split].
  - eexists. split; [reflexivity|]. split; [reflexivity|]. by left.
  - eexists. split; [reflexivity|]. split; [reflexivity|].
    intros Hnd. apply NoDup_cons_1_1 in Hnd. apply Hnd. by left.
  - reflexivity.
Qed.

(** ** Time-signature reduction *)

Lemma find_Some_split {A : Type} (f : A → bool) (l : list A) (x : A) :
  find f l = Some x →
  ∃ l1 l2, l = l1 ++ x :: l2 ∧ f x = true ∧ Forall (λ y, f y = false) l1.
Proof.
  induction l as [|a l IH]; simpl; [done|].
  destruct (f a) eqn:Hfa.
  - intros [= ->]. exists [], l. by repeat split.
  - intros (l1 & l2 & -> & Hx & Hl1)%IH. exists (a :: l1), l2.
    repeat split; [done|]. by constructor.
Qed.

Lemma find_None_Forall {A : Type} (f : A → bool) (l : list A) :
  find f l = None → Forall (λ y, f y = false) l.
Proof.
  induction l as [|a l IH]; simpl; [constructor|].
  destruct (f a) eqn:Hfa; [done|]. intros H. constructor; auto.
Qed.

Lemma mod_0_divide (n i : Z) : i ≠ 0 → (n mod i =? 0) = true ↔ (i | n).
Proof. intros Hi. rewrite Z.eqb_eq. by apply Z.mod_divide. Qed.

(** The [for] loop breaks at the smallest factor greater than 1, and it
    does break when the numerator is at least 2. *)
Lemma first_factor_smallest (n p : Z) :
  first_factor n = Some p → smallest_factor n p ∧ p ≤ n.
Proof.
  unfold first_factor, range. intros (l1 & l2 & Hl & Hp & Hl1)%find_Some_split.
  assert (seqZ 2 (n + 1 - 2) !! length l1 = Some p) as Hlook.
  { rewrite Hl. by apply list_lookup_middle. }
  apply lookup_seqZ in Hlook as [-> Hlen].
  apply mod_0_divide in Hp; [|lia].
  split; [|lia]. split; [lia|]. split; [done|].
  intros q Hq Hdiv. destruct (Z_lt_le_dec q (2 + Z.of_nat (length l1))) as [Hlt|]; [|done].
  exfalso. assert (l1 !! Z.to_nat (q - 2) = Some q) as Hin.
  { assert (seqZ 2 (n + 1 - 2) !! Z.to_nat (q - 2) = Some q) as Hq'.
    { apply lookup_seqZ. lia. }
    rewrite Hl, lookup_app_l in Hq' by lia. done. }
  rewrite Forall_forall in Hl1.
  assert (q ∈ l1) as Hel by (eapply list_elem_of_lookup_2; eassumption).
  specialize (Hl1 q Hel). simpl in Hl1.
  apply mod_0_divide in Hdiv; [congruence | lia].
Qed.

Lemma first_factor_exists (n : Z) : 2 ≤ n → ∃ p, first_factor n = Some p.
Proof.
  intros Hn. destruct (first_factor n) as [p|] eqn:Hff; [eauto|].
  unfold first_factor, range in Hff. apply find_None_Forall in Hff.
  rewrite Forall_forall in Hff.
  assert (n ∈ seqZ 2 (n + 1 - 2)) as Hin by (apply elem_of_seqZ; lia).
  specialize (Hff n Hin). simpl in Hff. rewrite Z.mod_same in Hff by lia. done.
Qed.

Lemma reduction_loop_Done (fuel : nat) (mbr num den num' den' : Z) :
  reduction_loop fuel mbr num den = Done (num', den') →
  den' ≤ mbr ∨ den' mod 2 ≠ 0 ∨ num' mod 2 ≠ 0.
Proof.
  revert num den. induction fuel as [|fuel IH]; intros num den; simpl.
  - destruct (Z.ltb_spec mbr den), (Z.eqb_spec (den mod 2) 0),
      (Z.eqb_spec (num mod 2) 0); simpl; intros; simplify_eq; auto.
  - destruct (Z.ltb_spec mbr den), (Z.eqb_spec (den mod 2) 0),
      (Z.eqb_spec (num mod 2) 0); simpl; intros; simplify_eq; eauto.
Qed.

Lemma decomposition_loop_Done (fuel : nat) (nb num den num' den' : Z) :
  decomposition_loop fuel nb num den = Done (num', den') →
  den' = den ∧ divided_down (nb * den) num num'.
Proof.
  revert num. induction fuel as [|fuel IH]; intros num; simpl.
  - destruct (Z.ltb_spec (nb * den) num); intros; simplify_eq.
    split; [done|]. by apply divided_stop.
  - destruct (Z.ltb_spec (nb * den) num) as [Hlt|Hle].
    + destruct (first_factor num) as [p|] eqn:Hp.
      * intros [-> Hdown]%IH. split; [done|].
        eapply divided_step; [done| |done]. by apply first_factor_smallest.
      * intros [-> Hdown]%IH. split; [done|].
        inversion Hdown; subst; [lia|done].
    + intros; simplify_eq. split; [done|]. by apply divided_stop.
Qed.

Lemma divided_down_bound (bound n n' : Z) : divided_down bound n n' → n' ≤ bound.
Proof. induction 1; auto. Qed.

Lemma reduction_loop_ends (fuel : nat) (mbr num den : Z) :
  1 ≤ num → 1 ≤ den → (Z.to_nat den ≤ fuel)%nat →
  ∃ num' den', reduction_loop fuel mbr num den = Done (num', den') ∧
    1 ≤ num' ≤ num ∧ 1 ≤ den' ≤ den.
Proof.
  revert num den. induction fuel as [|fuel IH]; intros num den Hnum Hden Hfuel; [lia|].
  simpl. destruct (Z.ltb_spec mbr den), (Z.eqb_spec (den mod 2) 0),
    (Z.eqb_spec (num mod 2) 0); simpl; try (eexists _, _; split; [done|lia]).
  destruct (IH (num / 2) (den / 2)) as (num' & den' & Heq & ? & ?); [div_lia..|].
  exists num', den'. split; [done|]. div_lia.
Qed.

Lemma decomposition_loop_ends (fuel : nat) (nb num den : Z) :
  1 ≤ num → 1 ≤ nb * den → (Z.to_nat num ≤ fuel)%nat →
  ∃ num', decomposition_loop fuel nb num den = Done (num', den).
Proof.
  revert num. induction fuel as [|fuel IH]; intros num Hnum Hbound Hfuel; [lia|].
  simpl. destruct (Z.ltb_spec (nb * den) num) as [Hlt|Hle]; [|eauto].
  destruct (first_factor_exists num) as [p Hp]; [lia|]. rewrite Hp.
  apply first_factor_smallest in Hp as [(Hp1 & Hdiv & _) Hple].
  assert (0 < num / p) by (apply Z.div_str_pos; lia).
  assert (num / p < num) by (apply Z.div_lt; lia).
  apply IH; lia.
Qed.

(** For a signature and a range of positive numbers, [_reduce_time_signature]
    returns or fails its assertion once the fuel covers both terms. *)
Lemma reduce_time_signature_ends (fuel : nat) (self : MIDITokenizer) (num den : Z) :
  1 ≤ num → 1 ≤ den → 1 ≤ (time_signature_range (additional_tokens self)).2 →
  (Z.to_nat (Z.max num den) ≤ fuel)%nat →
  _reduce_time_signature fuel self num den ≠ Diverge.
Proof.
  intros Hnum Hden Hnb Hfuel. unfold _reduce_time_signature. revert Hnb.
  destruct (time_signature_range _) as [mbr nb]. simpl. intros Hnb.
  destruct (reduction_loop_ends fuel mbr num den) as (n0 & d0 & -> & ? & ?); [lia..|].
  simpl. destruct (d0 <=? mbr); [|done].
  assert (1 ≤ nb * d0) by nia.
  destruct (decomposition_loop_ends fuel nb n0 d0) as (n1 & ->); [lia..|done].
Qed.

(** C6: with [time_signature_range = (8, 2)] the signature (10, 4) is
    reduced to (5, 4), whatever fuel the loops are given beyond one turn;
    and whenever [_reduce_time_signature] returns a pair, its denominator
    is at most [max_beat_res], its numerator at most [nb_notes] times the
    denominator, and the numerator is reached from the halved one by
    dividing by the smallest factor greater than 1 for as long as it
    exceeds that bound. *)
Theorem reduce_time_signature_bounds :
  (∀ (self : MIDITokenizer) (fuel : nat),
     time_signature_range (additional_tokens self) = (8, 2) →
     _reduce_time_signature (S fuel) self 10 4 = Done (5, 4)) ∧
  (∀ (fuel : nat) (self : MIDITokenizer) (num den num' den' : Z),
     _reduce_time_signature fuel self num den = Done (num', den') →
     den' ≤ (time_signature_range (additional_tokens self)).1 ∧
     num' ≤ (time_signature_range (additional_tokens self)).2 * den' ∧
     ∃ num0,
       reduction_loop fuel (time_signature_range (additional_tokens self)).1 num den
         = Done (num0, den') ∧
       divided_down ((time_signature_range (additional_tokens self)).2 * den')
         num0 num').
Proof.
  split.
  - intros self fuel Hrange. unfold _reduce_time_signature. rewrite Hrange.
    by destruct fuel.
  - intros fuel self num den num' den'. unfold _reduce_time_signature.
    destruct (time_signature_range _) as [mbr nb]. simpl. intros H.
    apply bind_Done in H as ([n0 d0] & Hred & H).
    destruct (Z.leb_spec d0 mbr) as [Hle|]; [|done].
    apply decomposition_loop_Done in H as [-> Hdown].
    split; [done|]. split; [by eapply divided_down_bound|]. by exists n0.
Qed.

Lemma reduce_time_signature_bounds_witness :
  _reduce_time_signature 1 sample_tokenizer 10 4 = Done (5, 4) ∧
  4 ≤ 8 ∧ 5 ≤ 2 * 4 ∧
  (∃ num0, reduction_loop 1 8 10 4 = Done (num0, 4) ∧ divided_down (2 * 4) num0 5).
Proof.
  destruct reduce_time_signature_bounds as [Hexample Hbounds].
  split; [exact (Hexample sample_tokenizer 0%nat eq_refl)|].
  exact (Hbounds 1%nat sample_tokenizer 10 4 5 4 eq_refl).
Defined.

(** ** [argmin] and the nearest bin *)

Lemma argmin_from_lt {A : Type} (ltb : A → A → bool) (l : list A)
    (best : nat) (d : A) (i : nat) :
  (best < i)%nat → (argmin_from ltb best d i l < i + length l)%nat.
Proof.
  revert best d i. induction l as [|x l IH]; intros best d i Hbest; simpl; [lia|].
  destruct (ltb x d).
  - specialize (IH i x (S i)). lia.
  - specialize (IH best d (S i)). lia.
Qed.

Lemma argmin_lt {A : Type} (ltb : A → A → bool) (l : list A) (k : nat) :
  argmin ltb l = Done k → (k < length l)%nat.
Proof.
  destruct l as [|x l]; simpl; [done|]. intros [= <-].
  pose proof (argmin_from_lt ltb l 0 x 1). lia.
Qed.

Lemma argmin_Done {A : Type} (ltb : A → A → bool) (l : list A) :
  l ≠ [] → ∃ k, argmin ltb l = Done k.
Proof. destruct l; [done|]. simpl. eauto. Qed.

(** Over integers the index found holds a least item. *)
Lemma argmin_from_least (pre l : list Z) (best : nat) (d : Z) :
  pre !! best = Some d → Forall (λ y, d ≤ y) pre →
  ∃ x, (pre ++ l) !! argmin_from Z.ltb best d (length pre) l = Some x ∧
       Forall (λ y, x ≤ y) (pre ++ l).
Proof.
  revert pre best d. induction l as [|x l IH]; intros pre best d Hbest Hle; simpl.
  - rewrite app_nil_r. eauto.
  - replace (pre ++ x :: l) with ((pre ++ [x]) ++ l) by by rewrite <- app_assoc.
    replace (S (length pre)) with (length (pre ++ [x])) by (rewrite length_app; simpl; lia).
    destruct (Z.ltb_spec x d).
    + apply IH.
      * by rewrite lookup_app_r, Nat.sub_diag.
      * apply Forall_app. split; [|by repeat constructor].
        eapply Forall_impl; [done|]. simpl. lia.
    + apply IH.
      * rewrite lookup_app_l; [done|]. by eapply lookup_lt_Some.
      * apply Forall_app. split; [done|]. by repeat constructor.
Qed.

Lemma argmin_least (l : list Z) (k : nat) :
  argmin Z.ltb l = Done k → ∃ x, l !! k = Some x ∧ Forall (λ y, x ≤ y) l.
Proof.
  destruct l as [|d l]; simpl; [done|]. intros [= <-].
  apply (argmin_from_least [d] l 0 d); [done|]. by repeat constructor.
Qed.

Lemma nearest_bin_elem (bins : list Z) (value b : Z) :
  nearest_bin bins value = Done b → b ∈ bins.
Proof.
  unfold nearest_bin. intros (k & _ & Hb%subscript_Done)%bind_Done.
  by eapply list_elem_of_lookup_2.
Qed.

Lemma nearest_bin_Done (bins : list Z) (value : Z) :
  bins ≠ [] → ∃ b, nearest_bin bins value = Done b.
Proof.
  intros Hne. unfold nearest_bin.
  destruct (argmin_Done Z.ltb ((λ b, Z.abs (b - value)) <$> bins)) as [k Hk].
  { by destruct bins. }
  rewrite Hk. simpl. apply argmin_lt in Hk. rewrite length_fmap in Hk.
  destruct (lookup_lt_is_Some_2 bins k Hk) as [b Hb].
  exists b. by apply subscript_Done.
Qed.

(** The bin nearest to [value] is at no greater distance than any bin. *)
Lemma nearest_bin_least (bins : list Z) (value b : Z) :
  nearest_bin bins value = Done b →
  Forall (λ b', Z.abs (b - value) ≤ Z.abs (b' - value)) bins.
Proof.
  unfold nearest_bin. intros (k & Hk & Hb%subscript_Done)%bind_Done.
  apply argmin_least in Hk as (x & Hx & Hle).
  rewrite list_lookup_fmap, Hb in Hx. simpl in Hx. injection Hx as <-.
  rewrite Forall_fmap in Hle. exact Hle.
Qed.

(** A value of the bins is its own nearest bin. *)
Lemma nearest_bin_fixed (bins : list Z) (b : Z) :
  b ∈ bins → nearest_bin bins b = Done b.
Proof.
  intros Hin. destruct (nearest_bin_Done bins b) as [b' Hb']; [by destruct Hin|].
  rewrite Hb'. f_equal. apply nearest_bin_least in Hb'.
  rewrite Forall_forall in Hb'. specialize (Hb' _ Hin). lia.
Qed.

(** ** Quantization of notes *)

Lemma pymax_foldl (x : Z) (l : list Z) :
  foldl Z.max x l ∈ x :: l ∧ Forall (λ y, y ≤ foldl Z.max x l) (x :: l).
Proof.
  revert x. induction l as [|y l IH]; intros x; simpl.
  - split; [by left | by repeat constructor].
  - destruct (IH (Z.max x y)) as [Hin Hall].
    apply Forall_cons in Hall as [Hxy Hall]. split.
    + apply elem_of_cons in Hin as [Hin|Hin]; [|by do 2 right].
      rewrite Hin. destruct (Z.max_spec x y) as [[_ ->]|[_ ->]]; [right|]; by left.
    + repeat constructor; [lia..|done].
Qed.

Lemma pymax_Done (l : list Z) (m : Z) :
  pymax l = Done m → m ∈ l ∧ Forall (λ y, y ≤ m) l.
Proof. destruct l as [|x l]; simpl; [done|]. intros [= <-]. apply pymax_foldl. Qed.

(** With positive resolutions and a time division that is not negative,
    the step of the grid is not negative; it is positive from the greatest
    resolution on. *)
Lemma ticks_per_sample_Done (self : MIDITokenizer) (t tps : Z) :
  ticks_per_sample self t = Done tps →
  ∃ res, pymax (beat_res self).*2 = Done res ∧ res ≠ 0 ∧ tps = t ÷ res.
Proof.
  unfold ticks_per_sample, int_truediv. intros (res & Hres & H)%bind_Done.
  exists res. destruct (Z.eqb_spec res 0); by simplify_eq.
Qed.

Lemma ticks_per_sample_nonneg (self : MIDITokenizer) (t tps : Z) :
  Forall (λ kr, 0 < kr.2) (beat_res self) → 0 ≤ t →
  ticks_per_sample self t = Done tps → 0 ≤ tps.
Proof.
  intros Hpos Ht (res & [Hin _]%pymax_Done & _ & ->)%ticks_per_sample_Done.
  apply list_elem_of_fmap in Hin as (kr & -> & Hkr).
  rewrite Forall_forall in Hpos. specialize (Hpos _ Hkr). simpl in Hpos.
  apply Z.quot_pos; lia.
Qed.

Lemma ticks_per_sample_pos (self : MIDITokenizer) (t res : Z) :
  pymax (beat_res self).*2 = Done res → 0 < res → res ≤ t →
  ∃ tps, ticks_per_sample self t = Done tps ∧ 0 < tps.
Proof.
  intros Hres Hpos Hle. unfold ticks_per_sample, int_truediv. rewrite Hres. simpl.
  destruct (Z.eqb_spec res 0); [lia|]. eexists. split; [done|].
  rewrite Z.quot_div_nonneg by lia. apply Z.div_str_pos. lia.
Qed.

(** The loop filters the notes out of range and quantizes the others in
    order; the notes before [i] are already done. *)
Lemma quantize_notes_loop_spec (fuel : nat) (self : MIDITokenizer) (tps : Z)
    (pr : pyrange) (i : nat) (l : list Note) :
  (length l - i ≤ fuel)%nat →
  quantize_notes_loop fuel self tps pr i l =
    let* rest := all_done (quantize_note self tps <$>
                             filter (λ n, in_range (pitch n) pr) (drop i l)) in
    Done (take i l ++ rest).
Proof.
  revert i l. induction fuel as [|fuel IH]; intros i l Hfuel; simpl;
    destruct (l !! i) as [n|] eqn:Hi.
  - apply lookup_lt_Some in Hi. lia.
  - apply lookup_ge_None in Hi. rewrite drop_ge, take_ge by done.
    simpl. by rewrite app_nil_r.
  - pose proof (lookup_lt_Some _ _ _ Hi) as Hlt.
    rewrite (drop_S _ _ _ Hi).
    destruct (in_range (pitch n) pr) eqn:Hin; simpl.
    + rewrite filter_cons_True by (by rewrite Hin).
      rewrite fmap_cons. cbn [all_done]. rewrite bind_assoc.
      destruct (quantize_note self tps n) as [n'| |]; simpl; [|done..].
      rewrite IH by (rewrite length_insert; lia).
      rewrite drop_insert_lt by lia.
      rewrite (take_S_r _ _ n') by (by apply list_lookup_insert_eq).
      rewrite take_insert_ge by lia. rewrite bind_assoc.
      apply bind_ext. intros rest _. simpl. rewrite <- app_assoc. reflexivity.
    + rewrite filter_cons_False by (rewrite Hin; intros []).
      rewrite IH by (rewrite length_delete by eauto; lia).
      rewrite delete_take_drop.
      rewrite drop_app_length' by (rewrite length_take; lia).
      by rewrite take_app_length' by (rewrite length_take; lia).
  - apply lookup_ge_None in Hi. rewrite drop_ge, take_ge by done.
    simpl. by rewrite app_nil_r.
Qed.

(** [quantize_notes] is the filter followed by the quantization of each
    note that is kept. *)
Lemma quantize_notes_spec (self : MIDITokenizer) (l : list Note) (t : Z)
    (pr : option pyrange) :
  quantize_notes self l t pr =
    let* tps := ticks_per_sample self t in
    all_done (quantize_note self tps <$>
                filter (λ n, in_range (pitch n) (default (pitch_range self) pr)) l).
Proof.
  unfold quantize_notes. apply bind_ext. intros tps _.
  rewrite quantize_notes_loop_spec by lia. rewrite drop_0. simpl.
  by destruct (all_done _).
Qed.

Lemma quantize_notes_Done (self : MIDITokenizer) (l out : list Note) (t : Z)
    (pr : option pyrange) :
  quantize_notes self l t pr = Done out ↔
  ∃ tps, ticks_per_sample self t = Done tps ∧
    Forall2 (λ n n', quantize_note self tps n = Done n')
      (filter (λ n, in_range (pitch n) (default (pitch_range self) pr)) l) out.
Proof.
  rewrite quantize_notes_spec, bind_Done.
  split; intros (tps & Htps & H); exists tps; (split; [done|]);
    by apply all_done_Done.
Qed.

Lemma filter_all {A : Type} (P : A → Prop) `{∀ x, Decision (P x)} (l : list A) :
  Forall P l → filter P l = l.
Proof.
  induction 1 as [|x l Hx _ IH]; [done|].
  by rewrite filter_cons_True, IH.
Qed.

(** *** The grid *)

Lemma snap_nearest_line (step x : Z) :
  step ≠ 0 → snap step x (x mod step) = nearest_line step x.
Proof.
  intros Hstep. unfold snap, nearest_line, line_below.
  pose proof (Z.div_mod x step Hstep) as Hx.
  replace (x - step * (x / step)) with (x mod step) by lia.
  destruct (Z.leb_spec (2 * (x mod step)) step); case_decide; lia.
Qed.

Lemma nearest_line_on_grid (step x : Z) : nearest_line step x mod step = 0.
Proof.
  destruct (decide (step = 0)) as [->|Hstep].
  { unfold nearest_line, line_below. by case_decide. }
  apply Z.mod_divide; [done|]. unfold nearest_line, line_below.
  case_decide.
  - by apply Z.divide_factor_l.
  - apply Z.divide_add_r; [by apply Z.divide_factor_l | done].
Qed.

Lemma nearest_line_fixed (step x : Z) :
  0 < step → x mod step = 0 → nearest_line step x = x.
Proof.
  intros Hstep Hx. unfold nearest_line, line_below.
  pose proof (Z.div_mod x step ltac:(lia)). case_decide; lia.
Qed.


Lemma nearest_line_mono (step x y : Z) :
  0 < step → x ≤ y → nearest_line step x ≤ nearest_line step y.
Proof.
  intros Hstep Hxy. unfold nearest_line, line_below.
  pose proof (Z.div_mod x step ltac:(lia)).
  pose proof (Z.div_mod y step ltac:(lia)).
  pose proof (Z.mod_pos_bound x step Hstep).
  pose proof (Z.mod_pos_bound y step Hstep).
  assert (x / step ≤ y / step) as Hq by (apply Z.div_le_mono; lia).
  destruct (decide (x / step = y / step)) as [Heq|Hne].
  - rewrite Heq in *. repeat case_decide; lia.
  - assert (step * (x / step) + step ≤ step * (y / step)) by nia.
    repeat case_decide; lia.
Qed.

(** *** One note *)

Lemma quantize_note_Done (self : MIDITokenizer) (step : Z) (n n' : Note) :
  quantize_note self step n = Done n' ↔
  step ≠ 0 ∧
  pitch n' = pitch n ∧
  start n' = nearest_line step (start n) ∧
  end_ n' = (if decide (nearest_line step (start n) = nearest_line step (end_ n))
             then nearest_line step (end_ n) + step
             else nearest_line step (end_ n)) ∧
  nearest_bin (velocities self) (velocity n) = Done (velocity n').
Proof.
  unfold quantize_note, pymod. destruct (Z.eqb_spec step 0) as [->|Hstep]; simpl.
  { split; [done | by intros [? _]]. }
  rewrite !snap_nearest_line by done.
  destruct (nearest_bin _ _) as [v| |]; simpl.
  - split.
    + intros [= <-]. simpl. repeat split; try done.
      destruct (Z.eqb_spec (nearest_line step (start n)) (nearest_line step (end_ n)));
        by case_decide.
    + intros (_ & Hp & Hs & He & [= ->]). destruct n' as [p' v' s' e'].
      simpl in *. subst. f_equal.
      destruct (Z.eqb_spec (nearest_line step (start n)) (nearest_line step (end_ n)));
        by case_decide.
  - split; [done | by intros (_ & _ & _ & _ & ?)].
  - split; [done | by intros (_ & _ & _ & _ & ?)].
Qed.

(** A quantized note is left as it is by a second quantization. *)
Lemma quantize_note_fixed (self : MIDITokenizer) (step : Z) (n n' : Note) :
  0 ≤ step → quantize_note self step n = Done n' →
  quantize_note self step n' = Done n'.
Proof.
  intros Hstep (Hne & Hp & Hs & He & Hv)%quantize_note_Done.
  apply quantize_note_Done. split; [done|]. split; [done|].
  assert (nearest_line step (start n') = start n') as Hs'.
  { apply nearest_line_fixed; [lia|]. rewrite Hs. apply nearest_line_on_grid. }
  assert (nearest_line step (end_ n') = end_ n') as He'.
  { apply nearest_line_fixed; [lia|]. rewrite He.
    case_decide; [|apply nearest_line_on_grid].
    rewrite <- Z.add_mod_idemp_l, nearest_line_on_grid by done.
    simpl. by apply Z.mod_same. }
  rewrite Hs', He'. split; [done|]. split.
  - rewrite decide_False; [done|]. rewrite Hs, He. case_decide; lia.
  - apply nearest_bin_fixed. by eapply nearest_bin_elem.
Qed.

(** [quantize_notes] never leaves its loop running. *)
Lemma quantize_notes_ends (self : MIDITokenizer) (l : list Note) (t : Z)
    (pr : option pyrange) :
  quantize_notes self l t pr ≠ Diverge.
Proof.
  rewrite quantize_notes_spec. unfold ticks_per_sample, int_truediv.
  destruct (pymax _) as [res| |] eqn:Hres; simpl; try done.
  - destruct (res =? 0); simpl; [done|].
    induction (filter _ l) as [|n k IH]; [done|].
    rewrite fmap_cons. cbn [all_done]. unfold quantize_note at 1, pymod.
    destruct (_ =? 0); simpl; [done|].
    unfold nearest_bin, subscript. destruct (argmin _ _) as [j| |] eqn:Hj; simpl;
      [|done|by destruct (velocities self)].
    destruct (_ !! j); simpl; [|done]. by destruct (all_done _).
  - by destruct (_.*2).
Qed.

(** From the greatest resolution on, and with at least one velocity bin,
    [quantize_notes] returns. *)
Lemma quantize_notes_returns (self : MIDITokenizer) (l : list Note) (t res : Z)
    (pr : option pyrange) :
  pymax (beat_res self).*2 = Done res → 0 < res → res ≤ t →
  velocities self ≠ [] →
  ∃ out, quantize_notes self l t pr = Done out.
Proof.
  intros Hres Hpos Hle Hbins.
  destruct (ticks_per_sample_pos self t res) as (step & Hstep & Hstep0); [done..|].
  rewrite quantize_notes_spec, Hstep. simpl.
  induction (filter _ l) as [|n k [out IH]]; [by exists []|].
  destruct (nearest_bin_Done (velocities self) (velocity n) Hbins) as [v Hv].
  eexists (_ :: out). apply all_done_Done. constructor; [|by apply all_done_Done].
  apply quantize_note_Done.
  instantiate (1 := {| pitch := _; velocity := v; start := _; end_ := _ |}).
  simpl. repeat split; try done. lia.
Qed.

(** *** The whole list *)

Lemma quantize_notes_sample :
  quantize_notes sample_tokenizer sample_notes 480 None = Done sample_quantized.
Proof. reflexivity. Qed.

(** C3: for notes with [start <= end] and a time division at least the
    greatest beat resolution, every note [quantize_notes] leaves has its
    pitch in the pitch range, [start < end] and a velocity of the velocity
    bins; the notes left are, in order, the notes whose pitch is in the
    range (the others are gone), each with its start and end on the nearest
    grid line and its end one grid step further when both fall on the same
    line. *)
Theorem quantize_notes_invariant (self : MIDITokenizer) (l out : list Note)
    (t res : Z) (pr : option pyrange) :
  Forall (λ n, start n ≤ end_ n) l →
  pymax (beat_res self).*2 = Done res → 0 < res → res ≤ t →
  quantize_notes self l t pr = Done out →
  Forall (λ n', in_range (pitch n') (default (pitch_range self) pr) ∧
                start n' < end_ n' ∧
                velocity n' ∈ velocities self) out ∧
  Forall2 (λ n n',
      pitch n' = pitch n ∧
      start n' = nearest_line (t ÷ res) (start n) ∧
      end_ n' =
        if decide (nearest_line (t ÷ res) (start n) = nearest_line (t ÷ res) (end_ n))
        then nearest_line (t ÷ res) (end_ n) + t ÷ res
        else nearest_line (t ÷ res) (end_ n))
    (filter (λ n, in_range (pitch n) (default (pitch_range self) pr)) l) out.
Proof.
  intros Hl Hres Hpos Hle (step & Hstep & Hout)%quantize_notes_Done.
  destruct (ticks_per_sample_pos self t res) as (step' & Hstep' & Hstep0); [done..|].
  assert (step' = step) as -> by congruence.
  apply ticks_per_sample_Done in Hstep as (res' & Hres' & _ & ->).
  assert (res' = res) as -> by congruence.
  split.
  - eapply Forall2_Forall_r; [exact Hout|]. apply Forall_forall.
    intros n [Hin Hn]%list_elem_of_filter n'
      (_ & Hp & Hs & He & Hv%nearest_bin_elem)%quantize_note_Done.
    rewrite Forall_forall in Hl. specialize (Hl _ Hn). simpl in Hl.
    rewrite Hp. split; [done|]. split; [|done].
    pose proof (nearest_line_mono (t ÷ res) _ _ Hstep0 Hl).
    rewrite Hs, He. case_decide; lia.
  - eapply Forall2_impl; [exact Hout|]. simpl.
    by intros n n' (_ & Hp & Hs & He & _)%quantize_note_Done.
Qed.

Lemma quantize_notes_invariant_witness :
  Forall (λ n', in_range (pitch n') (pitch_range sample_tokenizer) ∧
                start n' < end_ n' ∧
                velocity n' ∈ velocities sample_tokenizer) sample_quantized.
Proof.
  refine (proj1 (quantize_notes_invariant sample_tokenizer sample_notes
                   sample_quantized 480 8 None _ _ _ _ _)).
  - unfold sample_notes. repeat constructor; simpl; lia.
  - reflexivity.
  - lia.
  - lia.
  - reflexivity.
Defined.



(** C5: quantizing again, with the same time division, a list of notes
    that [quantize_notes] returned gives the same list: the same notes with
    the same pitches, velocities, starts and ends, in the same order.  The
    beat resolutions are positive and the time division is not negative,
    as they are for a grid. *)
Theorem quantize_notes_idempotent (self : MIDITokenizer) (l out : list Note)
    (t : Z) (pr : option pyrange) :
  Forall (λ kr, 0 < kr.2) (beat_res self) → 0 ≤ t →
  quantize_notes self l t pr = Done out →
  quantize_notes self out t pr = Done out.
Proof.
  intros Hres Ht (step & Hstep & Hout)%quantize_notes_Done.
  pose proof (ticks_per_sample_nonneg self t step Hres Ht Hstep) as Hstep0.
  apply quantize_notes_Done. exists step. split; [done|].
  assert (Forall (λ n', in_range (pitch n') (default (pitch_range self) pr) ∧
                        quantize_note self step n' = Done n') out) as Hfix.
  { eapply Forall2_Forall_r; [exact Hout|]. apply Forall_forall.
    intros n [Hin _]%list_elem_of_filter n' Hn'. split.
    - apply quantize_note_Done in Hn' as (_ & -> & _). done.
    - by eapply quantize_note_fixed. }
  rewrite filter_all by (eapply Forall_impl; [exact Hfix|]; by intros ? [? _]).
  apply Forall_Forall2_diag. eapply Forall_impl; [exact Hfix|]. by intros ? [_ ?].
Qed.

Lemma quantize_notes_idempotent_witness :
  quantize_notes sample_tokenizer sample_quantized 480 None = Done sample_quantized.
Proof.
  apply (quantize_notes_idempotent sample_tokenizer sample_notes sample_quantized
           480 None).
  - unfold sample_tokenizer, sample_beat_res. simpl. repeat constructor; simpl; lia.
  - lia.
  - reflexivity.
Defined.

(** ** Quantization of tempo changes *)

Lemma quantize_tempos_loop_spec (fuel : nat) (self : MIDITokenizer) (tps prev : Z)
    (i : nat) (l : list TempoChange) :
  (length l - i ≤ fuel)%nat →
  quantize_tempos_loop fuel self tps prev i l =
    let* rest := quantize_tempos_from self tps prev (drop i l) in
    Done (take i l ++ rest).
Proof.
  revert prev i l. induction fuel as [|fuel IH]; intros prev i l Hfuel; simpl;
    destruct (l !! i) as [tc|] eqn:Hi.
  - apply lookup_lt_Some in Hi. lia.
  - apply lookup_ge_None in Hi. rewrite drop_ge, take_ge by done.
    simpl. by rewrite app_nil_r.
  - pose proof (lookup_lt_Some _ _ _ Hi) as Hlt.
    rewrite (drop_S _ _ _ Hi). cbn [quantize_tempos_from]. rewrite bind_assoc.
    apply bind_ext. intros tempo' _. destruct (tempo' =? prev).
    + rewrite IH by (rewrite length_delete by eauto; lia).
      rewrite delete_take_drop.
      rewrite drop_app_length' by (rewrite length_take; lia).
      by rewrite take_app_length' by (rewrite length_take; lia).
    + rewrite bind_assoc. apply bind_ext. intros rest _.
      rewrite IH by (rewrite length_insert; lia).
      rewrite drop_insert_lt by lia.
      rewrite (take_S_r _ _ {| tempo := inject_Z tempo';
                               time := snap tps (time tc) rest |})
        by (by apply list_lookup_insert_eq).
      rewrite take_insert_ge by lia. rewrite bind_assoc.
      apply bind_ext. intros out _. simpl. rewrite <- app_assoc. reflexivity.
  - apply lookup_ge_None in Hi. rewrite drop_ge, take_ge by done.
    simpl. by rewrite app_nil_r.
Qed.

Lemma quantize_tempos_spec (self : MIDITokenizer) (l : list TempoChange) (t : Z) :
  quantize_tempos self l t =
    let* tps := ticks_per_sample self t in quantize_tempos_from self tps (-1) l.
Proof.
  unfold quantize_tempos. apply bind_ext. intros tps _.
  rewrite quantize_tempos_loop_spec by lia. rewrite drop_0. simpl.
  by destruct (quantize_tempos_from _ _ _ _).
Qed.

Lemma nearest_tempo_elem (bins : list Z) (value : Q) (b : Z) :
  nearest_tempo bins value = Done b → b ∈ bins.
Proof.
  unfold nearest_tempo. intros (k & _ & Hb%subscript_Done)%bind_Done.
  by eapply list_elem_of_lookup_2.
Qed.

Lemma nearest_tempo_Done (bins : list Z) (value : Q) :
  bins ≠ [] → ∃ b, nearest_tempo bins value = Done b.
Proof.
  intros Hne. unfold nearest_tempo.
  destruct (argmin_Done Qltb ((λ b, Qabs (inject_Z b - value)%Q) <$> bins)) as [k Hk].
  { by destruct bins. }
  rewrite Hk. simpl. apply argmin_lt in Hk. rewrite length_fmap in Hk.
  destruct (lookup_lt_is_Some_2 bins k Hk) as [b Hb].
  exists b. by apply subscript_Done.
Qed.

(** The tempos the loop keeps are the bins of the changes, deduplicated
    in sequence. *)
Lemma quantize_tempos_from_Done (self : MIDITokenizer) (tps prev : Z)
    (l out : list TempoChange) :
  quantize_tempos_from self tps prev l = Done out →
  ∃ bins, Forall2 (λ tc b, nearest_tempo (tempos self) (tempo tc) = Done b) l bins ∧
          tempo <$> out = inject_Z <$> dedup_adjacent prev bins.
Proof.
  revert prev out. induction l as [|tc l IH]; intros prev out; simpl.
  - intros [= <-]. exists []. by split; [constructor|].
  - intros (b & Hb & H)%bind_Done. destruct (Z.eqb_spec b prev) as [->|Hne].
    + apply IH in H as (bins & Hbins & Hout). exists (prev :: bins).
      split; [by constructor|]. cbn [dedup_adjacent]. by rewrite decide_True.
    + apply bind_Done in H as (rest & _ & H).
      apply bind_Done in H as (out' & H & [= <-]).
      apply IH in H as (bins & Hbins & Hout). exists (b :: bins).
      split; [by constructor|]. cbn [dedup_adjacent]. rewrite decide_False by done.
      by rewrite !fmap_cons, Hout.
Qed.

Lemma dedup_adjacent_subseteq (prev : Z) (l : list Z) : dedup_adjacent prev l ⊆ l.
Proof.
  revert prev. induction l as [|b l IH]; intros prev; simpl; [done|].
  case_decide.
  - by apply list_subseteq_cons.
  - intros x [->|Hx]%elem_of_cons; [by left|]. right. by eapply IH.
Qed.

Lemma dedup_adjacent_distinct (prev : Z) (l : list Z) :
  head (dedup_adjacent prev l) ≠ Some prev ∧
  ∀ i x y, dedup_adjacent prev l !! i = Some x →
           dedup_adjacent prev l !! S i = Some y → x ≠ y.
Proof.
  revert prev. induction l as [|b l IH]; intros prev; simpl; [done|].
  case_decide as Hb; [apply IH|]. split; [simpl; congruence|].
  destruct (IH b) as [Hhead Hadj]. intros [|i] x y; simpl.
  - intros [= <-] Hy ->. apply Hhead.
    by destruct (dedup_adjacent _ l).
  - apply Hadj.
Qed.

(** C8: every tempo change [quantize_tempos] leaves has a tempo of the
    tempo bins, and no two neighbours among them have the same tempo: the
    tempos left are the bins nearest to the tempos given, in order, without
    those equal to the one kept just before them (a bin may come back after
    another one). *)
Theorem quantize_tempos_invariant (self : MIDITokenizer) (l out : list TempoChange)
    (t : Z) :
  quantize_tempos self l t = Done out →
  Forall (λ tc, ∃ b, b ∈ tempos self ∧ tempo tc = inject_Z b) out ∧
  (∀ i tc1 tc2, out !! i = Some tc1 → out !! S i = Some tc2 →
                tempo tc1 ≠ tempo tc2) ∧
  ∃ bins,
    Forall2 (λ tc b, nearest_tempo (tempos self) (tempo tc) = Done b) l bins ∧
    tempo <$> out = inject_Z <$> dedup_adjacent (-1) bins.
Proof.
  rewrite quantize_tempos_spec.
  intros (tps & _ & (bins & Hbins & Hout)%quantize_tempos_from_Done)%bind_Done.
  split; [|split; [|by exists bins]].
  - apply Forall_forall. intros tc Htc.
    assert (tempo tc ∈ inject_Z <$> dedup_adjacent (-1) bins) as Hin.
    { rewrite <- Hout. by apply list_elem_of_fmap_2. }
    apply list_elem_of_fmap in Hin as (b & Hb & Hin). exists b. split; [|done].
    apply dedup_adjacent_subseteq in Hin.
    apply list_elem_of_lookup in Hin as [i Hi].
    destruct (Forall2_lookup_r _ _ _ _ _ Hbins Hi) as (tc' & _ & Hnear).
    by eapply nearest_tempo_elem.
  - intros i tc1 tc2 H1 H2 Heq.
    assert ((tempo <$> out) !! i = Some (tempo tc1)) as H1'
      by (by rewrite list_lookup_fmap, H1).
    assert ((tempo <$> out) !! S i = Some (tempo tc2)) as H2'
      by (by rewrite list_lookup_fmap, H2).
    rewrite Hout, list_lookup_fmap in H1', H2'.
    destruct (dedup_adjacent (-1) bins !! i) as [b1|] eqn:Hb1; [|done].
    destruct (dedup_adjacent (-1) bins !! S i) as [b2|] eqn:Hb2; [|done].
    simpl in H1', H2'. injection H1' as H1'. injection H2' as H2'.
    rewrite <- H1', <- H2' in Heq. injection Heq as Heq.
    exact (proj2 (dedup_adjacent_distinct (-1) bins) i b1 b2 Hb1 Hb2 Heq).
Qed.

Lemma quantize_tempos_invariant_witness :
  quantize_tempos sample_tokenizer sample_tempos 480 = Done sample_tempos_quantized ∧
  Forall (λ tc, ∃ b, b ∈ tempos sample_tokenizer ∧ tempo tc = inject_Z b)
    sample_tempos_quantized.
Proof.
  split; [reflexivity|].
  exact (proj1 (quantize_tempos_invariant sample_tokenizer sample_tempos
                  sample_tempos_quantized 480 eq_refl)).
Defined.

(** With a tempo bin and a grid step that is not zero, [quantize_tempos]
    returns. *)
Lemma quantize_tempos_returns (self : MIDITokenizer) (l : list TempoChange)
    (t step : Z) :
  ticks_per_sample self t = Done step → step ≠ 0 → tempos self ≠ [] →
  ∃ out, quantize_tempos self l t = Done out.
Proof.
  intros Hstep Hne Hbins. rewrite quantize_tempos_spec, Hstep. simpl.
  generalize (-1). induction l as [|tc l IH]; intros prev; simpl; [eauto|].
  destruct (nearest_tempo_Done (tempos self) (tempo tc) Hbins) as [b ->]. simpl.
  destruct (b =? prev); [apply IH|].
  unfold pymod. destruct (Z.eqb_spec step 0); [done|]. simpl.
  destruct (IH b) as [out ->]. simpl. eauto.
Qed.

(** ** Validation of token-type successions *)

Section ValidationProperties.

Variable token_type : Z → outcome string.
Variable self : MIDITokenizer.

Lemma successors_in_graph (previous next : string) (allowed : list string) :
  successors self previous = Done allowed →
  bool_decide (next ∈ allowed) = in_graph (tokens_types_graph self) previous next.
Proof.
  unfold successors, in_graph.
  destruct (tokens_types_graph self !! previous); by intros [= ->].
Qed.

Lemma successors_Done (previous : string) :
  is_Some (tokens_types_graph self !! previous) →
  ∃ allowed, successors self previous = Done allowed.
Proof. unfold successors. intros [allowed ->]. eauto. Qed.

Lemma adjacent_pairs_cons (x y : string) (l : list string) :
  adjacent_pairs (x :: y :: l) = (x, y) :: adjacent_pairs (y :: l).
Proof. reflexivity. Qed.

Lemma until_pad_cons (x y : string) (l : list string) :
  x ≠ "PAD" →
  adjacent_pairs (until_pad (x :: y :: l)) =
    (x, y) :: adjacent_pairs (until_pad (y :: l)).
Proof.
  intros Hx. cbn [until_pad]. rewrite (decide_False (P := x = "PAD")) by done.
  by case_decide.
Qed.

Lemma until_pad_stop (x : string) (l : list string) :
  x = "PAD" → adjacent_pairs (until_pad (x :: l)) = [].
Proof. intros Hx. cbn [until_pad]. by rewrite decide_True. Qed.

Lemma until_pad_singleton (x : string) : adjacent_pairs (until_pad [x]) = [].
Proof. cbn [until_pad]. by case_decide. Qed.

Lemma errors_in_cons (x y : string) (pairs : list (string * string)) :
  Z.of_nat (errors_in (tokens_types_graph self) ((x, y) :: pairs)) =
    (if in_graph (tokens_types_graph self) x y then 0 else 1)
    + Z.of_nat (errors_in (tokens_types_graph self) pairs).
Proof.
  unfold errors_in. rewrite filter_cons. simpl.
  destruct (in_graph (tokens_types_graph self) x y); case_decide; simpl;
    try done; lia.
Qed.

(** With [consider_pad] the loop counts over all the pairs. *)
Lemma errors_with_pad_count (err : Z) (previous : string)
    (tokens : list Z) (types : list string) :
  Forall2 (λ token type, token_type token = Done type) tokens types →
  Forall (λ type, is_Some (tokens_types_graph self !! type)) (previous :: types) →
  errors_with_pad token_type self err previous tokens =
    Done (err + Z.of_nat (errors_in (tokens_types_graph self)
                            (adjacent_pairs (previous :: types)))).
Proof.
  intros Htypes. revert err previous.
  induction Htypes as [|token type tokens types Htype _ IH];
    intros err previous Hkeys; cbn [errors_with_pad].
  - f_equal. unfold errors_in, adjacent_pairs. simpl. lia.
  - rewrite Htype. cbn [bind]. apply Forall_cons in Hkeys as [Hprev Hkeys].
    destruct (successors_Done previous Hprev) as [allowed Hallowed].
    rewrite Hallowed. cbn [bind]. rewrite IH by done.
    rewrite adjacent_pairs_cons, errors_in_cons.
    rewrite (successors_in_graph _ type _ Hallowed).
    f_equal. destruct (in_graph (tokens_types_graph self) previous type); lia.
Qed.

(** Without it the loop counts over the pairs up to the first PAD. *)
Lemma errors_until_pad_count (err : Z) (previous : string)
    (tokens : list Z) (types : list string) :
  Forall2 (λ token type, token_type token = Done type) tokens types →
  Forall (λ type, is_Some (tokens_types_graph self !! type)) (previous :: types) →
  errors_until_pad token_type self err previous tokens =
    Done (err + Z.of_nat (errors_in (tokens_types_graph self)
                            (adjacent_pairs (until_pad (previous :: types))))).
Proof.
  intros Htypes. revert err previous.
  induction Htypes as [|token type tokens types Htype _ IH];
    intros err previous Hkeys; cbn [errors_until_pad].
  - rewrite until_pad_singleton. f_equal. unfold errors_in. simpl. lia.
  - case_bool_decide as Hpad.
    { rewrite until_pad_stop by done. f_equal. unfold errors_in. simpl. lia. }
    rewrite Htype. cbn [bind]. apply Forall_cons in Hkeys as [Hprev Hkeys].
    destruct (successors_Done previous Hprev) as [allowed Hallowed].
    rewrite Hallowed. cbn [bind]. rewrite IH by done.
    rewrite until_pad_cons, errors_in_cons by done.
    rewrite (successors_in_graph _ type _ Hallowed).
    f_equal. destruct (in_graph (tokens_types_graph self) previous type); lia.
Qed.

End ValidationProperties.

(** C1, amended: on a sequence that is not empty, whose tokens all have
    a type in the vocabulary and whose types are all keys of the token-type
    graph, [token_types_errors] raises nothing and returns the number of
    pairs of neighbours whose succession of types is not in the graph,
    divided by the length of the sequence; the pairs are counted up to the
    first PAD token by default and over the whole sequence with
    [consider_pad]. *)
Theorem token_types_errors_ratio (token_type : Z → outcome string)
    (self : MIDITokenizer) (tokens : list Z) (types : list string)
    (consider_pad : bool) :
  tokens ≠ [] →
  Forall2 (λ token type, token_type token = Done type) tokens types →
  Forall (λ type, is_Some (tokens_types_graph self !! type)) types →
  token_types_errors token_type self tokens consider_pad =
    Done (Qmake
            (Z.of_nat (transition_errors (tokens_types_graph self) consider_pad types))
            (Pos.of_nat (length tokens))).
Proof.
  intros Hne Htypes Hkeys. unfold token_types_errors, transition_errors.
  destruct Htypes as [|first type tokens types Hfirst Htypes]; [done|].
  change (subscript (first :: tokens) 0 IndexError) with (Done (A:=Z) first).
  cbn [bind]. rewrite Hfirst. cbn [bind].
  change (drop 1 (first :: tokens)) with tokens.
  destruct consider_pad.
  - rewrite (errors_with_pad_count token_type self 0 type tokens types) by done.
    reflexivity.
  - rewrite (errors_until_pad_count token_type self 0 type tokens types) by done.
    reflexivity.
Qed.

Lemma token_types_errors_ratio_witness :
  token_types_errors sample_token_type sample_tokenizer sample_tokens false
    = Done (Qmake 2 11) ∧
  token_types_errors sample_token_type sample_tokenizer sample_tokens true
    = Done (Qmake 3 11).
Proof.
  assert (Forall2 (λ token type, sample_token_type token = Done type) sample_tokens
            ["Bar"; "Position"; "Pitch"; "Velocity"; "Duration"; "Pitch"; "Pitch";
             "Bar"; "PAD"; "PAD"; "Duration"]) as Htypes
    by (repeat constructor).
  assert (Forall (λ type, is_Some (tokens_types_graph sample_tokenizer !! type))
            ["Bar"; "Position"; "Pitch"; "Velocity"; "Duration"; "Pitch"; "Pitch";
             "Bar"; "PAD"; "PAD"; "Duration"]) as Hkeys
    by (repeat constructor; by eexists).
  assert (sample_tokens ≠ []) as Hne by done.
  split.
  - exact (token_types_errors_ratio sample_token_type sample_tokenizer sample_tokens
             _ false Hne Htypes Hkeys).
  - exact (token_types_errors_ratio sample_token_type sample_tokenizer sample_tokens
             _ true Hne Htypes Hkeys).
Defined.

(** C1 as stated fails on the empty sequence, on which [tokens[0]]
    raises [IndexError], with or without [consider_pad].  A token that the
    vocabulary does not hold, and a type that is not a key of the graph (a
    PAD token given to a tokenizer built without padding), raise
    [KeyError]. *)
Lemma token_types_errors_empty :
  token_types_errors sample_token_type sample_tokenizer [] false = Raise IndexError ∧
  token_types_errors sample_token_type sample_tokenizer [] true = Raise IndexError ∧
  token_types_errors sample_token_type sample_tokenizer [1; 7] false = Raise KeyError ∧
  token_types_errors sample_token_type sample_tokenizer_no_pad [3; 0; 0] true
    = Raise KeyError.
Proof. repeat split; reflexivity. Qed.

(** ** Decoding facade *)

Section DecodingProperties.

Variable Tokens : Type.
Variable tokens_to_track :
  Tokens → Z → Z * bool → outcome (Instrument * list TempoChange).

(** After the first track the tempo changes of the MIDI object are
    left alone, whatever the other tracks decode to. *)
Lemma decode_tracks_tempo_changes (programs : option (list (Z * bool)))
    (time_division : Z) (tokens : list Tokens) (i : nat) (midi midi' : MidiFile) :
  decode_tracks Tokens tokens_to_track programs time_division midi (S i) tokens
    = Done midi' →
  tempo_changes midi' = tempo_changes midi.
Proof.
  revert i midi. induction tokens as [|track_tokens tokens IH]; intros i midi; simpl.
  - by intros [= <-].
  - intros (midi1 & Htrack & Hrest)%bind_Done. apply IH in Hrest as ->.
    unfold decode_track in Htrack.
    apply bind_Done in Htrack as ([track changes] & _ & Htrack).
    simpl in Htrack. by injection Htrack as <-.
Qed.

(** The first track sets them, the first one at time 0. *)
Lemma decode_track_first (programs : option (list (Z * bool)))
    (time_division : Z) (track_tokens : Tokens) (midi midi' : MidiFile) :
  decode_track Tokens tokens_to_track programs time_division midi 0 track_tokens
    = Done midi' →
  ∃ program' track changes first,
    match programs with
    | Some programs => programs !! 0%nat = Some program'
    | None => program' = (0, false)
    end ∧
    tokens_to_track track_tokens time_division program' = Done (track, changes) ∧
    changes !! 0%nat = Some first ∧
    tempo_changes midi' = {| tempo := tempo first; time := 0 |} :: drop 1 changes.
Proof.
  unfold decode_track. intros ([track changes] & Hdecoded & H)%bind_Done.
  simpl in H. apply bind_Done in H as (first & Hfirst%subscript_Done & [= <-]).
  destruct programs as [programs|].
  - apply bind_Done in Hdecoded as (program' & Hprogram%subscript_Done & Hdecoded).
    exists program', track, changes, first. repeat split; try done.
    by destruct changes.
  - exists (0, false), track, changes, first. repeat split; try done.
    by destruct changes.
Qed.

Lemma last_tick_Done (track : Instrument) : ∃ tick, last_tick track = Done tick.
Proof.
  unfold last_tick. destruct (notes track) as [|n l]; simpl; eauto.
Qed.

Lemma last_ticks_Done (tracks : list Instrument) :
  ∃ ticks, Forall2 (λ track tick, last_tick track = Done tick) tracks ticks.
Proof.
  induction tracks as [|track tracks IH]; [by exists []|].
  destruct IH as [ticks IH]. destruct (last_tick_Done track) as [tick Htick].
  exists (tick :: ticks). by constructor.
Qed.

Lemma decode_tracks_Done (time_division : Z) (tokens : list Tokens) (i : nat)
    (midi : MidiFile) :
  (∀ track_tokens, track_tokens ∈ tokens →
     ∃ track first changes,
       tokens_to_track track_tokens time_division (0, false)
         = Done (track, first :: changes)) →
  ∃ midi',
    decode_tracks Tokens tokens_to_track None time_division midi i tokens
      = Done midi' ∧
    length (instruments midi') = (length (instruments midi) + length tokens)%nat.
Proof.
  revert i midi. induction tokens as [|track_tokens tokens IH]; intros i midi Hall.
  - exists midi. split; [done|]. simpl. lia.
  - destruct (Hall track_tokens) as (track & first & changes & Htrack); [by left|].
    cbn [decode_tracks]. unfold decode_track. rewrite Htrack. cbn [bind].
    destruct i as [|i]; simpl.
    + edestruct IH as (midi' & -> & Hlen).
      { intros. apply Hall. by right. }
      exists midi'. split; [done|]. rewrite Hlen. simpl.
      rewrite length_app. simpl. lia.
    + edestruct IH as (midi' & -> & Hlen).
      { intros. apply Hall. by right. }
      exists midi'. split; [done|]. rewrite Hlen. simpl.
      rewrite length_app. simpl. lia.
Qed.

(** Without programs, [tokens_to_midi] returns for tracks that all
    decode with a tempo change. *)
Lemma tokens_to_midi_returns (time_division : Z) (tokens : list Tokens) :
  tokens ≠ [] →
  (∀ track_tokens, track_tokens ∈ tokens →
     ∃ track first changes,
       tokens_to_track track_tokens time_division (0, false)
         = Done (track, first :: changes)) →
  ∃ midi, tokens_to_midi Tokens tokens_to_track tokens None time_division = Done midi.
Proof.
  intros Hne Hall. unfold tokens_to_midi.
  match goal with
  | |- context [decode_tracks _ _ _ _ ?m _ _] =>
      destruct (decode_tracks_Done time_division tokens 0 m Hall)
        as (midi & -> & Hlen)
  end.
  cbn [bind]. simpl in Hlen.
  destruct (last_ticks_Done (instruments midi)) as [ticks Hticks].
  pose proof (proj2 (all_done_Done last_tick _ _) Hticks) as ->. cbn [bind].
  apply Forall2_length in Hticks.
  destruct ticks as [|tick ticks]; [destruct tokens; simpl in *; [done|lia]|].
  simpl. eauto.
Qed.

End DecodingProperties.

(** C10: when [tokens_to_midi] returns a MIDI object for a list of
    tracks that is not empty, the tempo changes of the object are those the
    first track decoded to, the first of them with its time set to 0
    whatever time it carried; what the other tracks decode to does not
    enter them. *)
Theorem tokens_to_midi_tempo_changes (Tokens : Type)
    (tokens_to_track : Tokens → Z → Z * bool → outcome (Instrument * list TempoChange))
    (first_track : Tokens) (other_tracks : list Tokens)
    (programs : option (list (Z * bool))) (time_division : Z) (midi : MidiFile) :
  tokens_to_midi Tokens tokens_to_track (first_track :: other_tracks) programs
    time_division = Done midi →
  ∃ program' track changes first,
    match programs with
    | Some programs => programs !! 0%nat = Some program'
    | None => program' = (0, false)
    end ∧
    tokens_to_track first_track time_division program' = Done (track, changes) ∧
    changes !! 0%nat = Some first ∧
    tempo_changes midi = {| tempo := tempo first; time := 0 |} :: drop 1 changes ∧
    time <$> head (tempo_changes midi) = Some 0.
Proof.
  unfold tokens_to_midi. intros (midi1 & Htracks & H)%bind_Done.
  apply bind_Done in H as (ticks & _ & H).
  apply bind_Done in H as (max_tick' & _ & [= <-]). simpl.
  simpl in Htracks. apply bind_Done in Htracks as (midi0 & Hfirst & Hothers).
  apply decode_tracks_tempo_changes in Hothers as ->.
  apply decode_track_first in Hfirst
    as (program' & track & changes & first & Hprogram & Htrack & Hchanges & ->).
  by exists program', track, changes, first.
Qed.

Lemma tokens_to_midi_tempo_changes_witness :
  tokens_to_midi (list Z) sample_tokens_to_track [[60; 62]; [64]] None 480
    = Done sample_midi ∧
  time <$> head (tempo_changes sample_midi) = Some 0.
Proof.
  split; [reflexivity|].
  destruct (tokens_to_midi_tempo_changes (list Z) sample_tokens_to_track
              [60; 62] [[64]] None 480 sample_midi eq_refl)
    as (_ & _ & _ & _ & _ & _ & _ & _ & H).
  exact H.
Defined.

(** ** Duration bins and ticks *)

(** A bin of [__create_durations_tuples] has the resolution of one of
    the ranges, and a position below it or, for the last bin, 0. *)
Lemma create_durations_elem (ranges : list (Z * Z * Z)) (bins : list duration)
    (b : duration) :
  __create_durations_tuples ranges = Done bins → b ∈ bins →
  ∃ kr, kr ∈ ranges ∧ b.2 = kr.2 ∧ 0 ≤ b.1.2 ∧ (b.1.2 < kr.2 ∨ b.1.2 = 0).
Proof.
  unfold __create_durations_tuples.
  intros (last_range & _ & (last_res & Hlast & [= <-])%bind_Done)%bind_Done Hb.
  apply subseteq_drop, elem_of_app in Hb as [Hb|Hb%list_elem_of_singleton].
  - apply list_elem_of_join in Hb as (l1 & Hb & Hl1).
    apply list_elem_of_fmap in Hl1 as ([beat_range res] & -> & Hkr).
    apply list_elem_of_join in Hb as (l2 & Hb & Hl2).
    apply list_elem_of_fmap in Hl2 as (beat & -> & _).
    apply list_elem_of_fmap in Hb as (pos & -> & Hpos).
    apply elem_of_seqZ in Hpos. exists (beat_range, res). simpl.
    repeat split; try done; lia.
  - unfold beat_res_at in Hlast.
    destruct (find _ ranges) as [kr|] eqn:Hfind; [|done]. injection Hlast as <-.
    apply find_some in Hfind as [Hkr _]. apply list_elem_of_In in Hkr.
    exists kr. subst b. simpl. repeat split; try done; lia.
Qed.

(** From the resolution on, the ticks of a bin split back into its beat
    and the ticks of its position. *)
Lemma duration_to_ticks_Done (beat pos res t : Z) :
  0 ≤ pos < res → res ≤ t →
  duration_to_ticks (beat, pos, res) t = Done (beat * t + pos * t / res) ∧
  0 ≤ pos * t / res < t.
Proof.
  intros Hpos Ht. unfold duration_to_ticks, floordiv.
  destruct (Z.eqb_spec res 0); [lia|]. split.
  - f_equal. replace ((beat * res + pos) * t) with (beat * t * res + pos * t) by lia.
    rewrite Z.div_add_l by done. reflexivity.
  - split.
    + apply Z.div_pos; nia.
    + apply Z.div_lt_upper_bound; nia.
Qed.

(** Two bins of one resolution with the same ticks are the same bin. *)
Lemma duration_to_ticks_inj (beat1 pos1 beat2 pos2 res t ticks : Z) :
  0 ≤ pos1 < res → 0 ≤ pos2 < res → res ≤ t →
  duration_to_ticks (beat1, pos1, res) t = Done ticks →
  duration_to_ticks (beat2, pos2, res) t = Done ticks →
  beat1 = beat2 ∧ pos1 = pos2.
Proof.
  intros H1 H2 Ht Hticks1 Hticks2.
  destruct (duration_to_ticks_Done beat1 pos1 res t H1 Ht) as [E1 B1].
  destruct (duration_to_ticks_Done beat2 pos2 res t H2 Ht) as [E2 B2].
  rewrite E1 in Hticks1. rewrite E2 in Hticks2.
  injection Hticks1 as Hticks1. injection Hticks2 as Hticks2.
  assert (beat1 = beat2) as -> by nia. split; [done|].
  destruct (Z.lt_trichotomy pos1 pos2) as [Hlt|[Heq|Hgt]]; [|done|].
  - pose proof (scaled_div_mono t res pos1 pos2 ltac:(lia) Ht Hlt). lia.
  - pose proof (scaled_div_mono t res pos2 pos1 ltac:(lia) Ht Hgt). lia.
Qed.

Lemma beat_of_ticks (beat pos res t ticks : Z) :
  0 ≤ pos < res → res ≤ t →
  duration_to_ticks (beat, pos, res) t = Done ticks → ticks / t = beat.
Proof.
  intros Hpos Ht Hticks.
  destruct (duration_to_ticks_Done beat pos res t Hpos Ht) as [E B].
  rewrite E in Hticks. injection Hticks as <-.
  symmetry. apply Z.div_unique_pos with (pos * t / res); lia.
Qed.

(** The tick cache holds the ticks of every bin, in order. *)
Lemma durations_ticks_Done (bins : list duration) (t : Z) :
  Forall (λ b : duration, 0 ≤ b.1.2 < b.2 ∧ b.2 ≤ t) bins →
  ∃ ticks, durations_ticks bins t = Done ticks ∧
           Forall2 (λ b k, duration_to_ticks b t = Done k) bins ticks.
Proof.
  intros Hbins. unfold durations_ticks.
  assert (∃ ticks, Forall2 (λ b k, duration_to_ticks b t = Done k) bins ticks)
    as [ticks Hticks].
  { induction Hbins as [|[[beat pos] res] bins [Hpos Ht] _ [ticks IH]]; [by exists []|].
    simpl in Hpos, Ht.
    destruct (duration_to_ticks_Done beat pos res t Hpos Ht) as [E _].
    eexists (_ :: ticks). by constructor. }
  exists ticks. split; [|done]. by apply all_done_Done.
Qed.

(** The bins are well formed when the resolutions are positive and at
    most the time division. *)
Lemma create_durations_ok (ranges : list (Z * Z * Z)) (bins : list duration) (t : Z) :
  __create_durations_tuples ranges = Done bins →
  Forall (λ kr, 0 < kr.2 ≤ t) ranges →
  Forall (λ b : duration, 0 ≤ b.1.2 < b.2 ∧ b.2 ≤ t) bins.
Proof.
  intros Hbins Hranges. apply Forall_forall. intros b Hb.
  destruct (create_durations_elem ranges bins b Hbins Hb)
    as (kr & Hkr & Heq & Hpos & Hlt).
  rewrite Forall_forall in Hranges. specialize (Hranges _ Hkr). simpl in Hranges.
  lia.
Qed.

(** No two well-formed bins have the same ticks when a beat has bins at
    one resolution only. *)
Lemma bins_ticks_inj (bins : list duration) (t ticks : Z) (b b' : duration) :
  Forall (λ b : duration, 0 ≤ b.1.2 < b.2 ∧ b.2 ≤ t) bins →
  (∀ b1 b2 : duration, b1 ∈ bins → b2 ∈ bins → b1.1.1 = b2.1.1 → b1.2 = b2.2) →
  b ∈ bins → b' ∈ bins →
  duration_to_ticks b t = Done ticks → duration_to_ticks b' t = Done ticks →
  b' = b.
Proof.
  intros Hok Hres Hin Hin' Hb Hb'. rewrite Forall_forall in Hok.
  pose proof (Hok _ Hin) as [Hpos Ht]. pose proof (Hok _ Hin') as [Hpos' Ht'].
  specialize (Hres b' b Hin' Hin).
  destruct b as [[beat pos] res], b' as [[beat' pos'] res']. simpl in *.
  assert (beat' = beat) as ->.
  { rewrite <- (beat_of_ticks beat' pos' res' t ticks),
      <- (beat_of_ticks beat pos res t ticks); done. }
  rewrite Hres in * by done.
  by destruct (duration_to_ticks_inj beat pos' beat pos res t ticks) as [_ ->].
Qed.

(** C2, amended: for the bins built from beat ranges whose resolutions
    are positive and at most the time division, no beat having bins at two
    resolutions, every bin [b = (beat, pos, res)] is found again from its
    ticks [(beat * res + pos) * t // res]: [b] is the only bin with these
    ticks, and the nearest value of the tick cache is at the index of [b],
    so that the two mappings are inverse of each other on the bins. *)
Theorem duration_ticks_roundtrip (ranges : list (Z * Z * Z)) (bins : list duration)
    (t : Z) (b : duration) :
  __create_durations_tuples ranges = Done bins →
  Forall (λ kr, 0 < kr.2 ≤ t) ranges →
  (∀ b1 b2 : duration, b1 ∈ bins → b2 ∈ bins → b1.1.1 = b2.1.1 → b1.2 = b2.2) →
  b ∈ bins →
  ∃ ticks, duration_to_ticks b t = Done ticks ∧
           (∀ b', b' ∈ bins → duration_to_ticks b' t = Done ticks → b' = b) ∧
           ticks_to_duration bins t ticks = Done b.
Proof.
  intros Hbins Hranges Hres Hin.
  pose proof (create_durations_ok ranges bins t Hbins Hranges) as Hok.
  destruct (durations_ticks_Done bins t Hok) as (cache & Hcache & Hticks).
  pose proof Hin as [i Hi]%list_elem_of_lookup.
  destruct (Forall2_lookup_l _ _ _ _ _ Hticks Hi) as (ticks & Hcache_i & Hb).
  exists ticks. split; [done|]. split.
  { intros b' Hin' Hb'. by eapply bins_ticks_inj. }
  unfold ticks_to_duration. rewrite Hcache. cbn [bind].
  destruct (argmin_Done Z.ltb ((λ k, Z.abs (k - ticks)) <$> cache)) as [j Hj].
  { intros Hnil. apply fmap_nil_inv in Hnil. by subst cache. }
  rewrite Hj. cbn [bind]. apply subscript_Done.
  apply argmin_least in Hj as (d & Hd & Hleast).
  rewrite list_lookup_fmap in Hd.
  destruct (cache !! j) as [ticks'|] eqn:Hcache_j; [|done].
  simpl in Hd. injection Hd as <-.
  assert (ticks' = ticks) as ->.
  { rewrite Forall_forall in Hleast.
    assert (Z.abs (ticks - ticks) ∈ (λ k, Z.abs (k - ticks)) <$> cache) as Hin0.
    { apply list_elem_of_fmap. exists ticks. split; [done|].
      by eapply list_elem_of_lookup_2. }
    specialize (Hleast _ Hin0). lia. }
  destruct (Forall2_lookup_r _ _ _ _ _ Hticks Hcache_j) as (b' & Hj & Hb').
  rewrite Hj. f_equal.
  assert (b' ∈ bins) as Hin' by (by eapply list_elem_of_lookup_2).
  by eapply bins_ticks_inj.
Qed.

Lemma duration_ticks_roundtrip_witness :
  ∃ ticks, duration_to_ticks (0, 3, 8) 480 = Done ticks ∧
           (∀ b', b' ∈ durations sample_tokenizer →
                  duration_to_ticks b' 480 = Done ticks → b' = (0, 3, 8)) ∧
           ticks_to_duration (durations sample_tokenizer) 480 ticks = Done (0, 3, 8).
Proof.
  apply (duration_ticks_roundtrip sample_beat_res).
  - reflexivity.
  - unfold sample_beat_res. repeat constructor; simpl; lia.
  - assert (forallb (λ b1 : duration,
              forallb (λ b2 : duration, implb (b1.1.1 =? b2.1.1) (b1.2 =? b2.2))
                (durations sample_tokenizer)) (durations sample_tokenizer) = true) as H
      by (vm_compute; reflexivity).
    intros b1 b2 H1%list_elem_of_In H2%list_elem_of_In Hbeat.
    rewrite forallb_forall in H. specialize (H _ H1).
    rewrite forallb_forall in H. specialize (H _ H2).
    apply Z.eqb_eq in Hbeat. rewrite Hbeat in H. by apply Z.eqb_eq.
  - apply list_elem_of_lookup. by exists 2%nat.
Defined.

(** C2 as stated fails for a time division below a resolution: at 4
    ticks per beat the bins (0, 2, 8) and (0, 3, 8) both last 1 tick, so
    that nothing finds (0, 3, 8) again from its ticks, and the lookup of 1
    tick gives the first of them.  It also fails for beat ranges that
    overlap with two resolutions: the bins (1, 0, 4) and (1, 0, 2) of
    [{(0, 2): 4, (1, 3): 2}] both last one beat. *)
Lemma duration_ticks_coarse :
  (__create_durations_tuples sample_beat_res = Done (durations sample_tokenizer) ∧
   durations sample_tokenizer !! 1%nat = Some (0, 2, 8) ∧
   durations sample_tokenizer !! 2%nat = Some (0, 3, 8) ∧
   duration_to_ticks (0, 2, 8) 4 = Done 1 ∧
   duration_to_ticks (0, 3, 8) 4 = Done 1 ∧
   ticks_to_duration (durations sample_tokenizer) 4 1 = Done (0, 2, 8)) ∧
  (∃ bins, __create_durations_tuples [((0, 2), 4); ((1, 3), 2)] = Done bins ∧
     bins !! 3%nat = Some (1, 0, 4) ∧
     bins !! 7%nat = Some (1, 0, 2) ∧
     duration_to_ticks (1, 0, 4) 480 = Done 480 ∧
     duration_to_ticks (1, 0, 2) 480 = Done 480 ∧
     ticks_to_duration bins 480 480 = Done (1, 0, 4)).
Proof.
  split; [repeat split; reflexivity|].
  eexists. split; [reflexivity|]. repeat split; reflexivity.
Qed.

(** * More of the tokenizer *)

(** ** Quantization of time-signature changes *)

Lemma quantize_time_signatures_loop_spec (fuel : nat)
    (td tpb bar previous_tick : Z) (prev : TimeSignature.t) (i : nat)
    (l : list TimeSignature.t) :
  (length l - i ≤ fuel)%nat →
  quantize_time_signatures_loop fuel td tpb bar previous_tick prev i l =
    let* rest := quantize_time_signatures_from td tpb previous_tick prev (drop i l) in
    Done (take i l ++ rest).
Proof.
  revert tpb bar previous_tick prev i l.
  induction fuel as [|fuel IH]; intros tpb bar previous_tick prev i l Hfuel; simpl;
    destruct (l !! i) as [ts|] eqn:Hi.
  - apply lookup_lt_Some in Hi. lia.
  - apply lookup_ge_None in Hi. rewrite drop_ge, take_ge by done.
    simpl. by rewrite app_nil_r.
  - pose proof (lookup_lt_Some _ _ _ Hi) as Hlt.
    rewrite (drop_S _ _ _ Hi). cbn [quantize_time_signatures_from].
    destruct (same_signature ts prev || (TimeSignature.time ts =? previous_tick)).
    + rewrite IH by (rewrite length_delete by eauto; lia).
      rewrite delete_take_drop.
      rewrite drop_app_length' by (rewrite length_take; lia).
      by rewrite take_app_length' by (rewrite length_take; lia).
    + rewrite bind_assoc. apply bind_ext. intros [offset rest] _. cbn [fst snd].
      destruct (0 <? rest).
      * rewrite IH by (rewrite length_insert; lia).
        rewrite drop_insert_lt by lia.
        erewrite take_S_r by (by apply list_lookup_insert_eq).
        rewrite take_insert_ge by lia. rewrite bind_assoc.
        apply bind_ext. intros out _. simpl. rewrite <- app_assoc. reflexivity.
      * rewrite IH by (rewrite length_insert; lia).
        rewrite drop_insert_lt by lia.
        erewrite take_S_r by (by apply list_lookup_insert_eq).
        rewrite take_insert_ge by lia. rewrite bind_assoc.
        apply bind_ext. intros out _. simpl. rewrite <- app_assoc. reflexivity.
  - apply lookup_ge_None in Hi. rewrite drop_ge, take_ge by done.
    simpl. by rewrite app_nil_r.
Qed.

Lemma quantize_time_signatures_spec (l : list TimeSignature.t) (td : Z) :
  quantize_time_signatures l td =
    match l with
    | [] => Raise IndexError
    | first :: l' =>
        let* rest := quantize_time_signatures_from td
                       (td * TimeSignature.numerator first) 0 first l' in
        Done (first :: rest)
    end.
Proof.
  destruct l as [|first l']; [done|]. unfold quantize_time_signatures.
  change (subscript (first :: l') 0 IndexError) with (Done first). cbn [bind].
  rewrite quantize_time_signatures_loop_spec by (simpl; lia). reflexivity.
Qed.

Lemma same_signature_moved (ts prev : TimeSignature.t) (tick : Z) :
  same_signature
    {| TimeSignature.numerator := TimeSignature.numerator ts;
       TimeSignature.denominator := TimeSignature.denominator ts;
       TimeSignature.time := tick |} prev = same_signature ts prev.
Proof. reflexivity. Qed.

Lemma quantize_time_signatures_from_distinct (td tpb previous_tick : Z)
    (prev : TimeSignature.t) (l out : list TimeSignature.t) :
  quantize_time_signatures_from td tpb previous_tick prev l = Done out →
  (∀ ts, head out = Some ts → same_signature ts prev = false) ∧
  ∀ i a b, out !! i = Some a → out !! S i = Some b → same_signature b a = false.
Proof.
  revert tpb previous_tick prev out.
  induction l as [|ts l IH]; intros tpb previous_tick prev out; simpl.
  { intros [= <-]. by split. }
  destruct (same_signature ts prev) eqn:Hsame; simpl; [apply IH|].
  destruct (TimeSignature.time ts =? previous_tick); [apply IH|].
  intros ([offset rest] & _ & H)%bind_Done. simpl in H.
  apply bind_Done in H as (out' & Hout' & [= <-]).
  apply IH in Hout' as [Hhead Hadj]. split.
  - intros ts' [= <-]. by destruct (0 <? rest).
  - intros [|i] a b; simpl; [|apply Hadj].
    intros [= <-] Hb. apply Hhead. by destruct out'.
Qed.

Lemma quantize_time_signatures_from_bars (td previous_tick : Z)
    (prev : TimeSignature.t) (l : list TimeSignature.t) :
  0 < td → 0 < TimeSignature.numerator prev →
  Forall (λ ts, 0 < TimeSignature.numerator ts) l →
  ∃ out kept,
    quantize_time_signatures_from td (td * TimeSignature.numerator prev)
      previous_tick prev l = Done out ∧
    on_bars td previous_tick (TimeSignature.numerator prev) out ∧
    kept `sublist_of` l ∧
    Forall2 (λ a b,
        TimeSignature.numerator b = TimeSignature.numerator a ∧
        TimeSignature.denominator b = TimeSignature.denominator a ∧
        TimeSignature.time a ≤ TimeSignature.time b) kept out.
Proof.
  intros Htd Hprev Hl. revert previous_tick prev Hprev.
  induction Hl as [|ts l Hts _ IH]; intros previous_tick prev Hprev.
  { exists [], []. by repeat split; try constructor. }
  cbn [quantize_time_signatures_from].
  destruct (same_signature ts prev || (TimeSignature.time ts =? previous_tick)).
  { destruct (IH previous_tick prev Hprev) as (out & kept & -> & Hbars & Hsub & Hkept).
    exists out, kept. repeat split; try done. by apply sublist_cons. }
  unfold divmod. assert (0 < td * TimeSignature.numerator prev) as Htpb by nia.
  destruct (Z.eqb_spec (td * TimeSignature.numerator prev) 0); [lia|]. cbn [bind fst snd].
  set (tpb := td * TimeSignature.numerator prev) in *.
  set (delta := TimeSignature.time ts - previous_tick).
  pose proof (Z.div_mod delta tpb ltac:(lia)) as Hdelta.
  pose proof (Z.mod_pos_bound delta tpb Htpb) as Hrest.
  destruct (Z.ltb_spec 0 (delta mod tpb)) as [Hpos|Hzero].
  - destruct (IH (previous_tick + (delta / tpb + 1) * tpb)
                {| TimeSignature.numerator := TimeSignature.numerator ts;
                   TimeSignature.denominator := TimeSignature.denominator ts;
                   TimeSignature.time := previous_tick + (delta / tpb + 1) * tpb |}
                Hts) as (out & kept & Hout & Hbars & Hsub & Hkept).
    simpl in Hout. simpl. rewrite Hout. simpl.
    eexists (_ :: out), (ts :: kept). split; [done|]. repeat split.
    + simpl. replace (previous_tick + (delta / tpb + 1) * tpb - previous_tick)
        with ((delta / tpb + 1) * tpb) by lia. by apply Z.mod_mul.
    + exact Hbars.
    + by apply sublist_skip.
    + constructor; [|done]. simpl. repeat split; try done. subst delta. lia.
  - destruct (IH (TimeSignature.time ts) ts Hts)
      as (out & kept & Hout & Hbars & Hsub & Hkept).
    rewrite Hout. simpl.
    exists (ts :: out), (ts :: kept). split; [done|]. repeat split.
    + simpl. fold delta. fold tpb. lia.
    + exact Hbars.
    + by apply sublist_skip.
    + constructor; [|done]. repeat split; try done.
Qed.

Lemma quantize_time_signatures_sample :
  quantize_time_signatures sample_time_sigs 480 = Done sample_time_sigs_quantized.
Proof. reflexivity. Qed.

(** X1: [quantize_time_signatures] raises [IndexError] on an empty list,
    and the first change of a list is left as it is, not deleted and not
    moved (not even to tick 0): what it returns starts with it. *)
Theorem quantize_time_signatures_first :
  (∀ td, quantize_time_signatures [] td = Raise IndexError) ∧
  (∀ first td, quantize_time_signatures [first] td = Done [first]) ∧
  (∀ first l td out,
     quantize_time_signatures (first :: l) td = Done out → head out = Some first).
Proof.
  split; [done|]. split; [done|]. intros first l td out.
  rewrite quantize_time_signatures_spec.
  by intros (rest & _ & [= <-])%bind_Done.
Qed.

(** X2: no two neighbours among the changes [quantize_time_signatures]
    leaves have the same numerator and denominator. *)
Theorem quantize_time_signatures_distinct (l out : list TimeSignature.t) (td : Z)
    (i : nat) (a b : TimeSignature.t) :
  quantize_time_signatures l td = Done out →
  out !! i = Some a → out !! S i = Some b →
  (TimeSignature.numerator b, TimeSignature.denominator b)
    ≠ (TimeSignature.numerator a, TimeSignature.denominator a).
Proof.
  rewrite quantize_time_signatures_spec. destruct l as [|first l]; [done|].
  intros (rest & [Hhead Hadj]%quantize_time_signatures_from_distinct & [= <-])%bind_Done
    Ha Hb.
  assert (same_signature b a = false) as Hsame.
  { destruct i as [|i]; simpl in Ha, Hb.
    - injection Ha as <-. apply Hhead. by destruct rest.
    - by eapply Hadj. }
  intros [= Hnum Hden]. unfold same_signature in Hsame.
  rewrite Hnum, Hden, !Z.eqb_refl in Hsame. done.
Qed.

Lemma quantize_time_signatures_distinct_witness :
  (3, 4) ≠ (4, 4).
Proof.
  exact (quantize_time_signatures_distinct sample_time_sigs
           sample_time_sigs_quantized 480 0
           {| TimeSignature.numerator := 4; TimeSignature.denominator := 4;
              TimeSignature.time := 0 |}
           {| TimeSignature.numerator := 3; TimeSignature.denominator := 4;
              TimeSignature.time := 3840 |} eq_refl eq_refl eq_refl).
Defined.

(** X3: for a positive time division and changes with positive
    numerators, [quantize_time_signatures] returns; every change it leaves
    after the first is a whole number of bars after the change before it
    (after tick 0 for the second), the bars being those of the signature
    before it; and the changes left after the first are changes of the
    list, in order, with their signature and none earlier than it was. *)
Theorem quantize_time_signatures_on_bars (first : TimeSignature.t)
    (l : list TimeSignature.t) (td : Z) :
  0 < td →
  Forall (λ ts, 0 < TimeSignature.numerator ts) (first :: l) →
  ∃ out kept,
    quantize_time_signatures (first :: l) td = Done (first :: out) ∧
    on_bars td 0 (TimeSignature.numerator first) out ∧
    kept `sublist_of` l ∧
    Forall2 (λ a b,
        TimeSignature.numerator b = TimeSignature.numerator a ∧
        TimeSignature.denominator b = TimeSignature.denominator a ∧
        TimeSignature.time a ≤ TimeSignature.time b) kept out.
Proof.
  intros Htd [Hfirst Hl]%Forall_cons.
  destruct (quantize_time_signatures_from_bars td 0 first l Htd Hfirst Hl)
    as (out & kept & Hout & Hbars & Hsub & Hkept).
  exists out, kept. rewrite quantize_time_signatures_spec, Hout. done.
Qed.

Lemma quantize_time_signatures_on_bars_witness :
  ∃ out kept,
    quantize_time_signatures sample_time_sigs 480
      = Done ({| TimeSignature.numerator := 4; TimeSignature.denominator := 4;
                 TimeSignature.time := 0 |} :: out) ∧
    on_bars 480 0 4 out ∧
    kept `sublist_of` drop 1 sample_time_sigs ∧
    Forall2 (λ a b,
        TimeSignature.numerator b = TimeSignature.numerator a ∧
        TimeSignature.denominator b = TimeSignature.denominator a ∧
        TimeSignature.time a ≤ TimeSignature.time b) kept out.
Proof.
  apply (quantize_time_signatures_on_bars
           {| TimeSignature.numerator := 4; TimeSignature.denominator := 4;
              TimeSignature.time := 0 |} (drop 1 sample_time_sigs) 480).
  - lia.
  - unfold sample_time_sigs. simpl. repeat constructor.
Defined.

(** ** The special tokens of the token-types graph *)

Lemma dict_set_fresh (dic : types_graph) (key : string) (value : list string) :
  key ∉ dict_keys dic → dict_set dic key value = dic ++ [(key, value)].
Proof.
  unfold dict_keys. induction dic as [|[k v] dic IH]; simpl; [done|].
  intros Hkey. apply not_elem_of_cons in Hkey as [Hne Hkey].
  rewrite decide_False by done. by rewrite IH.
Qed.

Lemma dict_keys_app (dic dic' : types_graph) :
  dict_keys (dic ++ dic') = dict_keys dic ++ dict_keys dic'.
Proof. unfold dict_keys. apply fmap_app. Qed.

Lemma dict_keys_append (type : string) (dic : types_graph) :
  dict_keys (append_to_values type dic) = dict_keys dic.
Proof.
  unfold dict_keys, append_to_values. rewrite <- list_fmap_compose.
  by apply list_fmap_ext.
Qed.

Lemma append_to_values_app (type : string) (dic dic' : types_graph) :
  append_to_values type (dic ++ dic')
    = append_to_values type dic ++ append_to_values type dic'.
Proof. unfold append_to_values. apply fmap_app. Qed.

Lemma append_to_values_twice (type type' : string) (dic : types_graph) :
  append_to_values type' (append_to_values type dic)
    = (λ kv, (kv.1, kv.2 ++ [type; type'])) <$> dic.
Proof.
  unfold append_to_values. rewrite <- list_fmap_compose.
  apply list_fmap_ext. intros _ [k v] _. simpl. by rewrite <- app_assoc.
Qed.

Lemma append_to_values_thrice (type type' type'' : string) (dic : types_graph) :
  append_to_values type'' (append_to_values type' (append_to_values type dic))
    = (λ kv, (kv.1, kv.2 ++ [type; type'; type''])) <$> dic.
Proof.
  rewrite append_to_values_twice. unfold append_to_values.
  rewrite <- list_fmap_compose.
  apply list_fmap_ext. intros _ [k v] _. simpl. by rewrite <- app_assoc.
Qed.

Lemma append_to_values_nil (dic : types_graph) :
  (λ kv : string * list string, (kv.1, kv.2 ++ [])) <$> dic = dic.
Proof.
  rewrite <- (list_fmap_id dic) at 2. apply list_fmap_ext.
  intros _ [k v] _. simpl. by rewrite app_nil_r.
Qed.

Lemma dict_keys_singleton (key : string) (value : list string) :
  dict_keys [(key, value)] = [key].
Proof. reflexivity. Qed.

(** Setting a key that the dict does not hold, once its keys are known,
    the innermost assignment first. *)
Ltac dict_set_new :=
  match goal with
  | |- context [dict_set ?d ?k ?v] =>
      lazymatch d with
      | context [dict_set] => fail
      | _ =>
          rewrite (dict_set_fresh d k v)
            by (rewrite ?dict_keys_app, ?dict_keys_append, ?dict_keys_singleton,
                  ?elem_of_app, ?elem_of_cons, ?elem_of_nil; intuition congruence)
      end
  end;
  rewrite ?append_to_values_app, ?dict_keys_app, ?dict_keys_append,
    ?dict_keys_singleton.

(** The items of the graph once the special tokens are added, for a graph
    that holds none of their keys. *)
Lemma add_special_tokens_items (self : SpecialTokens) (dic : types_graph) :
  Forall (λ key, key ∉ dict_keys dic) ["PAD"; "SOS"; "EOS"; "MASK"] →
  _add_special_tokens_to_types_graph self dic =
    ((λ kv, (kv.1, kv.2 ++ appended_types self)) <$> dic)
    ++ (if _pad self then
          [("PAD", ["PAD"] ++ (if _sos_eos self then ["EOS"] else [])
                   ++ (if _mask self then ["MASK"] else []))]
        else [])
    ++ (if _sos_eos self then
          [("SOS", dict_keys dic ++ (if _pad self then ["PAD"] else [])
                   ++ ["EOS"] ++ (if _mask self then ["MASK"] else []));
           ("EOS", ["EOS"] ++ (if _mask self then ["MASK"] else []))]
        else [])
    ++ (if _mask self then
          [("MASK", dict_keys dic ++ (if _pad self then ["PAD"] else [])
                    ++ (if _sos_eos self then ["SOS"; "EOS"] else [])
                    ++ ["MASK"])]
        else []).
Proof.
  intros H. apply Forall_cons in H as [Hpad H]. apply Forall_cons in H as [Hsos H].
  apply Forall_cons in H as [Heos H]. apply Forall_cons in H as [Hmask _].
  unfold _add_special_tokens_to_types_graph, appended_types.
  destruct self as [[] [] []]; simpl; repeat dict_set_new;
    rewrite ?append_to_values_thrice, ?append_to_values_twice, ?append_to_values_nil,
      ?app_nil_r, <- ?app_assoc; try reflexivity.
  all: f_equal; unfold append_to_values; simpl; by rewrite <- ?app_assoc.
Qed.

(** X4: on a graph that holds none of the keys PAD, SOS, EOS and MASK,
    [_add_special_tokens_to_types_graph] gives every list of the graph the
    special types that are enabled, PAD, EOS and MASK in this order, and
    then the keys PAD (followed by itself), SOS (followed by every type of
    the graph and by PAD), EOS and MASK (followed by every key before it);
    the lists of PAD, SOS and EOS are given EOS and MASK as well, so that
    EOS is followed by itself and PAD by EOS. *)
Theorem add_special_tokens_closed_form (self : SpecialTokens) (dic : types_graph) :
  Forall (λ key, key ∉ dict_keys dic) ["PAD"; "SOS"; "EOS"; "MASK"] →
  _add_special_tokens_to_types_graph self dic =
    ((λ kv, (kv.1, kv.2 ++ appended_types self)) <$> dic)
    ++ (if _pad self then
          [("PAD", ["PAD"] ++ (if _sos_eos self then ["EOS"] else [])
                   ++ (if _mask self then ["MASK"] else []))]
        else [])
    ++ (if _sos_eos self then
          [("SOS", dict_keys dic ++ (if _pad self then ["PAD"] else [])
                   ++ ["EOS"] ++ (if _mask self then ["MASK"] else []));
           ("EOS", ["EOS"] ++ (if _mask self then ["MASK"] else []))]
        else [])
    ++ (if _mask self then
          [("MASK", dict_keys dic ++ (if _pad self then ["PAD"] else [])
                    ++ (if _sos_eos self then ["SOS"; "EOS"] else [])
                    ++ ["MASK"])]
        else []).
Proof. apply add_special_tokens_items. Qed.

Lemma add_special_tokens_closed_form_witness :
  _add_special_tokens_to_types_graph
    {| _pad := true; _sos_eos := true; _mask := false |} sample_base_graph =
  [("Bar", ["Position"; "PAD"; "EOS"]);
   ("Position", ["Pitch"; "PAD"; "EOS"]);
   ("Pitch", ["Velocity"; "PAD"; "EOS"]);
   ("Velocity", ["Duration"; "PAD"; "EOS"]);
   ("Duration", ["Pitch"; "Position"; "Bar"; "PAD"; "EOS"]);
   ("PAD", ["PAD"; "EOS"]);
   ("SOS", ["Bar"; "Position"; "Pitch"; "Velocity"; "Duration"; "PAD"; "EOS"]);
   ("EOS", ["EOS"])].
Proof.
  apply (add_special_tokens_closed_form
           {| _pad := true; _sos_eos := true; _mask := false |} sample_base_graph).
  repeat constructor; simpl; rewrite !elem_of_cons, elem_of_nil; intuition congruence.
Defined.

(** The list of a key of the graph, before and after. *)
Lemma add_special_tokens_lookup (self : SpecialTokens) (dic : types_graph)
    (key : string) :
  Forall (λ key, key ∉ dict_keys dic) ["PAD"; "SOS"; "EOS"; "MASK"] →
  key ∈ dict_keys dic →
  ∃ allowed,
    (list_to_map dic : gmap string (list string)) !! key = Some allowed ∧
    (list_to_map (_add_special_tokens_to_types_graph self dic)
       : gmap string (list string)) !! key
      = Some (allowed ++ appended_types self).
Proof.
  intros Hspecial Hkey.
  destruct ((list_to_map dic : gmap string (list string)) !! key) as [allowed|]
    eqn:Hlookup; [|by apply not_elem_of_list_to_map in Hlookup].
  exists allowed. split; [done|].
  rewrite add_special_tokens_items by done.
  rewrite list_to_map_app. apply lookup_union_Some_l.
  change ((λ kv : string * list string, (kv.1, kv.2 ++ appended_types self)) <$> dic)
    with (prod_map id (λ v, v ++ appended_types self) <$> dic).
  by rewrite list_to_map_fmap, lookup_fmap, Hlookup.
Qed.

Lemma appended_types_special (self : SpecialTokens) (type : string) :
  type ∈ appended_types self → type ∈ ["PAD"; "SOS"; "EOS"; "MASK"].
Proof.
  unfold appended_types. destruct self as [[] [] []]; simpl;
    rewrite ?elem_of_cons, ?elem_of_nil; intuition.
Qed.

Section SpecialTokensProperties.

Variable token_type : Z → outcome string.
Variables self self' : MIDITokenizer.
Variable special : SpecialTokens.
Variable dic : types_graph.

Hypothesis dic_base :
  Forall (λ key, key ∉ dict_keys dic) ["PAD"; "SOS"; "EOS"; "MASK"].
Hypothesis graph_self : tokens_types_graph self = list_to_map dic.
Hypothesis graph_self' :
  tokens_types_graph self'
    = list_to_map (_add_special_tokens_to_types_graph special dic).

Lemma successors_special (previous : string) :
  previous ∈ dict_keys dic →
  ∃ allowed, successors self previous = Done allowed ∧
             successors self' previous = Done (allowed ++ appended_types special).
Proof.
  intros Hkey. unfold successors. rewrite graph_self, graph_self'.
  destruct (add_special_tokens_lookup special dic previous dic_base Hkey)
    as (allowed & -> & ->). eauto.
Qed.

Lemma allowed_special (type : string) (allowed : list string) :
  type ∈ dict_keys dic →
  bool_decide (type ∈ allowed ++ appended_types special)
    = bool_decide (type ∈ allowed).
Proof.
  intros Hkey. apply bool_decide_ext. rewrite elem_of_app. split; [|auto].
  intros [?|Hspecial%appended_types_special]; [done|].
  rewrite Forall_forall in dic_base. by destruct (dic_base _ Hspecial).
Qed.

Lemma errors_with_pad_special (err : Z) (previous : string)
    (tokens : list Z) (types : list string) :
  Forall2 (λ token type, token_type token = Done type) tokens types →
  Forall (λ type, type ∈ dict_keys dic) (previous :: types) →
  errors_with_pad token_type self' err previous tokens
    = errors_with_pad token_type self err previous tokens.
Proof.
  intros Htypes. revert err previous.
  induction Htypes as [|token type tokens types Htype _ IH];
    intros err previous Hkeys; cbn [errors_with_pad]; [done|].
  apply Forall_cons in Hkeys as [Hprev Hkeys].
  pose proof Hkeys as [Htype_key _]%Forall_cons.
  rewrite Htype. cbn [bind].
  destruct (successors_special previous Hprev) as (allowed & -> & ->). cbn [bind].
  rewrite allowed_special by done. by apply IH.
Qed.

Lemma errors_until_pad_special (err : Z) (previous : string)
    (tokens : list Z) (types : list string) :
  Forall2 (λ token type, token_type token = Done type) tokens types →
  Forall (λ type, type ∈ dict_keys dic) (previous :: types) →
  errors_until_pad token_type self' err previous tokens
    = errors_until_pad token_type self err previous tokens.
Proof.
  intros Htypes. revert err previous.
  induction Htypes as [|token type tokens types Htype _ IH];
    intros err previous Hkeys; cbn [errors_until_pad]; [done|].
  apply Forall_cons in Hkeys as [Hprev Hkeys].
  pose proof Hkeys as [Htype_key _]%Forall_cons.
  case_bool_decide; [done|].
  rewrite Htype. cbn [bind].
  destruct (successors_special previous Hprev) as (allowed & -> & ->). cbn [bind].
  rewrite allowed_special by done. by apply IH.
Qed.

End SpecialTokensProperties.

(** X5: the special tokens change nothing for the sequences that hold
    none: for a graph without the keys PAD, SOS, EOS and MASK, and tokens
    whose types are keys of it, [token_types_errors] gives the same result
    with the graph that [_add_special_tokens_to_types_graph] makes of it
    as with the graph itself, with and without [consider_pad]. *)
Theorem token_types_errors_without_special (token_type : Z → outcome string)
    (self self' : MIDITokenizer) (special : SpecialTokens) (dic : types_graph)
    (tokens : list Z) (types : list string) (consider_pad : bool) :
  Forall (λ key, key ∉ dict_keys dic) ["PAD"; "SOS"; "EOS"; "MASK"] →
  tokens_types_graph self = list_to_map dic →
  tokens_types_graph self'
    = list_to_map (_add_special_tokens_to_types_graph special dic) →
  Forall2 (λ token type, token_type token = Done type) tokens types →
  Forall (λ type, type ∈ dict_keys dic) types →
  token_types_errors token_type self' tokens consider_pad
    = token_types_errors token_type self tokens consider_pad.
Proof.
  intros Hbase Hself Hself' Htypes Hkeys. unfold token_types_errors.
  destruct Htypes as [|first type tokens types Hfirst Htypes]; [done|].
  change (subscript (first :: tokens) 0 IndexError) with (Done (A:=Z) first).
  cbn [bind]. rewrite Hfirst. cbn [bind].
  change (drop 1 (first :: tokens)) with tokens.
  destruct consider_pad.
  - by rewrite (errors_with_pad_special token_type self self' special dic Hbase
                  Hself Hself' 0 type tokens types).
  - by rewrite (errors_until_pad_special token_type self self' special dic Hbase
                  Hself Hself' 0 type tokens types).
Qed.

Lemma token_types_errors_without_special_witness :
  token_types_errors sample_token_type sample_tokenizer [1; 2; 3; 4; 5; 3; 3; 1] false
    = token_types_errors sample_token_type sample_tokenizer_no_pad
        [1; 2; 3; 4; 5; 3; 3; 1] false.
Proof.
  apply (token_types_errors_without_special sample_token_type
           sample_tokenizer_no_pad sample_tokenizer
           {| _pad := true; _sos_eos := false; _mask := false |} sample_base_graph
           [1; 2; 3; 4; 5; 3; 3; 1]
           ["Bar"; "Position"; "Pitch"; "Velocity"; "Duration"; "Pitch"; "Pitch"; "Bar"]).
  - repeat constructor; simpl; rewrite !elem_of_cons, elem_of_nil; intuition congruence.
  - reflexivity.
  - reflexivity.
  - repeat constructor.
  - repeat constructor; simpl; rewrite !elem_of_cons; intuition.
Defined.

Lemma last_cons {A : Type} (a d : A) (l : list A) :
  List.last (a :: l) d = List.last l a.
Proof.
  revert a d. induction l as [|b l IH]; intros a d; [done|].
  change (List.last (a :: b :: l) d) with (List.last (b :: l) d).
  by rewrite (IH b d), (IH b a).
Qed.

Section PaddingProperties.

Variable token_type : Z → outcome string.
Variable self : MIDITokenizer.

(** The loops go through a sequence and then through what follows it. *)
Lemma errors_with_pad_app (err : Z) (previous : string)
    (tokens tokens' : list Z) (types : list string) :
  Forall2 (λ token type, token_type token = Done type) tokens types →
  errors_with_pad token_type self err previous (tokens ++ tokens') =
    let* err' := errors_with_pad token_type self err previous tokens in
    errors_with_pad token_type self err' (List.last types previous) tokens'.
Proof.
  intros Htypes. revert err previous.
  induction Htypes as [|token type tokens types Htype _ IH]; intros err previous;
    [done|].
  rewrite <- app_comm_cons. cbn [errors_with_pad]. rewrite Htype. cbn [bind].
  destruct (successors self previous); cbn [bind]; [|done..].
  by rewrite IH, last_cons.
Qed.

Lemma errors_until_pad_app (err : Z) (previous : string)
    (tokens tokens' : list Z) (types : list string) :
  Forall2 (λ token type, token_type token = Done type) tokens types →
  Forall (λ type, type ≠ "PAD") (previous :: types) →
  errors_until_pad token_type self err previous (tokens ++ tokens') =
    let* err' := errors_until_pad token_type self err previous tokens in
    errors_until_pad token_type self err' (List.last types previous) tokens'.
Proof.
  intros Htypes. revert err previous.
  induction Htypes as [|token type tokens types Htype _ IH]; intros err previous Hpad.
  { simpl. done. }
  apply Forall_cons in Hpad as [Hprev Hpad].
  rewrite <- app_comm_cons. cbn [errors_until_pad].
  rewrite bool_decide_eq_false_2 by done. rewrite Htype. cbn [bind].
  destruct (successors self previous); cbn [bind]; [|done..].
  by rewrite IH, last_cons.
Qed.

Variable special : SpecialTokens.
Variable dic : types_graph.

Hypothesis dic_base :
  Forall (λ key, key ∉ dict_keys dic) ["PAD"; "SOS"; "EOS"; "MASK"].
Hypothesis pad_enabled : _pad special = true.
Hypothesis graph_self :
  tokens_types_graph self
    = list_to_map (_add_special_tokens_to_types_graph special dic).

Lemma successors_to_pad (previous : string) :
  previous ∈ dict_keys dic ∨ previous = "PAD" →
  ∃ allowed, successors self previous = Done allowed ∧ "PAD" ∈ allowed.
Proof.
  intros [Hkey| ->]; unfold successors; rewrite graph_self.
  - destruct (add_special_tokens_lookup special dic previous dic_base Hkey)
      as (allowed & _ & ->).
    eexists. split; [done|]. apply elem_of_app. right.
    unfold appended_types. rewrite pad_enabled. by left.
  - rewrite add_special_tokens_items by done. rewrite pad_enabled.
    rewrite list_to_map_app, lookup_union_r.
    + simpl. rewrite lookup_insert_eq. eexists. split; [done|]. by left.
    + apply not_elem_of_list_to_map. rewrite <- list_fmap_compose.
      apply Forall_cons in dic_base as [Hpad _]. exact Hpad.
Qed.

Lemma errors_with_pad_padding (err : Z) (previous : string) (pads : list Z) :
  previous ∈ dict_keys dic ∨ previous = "PAD" →
  Forall (λ token, token_type token = Done "PAD") pads →
  errors_with_pad token_type self err previous pads = Done err.
Proof.
  intros Hprev Hpads. revert previous Hprev.
  induction Hpads as [|token pads Htoken _ IH]; intros previous Hprev; [done|].
  cbn [errors_with_pad]. rewrite Htoken. cbn [bind].
  destruct (successors_to_pad previous Hprev) as (allowed & -> & Hin). cbn [bind].
  rewrite bool_decide_eq_true_2 by done. apply IH. by right.
Qed.

Lemma errors_until_pad_padding (err : Z) (previous : string) (pads : list Z) :
  previous ∈ dict_keys dic ∨ previous = "PAD" →
  Forall (λ token, token_type token = Done "PAD") pads →
  errors_until_pad token_type self err previous pads = Done err.
Proof.
  intros Hprev Hpads. revert previous Hprev.
  induction Hpads as [|token pads Htoken _ IH]; intros previous Hprev; [done|].
  cbn [errors_until_pad]. case_bool_decide; [done|].
  rewrite Htoken. cbn [bind].
  destruct (successors_to_pad previous Hprev) as (allowed & -> & Hin). cbn [bind].
  rewrite bool_decide_eq_true_2 by done. apply IH. by right.
Qed.

End PaddingProperties.

Lemma Forall_last {A : Type} (P : A → Prop) (a : A) (l : list A) :
  Forall P (a :: l) → P (List.last l a).
Proof.
  revert a. induction l as [|b l IH]; intros a Hall.
  - by apply Forall_cons in Hall as [? _].
  - rewrite last_cons. apply IH. by apply Forall_cons in Hall as [_ ?].
Qed.

(** X6: with padding enabled, PAD tokens after a sequence add no error:
    for a graph made by [_add_special_tokens_to_types_graph] with [_pad],
    and a sequence that is not empty of tokens whose types are types of
    the graph before that, [token_types_errors] counts the same errors in
    the sequence and in the sequence followed by any number of PAD
    tokens, with and without [consider_pad]; only the length it divides
    by changes. *)
Theorem token_types_errors_padding (token_type : Z → outcome string)
    (self : MIDITokenizer) (special : SpecialTokens) (dic : types_graph)
    (tokens pads : list Z) (types : list string) (consider_pad : bool) :
  Forall (λ key, key ∉ dict_keys dic) ["PAD"; "SOS"; "EOS"; "MASK"] →
  _pad special = true →
  tokens_types_graph self
    = list_to_map (_add_special_tokens_to_types_graph special dic) →
  tokens ≠ [] →
  Forall2 (λ token type, token_type token = Done type) tokens types →
  Forall (λ type, type ∈ dict_keys dic) types →
  Forall (λ token, token_type token = Done "PAD") pads →
  ∃ err,
    token_types_errors token_type self tokens consider_pad
      = Done (Qmake err (Pos.of_nat (length tokens))) ∧
    token_types_errors token_type self (tokens ++ pads) consider_pad
      = Done (Qmake err (Pos.of_nat (length tokens + length pads))).
Proof.
  intros Hbase Hpad Hgraph Hne Htypes Hkeys Hpads.
  destruct Htypes as [|first type tokens types Hfirst Htypes]; [done|].
  assert (Forall (λ type, is_Some (tokens_types_graph self !! type)) (type :: types))
    as Hsome.
  { eapply Forall_impl; [exact Hkeys|]. intros key Hkey. simpl. rewrite Hgraph.
    destruct (add_special_tokens_lookup special dic key Hbase Hkey)
      as (allowed & _ & ->). eauto. }
  assert (List.last types type ∈ dict_keys dic ∨ List.last types type = "PAD")
    as Hlast by (left; by apply (Forall_last (λ type, type ∈ dict_keys dic))).
  assert (Forall (λ type, type ≠ "PAD") (type :: types)) as Hnopad.
  { eapply Forall_impl; [exact Hkeys|]. intros key Hkey ->. simpl in Hkey.
    by apply Forall_cons in Hbase as [? _]. }
  unfold token_types_errors. rewrite <- app_comm_cons.
  change (subscript (first :: tokens) 0 IndexError) with (Done (A:=Z) first).
  change (subscript (first :: tokens ++ pads) 0 IndexError) with (Done (A:=Z) first).
  cbn [bind]. rewrite Hfirst. cbn [bind].
  change (drop 1 (first :: tokens)) with tokens.
  change (drop 1 (first :: tokens ++ pads)) with (tokens ++ pads).
  destruct consider_pad.
  - rewrite (errors_with_pad_app token_type self 0 type tokens pads types Htypes).
    rewrite (errors_with_pad_count token_type self 0 type tokens types Htypes Hsome).
    cbn [bind].
    rewrite (errors_with_pad_padding token_type self special dic Hbase Hpad Hgraph
               _ _ pads Hlast Hpads).
    cbn [bind]. eexists. split; [reflexivity|].
    simpl. rewrite length_app. reflexivity.
  - rewrite (errors_until_pad_app token_type self 0 type tokens pads types Htypes Hnopad).
    rewrite (errors_until_pad_count token_type self 0 type tokens types Htypes Hsome).
    cbn [bind].
    rewrite (errors_until_pad_padding token_type self special dic Hbase Hpad Hgraph
               _ _ pads Hlast Hpads).
    cbn [bind]. eexists. split; [reflexivity|].
    simpl. rewrite length_app. reflexivity.
Qed.

Lemma token_types_errors_padding_witness :
  ∃ err,
    token_types_errors sample_token_type sample_tokenizer [1; 2; 3; 3] false
      = Done (Qmake err 4) ∧
    token_types_errors sample_token_type sample_tokenizer ([1; 2; 3; 3] ++ [0; 0; 0]) false
      = Done (Qmake err 7).
Proof.
  apply (token_types_errors_padding sample_token_type sample_tokenizer
           {| _pad := true; _sos_eos := false; _mask := false |} sample_base_graph
           [1; 2; 3; 3] [0; 0; 0] ["Bar"; "Position"; "Pitch"; "Pitch"]).
  - repeat constructor; simpl; rewrite !elem_of_cons, elem_of_nil; intuition congruence.
  - reflexivity.
  - reflexivity.
  - done.
  - repeat constructor.
  - repeat constructor; simpl; rewrite !elem_of_cons; intuition.
  - repeat constructor.
Defined.

(** ** Time signatures of the vocabulary *)

(** The signatures that [__create_time_signatures] lists. *)
Lemma create_time_signatures_spec (max_beat_res nb_notes : Z)
    (signatures : list (Z * Z)) (num den : Z) :
  __create_time_signatures (max_beat_res, nb_notes) = Done signatures →
  (num, den) ∈ signatures ↔
  (∃ i, 0 ≤ i ∧ den = 2 ^ i) ∧ den ≤ max_beat_res ∧ 1 ≤ num ≤ nb_notes * den.
Proof.
  unfold __create_time_signatures.
  destruct (Z.ltb_spec 0 max_beat_res) as [Hpos|]; [|done].
  destruct (Z.eqb_spec (2 ^ Z.log2 max_beat_res) max_beat_res) as [Hpow|]; [|done].
  simpl. intros [= <-]. rewrite list_elem_of_join. split.
  - intros (l & Hin & Hl). apply list_elem_of_fmap in Hl as (i & -> & Hi).
    apply list_elem_of_fmap in Hin as (j & [= -> ->] & Hj).
    unfold range in *. apply elem_of_seqZ in Hi, Hj.
    split; [exists i; split; [lia | done]|]. split; [|lia].
    rewrite <- Hpow. apply Z.pow_le_mono_r; lia.
  - intros ((i & Hi & ->) & Hle & Hnum).
    exists ((λ j, (j, 2 ^ i)) <$> range 1 (2 ^ i * nb_notes + 1)). split.
    + apply list_elem_of_fmap. exists num. split; [done|].
      unfold range. apply elem_of_seqZ. lia.
    + apply list_elem_of_fmap. exists i. split; [done|].
      unfold range. apply elem_of_seqZ.
      assert (i ≤ Z.log2 max_beat_res); [|lia].
      rewrite <- (Z.log2_pow2 i) by done. by apply Z.log2_le_mono.
Qed.

(** X7: when [__create_time_signatures] returns, its list holds exactly
    the signatures whose denominator is a power of 2 at most
    [max_beat_res] and whose numerator is from 1 to [nb_notes] times the
    denominator. *)
Theorem create_time_signatures_elem (max_beat_res nb_notes : Z)
    (signatures : list (Z * Z)) (num den : Z) :
  __create_time_signatures (max_beat_res, nb_notes) = Done signatures →
  (num, den) ∈ signatures ↔
  (∃ i, 0 ≤ i ∧ den = 2 ^ i) ∧ den ≤ max_beat_res ∧ 1 ≤ num ≤ nb_notes * den.
Proof. apply create_time_signatures_spec. Qed.

Lemma create_time_signatures_elem_witness :
  (5, 4) ∈ done_or [] (__create_time_signatures (8, 2)) ↔
  (∃ i, 0 ≤ i ∧ 4 = 2 ^ i) ∧ 4 ≤ 8 ∧ 1 ≤ 5 ≤ 2 * 4.
Proof. exact (create_time_signatures_elem 8 2 _ 5 4 eq_refl). Defined.

Lemma reduction_loop_power (fuel : nat) (mbr num den num' den' : Z) :
  reduction_loop fuel mbr num den = Done (num', den') →
  1 ≤ num → (∃ i, 0 ≤ i ∧ den = 2 ^ i) →
  1 ≤ num' ∧ ∃ i, 0 ≤ i ∧ den' = 2 ^ i.
Proof.
  revert num den. induction fuel as [|fuel IH]; intros num den; simpl.
  - destruct (_ && _); [done|]. intros [= <- <-]. auto.
  - destruct (Z.ltb_spec mbr den), (Z.eqb_spec (den mod 2) 0),
      (Z.eqb_spec (num mod 2) 0); simpl; try (intros [= <- <-]; by auto).
    intros Hloop Hnum (i & Hi & ->). apply (IH _ _ Hloop); [div_lia|].
    destruct (decide (i = 0)) as [->|]; [done|].
    exists (i - 1). split; [lia|].
    replace i with (1 + (i - 1)) at 1 by lia.
    rewrite Z.pow_add_r by lia. rewrite Z.mul_comm. by apply Z.div_mul.
Qed.

Lemma divided_down_pos (bound n n' : Z) : divided_down bound n n' → 1 ≤ n → 1 ≤ n'.
Proof.
  induction 1 as [|n p n' _ (Hp & Hdiv & _) _ IH]; [done|]. intros Hn. apply IH.
  destruct Hdiv as [q ->]. rewrite Z.div_mul by lia. nia.
Qed.

(** X8: [_reduce_time_signature] lands in the vocabulary: for a
    numerator of at least 1 and a denominator that is a power of 2, the
    pair it returns is one of the time signatures that
    [__create_time_signatures] lists for the same range. *)
Theorem reduce_time_signature_in_vocabulary (fuel : nat) (self : MIDITokenizer)
    (num den num' den' : Z) (signatures : list (Z * Z)) :
  1 ≤ num → (∃ i, 0 ≤ i ∧ den = 2 ^ i) →
  __create_time_signatures (time_signature_range (additional_tokens self))
    = Done signatures →
  _reduce_time_signature fuel self num den = Done (num', den') →
  (num', den') ∈ signatures.
Proof.
  intros Hnum Hden. unfold _reduce_time_signature.
  destruct (time_signature_range _) as [mbr nb]. intros Hsigs H.
  apply bind_Done in H as ([n0 d0] & Hred & H).
  destruct (Z.leb_spec d0 mbr) as [Hle|]; [|done].
  apply decomposition_loop_Done in H as [-> Hdown].
  destruct (reduction_loop_power _ _ _ _ _ _ Hred Hnum Hden) as [Hn0 Hd0].
  apply (create_time_signatures_spec mbr nb signatures num' d0 Hsigs).
  split; [done|]. split; [done|]. split.
  - by eapply divided_down_pos.
  - by eapply divided_down_bound.
Qed.

Lemma reduce_time_signature_in_vocabulary_witness :
  (5, 4) ∈ done_or [] (__create_time_signatures (8, 2)).
Proof.
  apply (reduce_time_signature_in_vocabulary 1 sample_tokenizer 10 4 5 4).
  - lia.
  - exists 2. split; [lia | reflexivity].
  - reflexivity.
  - reflexivity.
Defined.

(** ** Duration bins in ascending order *)

Lemma create_durations_ranges_bins (ranges : list (Z * Z * Z)) :
  __create_durations_tuples ranges =
    let* last_range := max_key ranges in
    let* last_res := beat_res_at ranges last_range in
    Done (drop 1 (ranges_bins ranges
                    ++ [(Z.max last_range.1 last_range.2, 0, last_res)])).
Proof.
  unfold __create_durations_tuples, ranges_bins.
  assert ((λ kr : Z * Z * Z,
             let '(beat_range, res) := kr in
             mjoin ((λ beat, (λ pos, (beat, pos, res)) <$> range 0 res)
                      <$> range beat_range.1 beat_range.2)) <$> ranges
          = range_bins <$> ranges) as ->; [|done].
  apply list_fmap_ext. by intros _ [[a b] res] _.
Qed.

Lemma fmap_join {A B : Type} (f : A → B) (ls : list (list A)) :
  f <$> mjoin ls = mjoin (fmap f <$> ls).
Proof.
  induction ls as [|l ls IH]; [done|].
  rewrite fmap_cons. simpl. by rewrite fmap_app, IH.
Qed.

(** The ticks of the bins of one beat are ascending and within the beat. *)
Lemma beat_bins_sorted (t beat res : Z) :
  0 < res → res ≤ t →
  StronglySorted Z.lt (ticks_of t <$> ((λ pos, (beat, pos, res)) <$> range 0 res)) ∧
  Forall (λ x, beat * t ≤ x < (beat + 1) * t)
    (ticks_of t <$> ((λ pos, (beat, pos, res)) <$> range 0 res)).
Proof.
  intros Hres Ht. rewrite <- list_fmap_compose. unfold range. split.
  - apply StronglySorted_fmap_seqZ. intros i j _ Hij _. unfold ticks_of. simpl.
    pose proof (scaled_div_mono t res i j Hres Ht Hij). lia.
  - apply Forall_fmap, Forall_seqZ. intros pos Hpos. unfold ticks_of. simpl.
    assert (0 ≤ pos * t / res) by (apply Z.div_pos; nia).
    assert (pos * t / res < t) by (apply Z.div_lt_upper_bound; nia). lia.
Qed.

(** Blocks that are ascending, each within its own unit, are ascending
    one after another. *)
Lemma blocks_sorted (g : Z → list Z) (unit m n : Z) :
  0 ≤ unit →
  (∀ i, m ≤ i < m + n →
        StronglySorted Z.lt (g i) ∧ Forall (λ x, i * unit ≤ x < (i + 1) * unit) (g i)) →
  StronglySorted Z.lt (mjoin (g <$> seqZ m n)) ∧
  Forall (λ x, m * unit ≤ x < (m + n) * unit) (mjoin (g <$> seqZ m n)).
Proof.
  intros Hunit. remember (Z.to_nat n) as k eqn:Hk. revert m n Hk.
  induction k as [|k IH]; intros m n Hk Hg.
  { rewrite seqZ_nil by lia. split; constructor. }
  rewrite seqZ_cons by lia. rewrite fmap_cons. simpl.
  destruct (Hg m ltac:(lia)) as [Hsorted Hbound].
  destruct (IH (Z.succ m) (Z.pred n) ltac:(lia)) as [Hsorted' Hbound'].
  { intros i Hi. apply Hg. lia. }
  split.
  - apply StronglySorted_app. split; [|done].
    intros x1 x2 H1 H2. rewrite Forall_forall in Hbound, Hbound'.
    specialize (Hbound _ H1). specialize (Hbound' _ H2). simpl in *. nia.
  - apply Forall_app. split.
    + eapply Forall_impl; [exact Hbound|]. simpl. intros x Hx. nia.
    + eapply Forall_impl; [exact Hbound'|]. simpl. intros x Hx. nia.
Qed.

Lemma range_bins_sorted (t : Z) (kr : Z * Z * Z) :
  0 < kr.2 → kr.2 ≤ t →
  StronglySorted Z.lt (ticks_of t <$> range_bins kr) ∧
  Forall (λ x, kr.1.1 * t ≤ x < kr.1.1 * t + (kr.1.2 - kr.1.1) * t)
    (ticks_of t <$> range_bins kr).
Proof.
  intros Hres Ht. unfold range_bins, range.
  rewrite fmap_join, <- list_fmap_compose.
  destruct (blocks_sorted
              (fmap (ticks_of t) ∘ (λ beat, (λ pos, (beat, pos, kr.2)) <$> range 0 kr.2))
              t kr.1.1 (kr.1.2 - kr.1.1)) as [Hsorted Hbound]; [lia| |].
  { intros beat _. by apply beat_bins_sorted. }
  split; [done|]. eapply Forall_impl; [exact Hbound|]. simpl. intros x Hx. lia.
Qed.

Lemma ranges_end_cons (start : Z) (kr : Z * Z * Z) (ranges : list (Z * Z * Z)) :
  ranges_end start (kr :: ranges) = ranges_end kr.1.2 ranges.
Proof. reflexivity. Qed.

Lemma ranges_end_ge (start : Z) (ranges : list (Z * Z * Z)) :
  contiguous_from start ranges → start ≤ ranges_end start ranges.
Proof.
  revert start. induction ranges as [|kr ranges IH]; intros start; [done|].
  intros (Hstart & Hlt & _ & Hrest). rewrite ranges_end_cons.
  specialize (IH _ Hrest). lia.
Qed.

(** The ticks of the bins of ranges that follow one another are
    ascending, from the first beat to the last. *)
Lemma ranges_bins_sorted (t start : Z) (ranges : list (Z * Z * Z)) :
  contiguous_from start ranges → Forall (λ kr, kr.2 ≤ t) ranges →
  StronglySorted Z.lt (ticks_of t <$> ranges_bins ranges) ∧
  Forall (λ x, start * t ≤ x < ranges_end start ranges * t)
    (ticks_of t <$> ranges_bins ranges).
Proof.
  revert start. induction ranges as [|kr ranges IH]; intros start Hcont Ht.
  { split; constructor. }
  destruct Hcont as (Hstart & Hlt & Hres & Hrest).
  apply Forall_cons in Ht as [Hkr Ht].
  destruct (range_bins_sorted t kr Hres Hkr) as [Hsorted Hbound].
  destruct (IH _ Hrest Ht) as [Hsorted' Hbound'].
  pose proof (ranges_end_ge _ _ Hrest) as Hend.
  rewrite ranges_end_cons.
  change (ranges_bins (kr :: ranges)) with (range_bins kr ++ ranges_bins ranges).
  rewrite fmap_app. split.
  - apply StronglySorted_app. split; [|done].
    intros x1 x2 H1 H2. rewrite Forall_forall in Hbound, Hbound'.
    specialize (Hbound _ H1). specialize (Hbound' _ H2). simpl in *. nia.
  - apply Forall_app. split.
    + eapply Forall_impl; [exact Hbound|]. simpl. intros x Hx. nia.
    + eapply Forall_impl; [exact Hbound'|]. simpl. intros x Hx. nia.
Qed.

(** The greatest key of ranges that follow one another is the last. *)
Lemma max_key_foldl (ranges : list (Z * Z * Z)) (best : Z * Z) :
  best.1 < best.2 → contiguous_from best.2 ranges →
  (foldl (λ best kr, if tuple_ltb best kr.1 then kr.1 else best) best ranges).2
    = ranges_end best.2 ranges ∧
  (foldl (λ best kr, if tuple_ltb best kr.1 then kr.1 else best) best ranges = best ∨
   foldl (λ best kr, if tuple_ltb best kr.1 then kr.1 else best) best ranges
     ∈ ranges.*1).
Proof.
  revert best. induction ranges as [|kr ranges IH]; intros best Hbest Hcont.
  { split; [done | by left]. }
  destruct Hcont as (Hstart & Hlt & _ & Hrest). cbn [foldl].
  assert (tuple_ltb best kr.1 = true) as ->.
  { unfold tuple_ltb. destruct (Z.ltb_spec best.1 kr.1.1); [done | lia]. }
  destruct (IH kr.1 Hlt Hrest) as [Hend Hin]. rewrite ranges_end_cons.
  split; [done|]. right. rewrite fmap_cons.
  destruct Hin as [-> | Hin]; [by left | by right].
Qed.

Lemma beat_res_at_key (ranges : list (Z * Z * Z)) (key : Z * Z) :
  key ∈ ranges.*1 → ∃ kr, beat_res_at ranges key = Done kr.2 ∧ kr ∈ ranges.
Proof.
  intros Hkey. unfold beat_res_at.
  destruct (find _ ranges) as [kr|] eqn:Hfind.
  - exists kr. split; [done|]. apply find_some in Hfind as [Hin _].
    by apply list_elem_of_In.
  - apply find_None_Forall in Hfind. rewrite Forall_forall in Hfind.
    apply list_elem_of_fmap in Hkey as (kr & -> & Hkr).
    specialize (Hfind _ Hkr). simpl in Hfind. by rewrite !Z.eqb_refl in Hfind.
Qed.

Lemma contiguous_from_pos (start : Z) (ranges : list (Z * Z * Z)) :
  contiguous_from start ranges → Forall (λ kr, 0 < kr.2) ranges.
Proof.
  revert start. induction ranges as [|kr ranges IH]; intros start; [constructor|].
  intros (_ & _ & Hres & Hrest). constructor; eauto.
Qed.

Lemma StronglySorted_drop (l : list Z) (n : nat) :
  StronglySorted Z.lt l → StronglySorted Z.lt (drop n l).
Proof.
  intros Hl. rewrite <- (take_drop n l) in Hl. by apply StronglySorted_app_1_r in Hl.
Qed.

(** X9: for beat ranges that follow one another from [start], with
    positive resolutions that are at most the time division,
    [__create_durations_tuples] returns, the tick cache of its bins is the
    ticks of each bin, and these ticks are in strictly ascending order and
    all above [start] beats: from beat 0, no bin has 0 ticks and no two
    bins have the same ticks. *)
Theorem durations_ticks_ascending (ranges : list (Z * Z * Z)) (start t : Z) :
  ranges ≠ [] → contiguous_from start ranges → Forall (λ kr, kr.2 ≤ t) ranges →
  ∃ bins,
    __create_durations_tuples ranges = Done bins ∧
    durations_ticks bins t = Done (ticks_of t <$> bins) ∧
    StronglySorted Z.lt (ticks_of t <$> bins) ∧
    Forall (λ ticks, start * t < ticks) (ticks_of t <$> bins).
Proof.
  intros Hne Hcont Ht. pose proof (contiguous_from_pos _ _ Hcont) as Hpos.
  assert (Forall (λ kr, 0 < kr.2 ≤ t) ranges) as Hres.
  { apply Forall_forall. intros kr Hkr. rewrite Forall_forall in Hpos, Ht.
    split; [by apply Hpos | by apply Ht]. }
  destruct ranges as [|kr ranges]; [done|].
  pose proof Hcont as (Hstart & Hlt & _ & Hrest).
  destruct (max_key_foldl ranges kr.1 Hlt Hrest) as [Hend Hkey].
  set (last_range := foldl (λ best kr, if tuple_ltb best kr.1 then kr.1 else best)
                       kr.1 ranges) in *.
  assert (last_range ∈ (kr :: ranges).*1) as Hin.
  { rewrite fmap_cons. destruct Hkey as [-> | ?]; [by left | by right]. }
  destruct (beat_res_at_key _ _ Hin) as (kr' & Hat & Hkr').
  assert (max_key (kr :: ranges) = Done last_range) as Hmax by (by destruct kr).
  assert (last_range.1 < last_range.2) as Hlast.
  { apply list_elem_of_fmap in Hin as (kr'' & -> & Hkr'').
    clear -Hcont Hkr''. revert start Hcont.
    induction (kr :: ranges) as [|kr0 l IH]; intros start Hcont; [by inversion Hkr''|].
    destruct Hcont as (_ & Hlt & _ & Hrest).
    apply elem_of_cons in Hkr'' as [-> | Hkr'']; [done | by eapply IH]. }
  eexists. split.
  { rewrite create_durations_ranges_bins, Hmax. cbn [bind]. rewrite Hat. done. }
  set (bins := drop 1 _).
  assert (__create_durations_tuples (kr :: ranges) = Done bins) as Hbins.
  { rewrite create_durations_ranges_bins, Hmax. cbn [bind]. rewrite Hat. done. }
  pose proof (create_durations_ok _ _ t Hbins Hres) as Hok.
  split.
  { unfold durations_ticks. apply all_done_Done. apply Forall2_fmap_r.
    apply Forall_Forall2_diag. eapply Forall_impl; [exact Hok|].
    intros [[beat pos] res] [Hpos' Ht']. simpl in Hpos', Ht'.
    by destruct (duration_to_ticks_Done beat pos res t Hpos' Ht') as [-> _]. }
  destruct (ranges_bins_sorted t start (kr :: ranges) Hcont Ht) as [Hsorted Hbound].
  assert (ranges_end start (kr :: ranges) = Z.max last_range.1 last_range.2) as Hmaxend.
  { rewrite ranges_end_cons, <- Hend. lia. }
  assert (StronglySorted Z.lt
            (ticks_of t <$> ranges_bins (kr :: ranges)
               ++ [(Z.max last_range.1 last_range.2, 0, kr'.2)])) as Hfull.
  { rewrite fmap_app. apply StronglySorted_app.
    split; [|split; [done | repeat constructor]].
    intros x1 x2 H1 H2. rewrite Forall_forall in Hbound. specialize (Hbound _ H1).
    apply list_elem_of_singleton in H2 as ->. unfold ticks_of. simpl.
    rewrite Z.div_0_l by (rewrite Forall_forall in Hpos; specialize (Hpos _ Hkr'); lia).
    rewrite Hmaxend in Hbound. lia. }
  assert (Forall (λ x, start * t ≤ x)
            (ticks_of t <$> ranges_bins (kr :: ranges)
               ++ [(Z.max last_range.1 last_range.2, 0, kr'.2)])) as Hlow.
  { rewrite fmap_app. apply Forall_app. split.
    - eapply Forall_impl; [exact Hbound|]. simpl. lia.
    - repeat constructor. unfold ticks_of. simpl. rewrite Z.div_0_l
        by (rewrite Forall_forall in Hpos; specialize (Hpos _ Hkr'); lia).
      pose proof (ranges_end_ge _ _ Hcont) as Hge. rewrite Hmaxend in Hge.
      rewrite Forall_forall in Hres. pose proof (Hres _ Hkr'). nia. }
  subst bins. rewrite fmap_drop. split; [by apply StronglySorted_drop|].
  destruct (ticks_of t <$> _ ++ _) as [|x l]; [constructor|].
  change (drop 1 (x :: l)) with l. apply StronglySorted_cons in Hfull as [Hx _].
  apply Forall_cons in Hlow as [Hx0 _].
  eapply Forall_impl; [exact Hx|]. simpl. lia.
Qed.

Lemma durations_ticks_ascending_witness :
  ∃ bins,
    __create_durations_tuples sample_beat_res = Done bins ∧
    durations_ticks bins 480 = Done (ticks_of 480 <$> bins) ∧
    StronglySorted Z.lt (ticks_of 480 <$> bins) ∧
    Forall (λ ticks, 0 * 480 < ticks) (ticks_of 480 <$> bins).
Proof.
  apply (durations_ticks_ascending sample_beat_res 0 480).
  - done.
  - unfold sample_beat_res. simpl. lia.
  - unfold sample_beat_res. repeat constructor; simpl; lia.
Defined.

(** ** Rest bins *)

Lemma log2_half (d : Z) : 1 < d → Z.log2 d = 1 + Z.log2 (d / 2).
Proof.
  intros Hd. pose proof (Z.div_mod d 2 ltac:(lia)) as Hdiv.
  pose proof (Z.mod_pos_bound d 2 ltac:(lia)) as Hmod.
  assert (0 < d / 2) by (apply Z.div_str_pos; lia).
  destruct (decide (d mod 2 = 0)) as [H0|H1].
  - rewrite Hdiv, H0, Z.add_0_r at 1. rewrite Z.log2_double by done. lia.
  - replace d with (2 * (d / 2) + 1) at 1 by lia.
    rewrite Z.log2_succ_double by done. lia.
Qed.

Lemma rests_loop_Done (fuel : nat) (first_res div : Z) (acc out : list (Z * Z)) :
  rests_loop fuel first_res div acc = Done out → div ≤ first_res →
  ∃ subs,
    out = acc ++ subs ∧
    length subs = Z.to_nat (Z.log2 div) ∧
    Forall (λ r, r.1 = 0 ∧ first_res / div ≤ r.2 ∧ 1 ≤ r.2 ∧ 2 * r.2 ≤ first_res) subs ∧
    StronglySorted (λ a b, a.2 ≤ b.2) subs.
Proof.
  revert div acc. induction fuel as [|fuel IH]; intros div acc; simpl.
  - destruct (Z.ltb_spec 1 div) as [|Hle]; [done|]. intros [= <-] _. exists [].
    rewrite app_nil_r. repeat split; try constructor.
    destruct (decide (div ≤ 0)); [by rewrite Z.log2_nonpos|].
    by replace div with 1 by lia.
  - destruct (Z.ltb_spec 1 div) as [Hlt|Hle].
    + intros Hloop Hdiv.
      assert (div / 2 ≤ first_res) as Hhalf by div_lia.
      assert (0 < div / 2) by (apply Z.div_str_pos; lia).
      destruct (IH _ _ Hloop Hhalf) as (subs & -> & Hlen & Hall & Hsorted).
      exists ((0, first_res / div) :: subs). rewrite <- app_assoc.
      assert (first_res / div ≤ first_res / (div / 2)) as Hmono
        by (apply Z.div_le_compat_l; [lia | div_lia]).
      assert (1 ≤ first_res / div) by (apply Z.div_le_lower_bound; lia).
      assert (2 * (first_res / div) ≤ first_res).
      { assert (first_res / div ≤ first_res / 2)
          by (apply Z.div_le_compat_l; lia). div_lia. }
      split; [done|]. split; [|split].
      * simpl. rewrite Hlen, (log2_half div) by done.
        pose proof (Z.log2_nonneg (div / 2)). lia.
      * constructor; [simpl; lia|].
        eapply Forall_impl; [exact Hall|]. simpl. intros r. lia.
      * constructor; [done|].
        eapply Forall_impl; [exact Hall|]. simpl. intros r. lia.
    + intros [= <-] _. exists []. rewrite app_nil_r. repeat split; try constructor.
      destruct (decide (div ≤ 0)); [by rewrite Z.log2_nonpos|].
      by replace div with 1 by lia.
Qed.

(** X10: when [__create_rests] returns, the rests are, in this order,
    as many rests shorter than a beat as [div] can be halved (its binary
    logarithm), each at a position from 1 to half the first resolution and
    none before a shorter one, and the rests of 1 to [max_beat] whole
    beats: no rest has no length. *)
Theorem create_rests_shape (div max_beat first_res : Z) (rests_ : list (Z * Z)) :
  __create_rests (div, max_beat) first_res = Done rests_ →
  ∃ subs,
    rests_ = subs ++ ((λ i, (i, 0)) <$> seqZ 1 max_beat) ∧
    length subs = Z.to_nat (Z.log2 div) ∧
    Forall (λ r, r.1 = 0 ∧ 1 ≤ r.2 ∧ 2 * r.2 ≤ first_res) subs ∧
    StronglySorted (λ a b, a.2 ≤ b.2) subs ∧
    Forall (λ r, r ≠ (0, 0)) rests_.
Proof.
  unfold __create_rests.
  destruct (Z.eqb_spec (div mod 2) 0) as [Heven|]; [|done].
  destruct (Z.leb_spec div first_res) as [Hle|]; [|done]. simpl.
  intros (subs' & Hloop & [= <-])%bind_Done.
  destruct (rests_loop_Done _ _ _ _ _ Hloop Hle) as (subs & -> & Hlen & Hall & Hsorted).
  exists subs. simpl. unfold range. replace (max_beat + 1 - 1) with max_beat by lia.
  split; [done|]. split; [done|]. split; [|split; [done|]].
  - eapply Forall_impl; [exact Hall|]. simpl. intros r. lia.
  - apply Forall_app. split.
    + eapply Forall_impl; [exact Hall|]. simpl. intros [b p] Hr [= -> ->].
      simpl in Hr. lia.
    + apply Forall_fmap, Forall_seqZ. intros i Hi. simpl. intros [= ->]. lia.
Qed.

Lemma create_rests_shape_witness :
  ∃ subs,
    [(0, 2); (0, 4); (1, 0); (2, 0); (3, 0); (4, 0); (5, 0); (6, 0)]
      = subs ++ ((λ i, (i, 0)) <$> seqZ 1 6) ∧
    length subs = Z.to_nat (Z.log2 4) ∧
    Forall (λ r, r.1 = 0 ∧ 1 ≤ r.2 ∧ 2 * r.2 ≤ 8) subs ∧
    StronglySorted (λ a b, a.2 ≤ b.2) subs ∧
    Forall (λ r, r ≠ (0, 0))
      [(0, 2); (0, 4); (1, 0); (2, 0); (3, 0); (4, 0); (5, 0); (6, 0)].
Proof. exact (create_rests_shape 4 6 8 _ eq_refl). Defined.

(** ** More on the nearest bin *)

Section ArgminOrder.

Context {A : Type} (ltb : A → A → bool) (le : A → A → Prop).
Hypothesis le_refl : ∀ x, le x x.
Hypothesis ltb_le : ∀ x y, ltb x y = true → le x y.
Hypothesis not_ltb_le : ∀ x y, ltb x y = false → le y x.
Hypothesis ltb_le_trans : ∀ x y z, ltb x y = true → le y z → ltb x z = true.

(** The index found holds a least item, and the items before it are
    greater: it is the first of the least. *)
Lemma argmin_from_first (pre l : list A) (best : nat) (d : A) :
  pre !! best = Some d → Forall (le d) pre →
  (∀ j y, (j < best)%nat → pre !! j = Some y → ltb d y = true) →
  ∃ x, (pre ++ l) !! argmin_from ltb best d (length pre) l = Some x ∧
       Forall (le x) (pre ++ l) ∧
       ∀ j y, (j < argmin_from ltb best d (length pre) l)%nat →
              (pre ++ l) !! j = Some y → ltb x y = true.
Proof.
  revert pre best d. induction l as [|x l IH]; intros pre best d Hbest Hle Hfirst; simpl.
  - exists d. rewrite app_nil_r. by repeat split.
  - replace (pre ++ x :: l) with ((pre ++ [x]) ++ l) by by rewrite <- app_assoc.
    replace (S (length pre)) with (length (pre ++ [x])) by (rewrite length_app; simpl; lia).
    destruct (ltb x d) eqn:Hlt.
    + apply IH.
      * by rewrite lookup_app_r, Nat.sub_diag.
      * apply Forall_app. split.
        -- eapply Forall_impl; [exact Hle|]. simpl. eauto.
        -- repeat constructor. apply le_refl.
      * intros j y Hj Hy. rewrite lookup_app_l in Hy by done.
        rewrite Forall_forall in Hle. apply (ltb_le_trans x d y Hlt).
        eapply Hle, list_elem_of_lookup_2. eassumption.
    + apply IH.
      * rewrite lookup_app_l; [done|]. by eapply lookup_lt_Some.
      * apply Forall_app. split; [done|]. repeat constructor. by apply not_ltb_le.
      * intros j y Hj Hy. apply (Hfirst j y Hj).
        rewrite lookup_app_l in Hy; [done|].
        apply lookup_lt_Some in Hbest. lia.
Qed.

Lemma argmin_first (l : list A) (k : nat) :
  argmin ltb l = Done k →
  ∃ x, l !! k = Some x ∧ Forall (le x) l ∧
       ∀ j y, (j < k)%nat → l !! j = Some y → ltb x y = true.
Proof.
  destruct l as [|d l]; simpl; [done|]. intros [= <-].
  apply (argmin_from_first [d] l 0 d); [done| |].
  - repeat constructor. apply le_refl.
  - intros j y Hj. lia.
Qed.

End ArgminOrder.


Lemma argmin_first_Q (l : list Q) (k : nat) :
  argmin Qltb l = Done k →
  ∃ x, l !! k = Some x ∧ Forall (Qle x) l ∧
       ∀ j y, (j < k)%nat → l !! j = Some y → (x < y)%Q.
Proof.
  assert (∀ x y, Qltb x y = true ↔ (x < y)%Q) as Hltb.
  { intros x y. unfold Qltb. rewrite negb_true_iff. split.
    - intros H. apply Qnot_le_lt. intros Hle. apply Qle_bool_iff in Hle. congruence.
    - intros H. destruct (Qle_bool y x) eqn:Hle; [|done].
      apply Qle_bool_iff in Hle. by apply Qlt_not_le in H. }
  assert (∀ x y, Qltb x y = false → (y <= x)%Q) as Hnot.
  { intros x y H. apply Qnot_lt_le. intros Hlt. apply Hltb in Hlt. congruence. }
  assert (∀ x y, Qltb x y = true → (x <= y)%Q) as Hweak.
  { intros x y H%Hltb. by apply Qlt_le_weak. }
  assert (∀ x y z, Qltb x y = true → (y <= z)%Q → Qltb x z = true) as Htrans.
  { intros x y z H%Hltb Hle. apply Hltb. by eapply Qlt_le_trans. }
  intros Hk.
  destruct (argmin_first Qltb Qle Qle_refl Hweak Hnot Htrans l k Hk)
    as (x & Hx & Hle & Hfirst).
  exists x. repeat split; try done. intros j y Hj Hy. apply Hltb. eauto.
Qed.

(** ** More on the quantization of notes *)




Lemma nearest_line_nonneg (step x : Z) : 0 < step → 0 ≤ x → 0 ≤ nearest_line step x.
Proof.
  intros Hstep Hx. unfold nearest_line, line_below.
  assert (0 ≤ x / step) by (apply Z.div_pos; lia). case_decide; nia.
Qed.

(** X12: for notes with [start <= end] and a time division at least the
    greatest beat resolution, every note [quantize_notes] leaves starts on
    the grid and lasts a whole number of grid steps, at least one; a note
    that starts at or after tick 0 still does. *)
Theorem quantize_notes_whole_steps (self : MIDITokenizer) (l out : list Note)
    (t res : Z) (pr : option pyrange) :
  Forall (λ n, start n ≤ end_ n) l →
  pymax (beat_res self).*2 = Done res → 0 < res → res ≤ t →
  quantize_notes self l t pr = Done out →
  Forall2 (λ n n',
      start n' mod (t ÷ res) = 0 ∧
      (∃ steps, 1 ≤ steps ∧ end_ n' - start n' = steps * (t ÷ res)) ∧
      (0 ≤ start n → 0 ≤ start n'))
    (filter (λ n, in_range (pitch n) (default (pitch_range self) pr)) l) out.
Proof.
  intros Hl Hres Hpos Hle (step & Hstep & Hout)%quantize_notes_Done.
  destruct (ticks_per_sample_pos self t res) as (step' & Hstep' & Hstep0); [done..|].
  assert (step' = step) as -> by congruence.
  apply ticks_per_sample_Done in Hstep as (res' & Hres' & _ & ->).
  assert (res' = res) as -> by congruence.
  set (step := t ÷ res) in *.
  assert (Forall (λ n, start n ≤ end_ n)
            (filter (λ n, in_range (pitch n) (default (pitch_range self) pr)) l)) as Hl'.
  { apply Forall_forall. intros n [_ Hn]%list_elem_of_filter.
    rewrite Forall_forall in Hl. by apply Hl. }
  revert Hl'. induction Hout as [|n n' k k' Hn _ IH]; intros Hl'; [constructor|].
  apply Forall_cons in Hl' as [Hn_le Hl']. constructor; [|by apply IH].
  apply quantize_note_Done in Hn as (_ & _ & Hs & He & _).
  pose proof (nearest_line_mono step _ _ Hstep0 Hn_le) as Hmono.
  pose proof (nearest_line_on_grid step (start n)) as Hgs.
  pose proof (nearest_line_on_grid step (end_ n)) as Hge.
  split; [by rewrite Hs|]. split; [|rewrite Hs; by apply nearest_line_nonneg].
  apply Z.mod_divide in Hgs as [qs Hqs]; [|lia].
  apply Z.mod_divide in Hge as [qe Hqe]; [|lia].
  rewrite Hs, He. case_decide as Heq.
  - exists 1. split; [lia|]. lia.
  - exists (qe - qs). split; [nia | lia].
Qed.

Lemma quantize_notes_whole_steps_witness :
  Forall2 (λ n n',
      start n' mod (480 ÷ 8) = 0 ∧
      (∃ steps, 1 ≤ steps ∧ end_ n' - start n' = steps * (480 ÷ 8)) ∧
      (0 ≤ start n → 0 ≤ start n'))
    (filter (λ n, in_range (pitch n) (pitch_range sample_tokenizer)) sample_notes)
    sample_quantized.
Proof.
  refine (quantize_notes_whole_steps sample_tokenizer sample_notes
            sample_quantized 480 8 None _ _ _ _ _).
  - unfold sample_notes. repeat constructor; simpl; lia.
  - reflexivity.
  - lia.
  - lia.
  - reflexivity.
Defined.

(** ** More on the quantization of tempo changes *)

Lemma Qabs_inject_le (x y z : Z) :
  (Qabs (inject_Z x - inject_Z z) <= Qabs (inject_Z y - inject_Z z))%Q ↔
  Z.abs (x - z) ≤ Z.abs (y - z).
Proof. unfold Qle, Qabs, Qminus, Qplus, Qopp, inject_Z. simpl. lia. Qed.

Lemma nearest_tempo_first (bins : list Z) (value : Q) (b : Z) :
  nearest_tempo bins value = Done b →
  ∃ k, bins !! k = Some b ∧
       Forall (λ b', (Qabs (inject_Z b - value) <= Qabs (inject_Z b' - value))%Q) bins ∧
       ∀ j b', (j < k)%nat → bins !! j = Some b' →
               (Qabs (inject_Z b - value) < Qabs (inject_Z b' - value))%Q.
Proof.
  unfold nearest_tempo. intros (k & Hk & Hb%subscript_Done)%bind_Done.
  apply argmin_first_Q in Hk as (x & Hx & Hle & Hfirst).
  rewrite list_lookup_fmap, Hb in Hx. simpl in Hx. injection Hx as <-.
  exists k. split; [done|]. split.
  - rewrite Forall_fmap in Hle. exact Hle.
  - intros j b' Hj Hb'. apply (Hfirst j); [done|].
    by rewrite list_lookup_fmap, Hb'.
Qed.

(** A value of the bins is its own nearest bin. *)
Lemma nearest_tempo_fixed (bins : list Z) (b : Z) :
  b ∈ bins → nearest_tempo bins (inject_Z b) = Done b.
Proof.
  intros Hin. destruct (nearest_tempo_Done bins (inject_Z b)) as [b' Hb'];
    [by destruct Hin|].
  rewrite Hb'. f_equal. apply nearest_tempo_first in Hb' as (_ & _ & Hle & _).
  rewrite Forall_forall in Hle. specialize (Hle _ Hin).
  apply Qabs_inject_le in Hle. lia.
Qed.

Lemma quantize_tempos_from_fixed (self : MIDITokenizer) (tps prev : Z)
    (l out : list TempoChange) :
  0 ≤ tps →
  quantize_tempos_from self tps prev l = Done out →
  quantize_tempos_from self tps prev out = Done out.
Proof.
  intros Htps. revert prev out. induction l as [|tc l IH]; intros prev out; simpl.
  { by intros [= <-]. }
  intros (b & Hb & H)%bind_Done. destruct (Z.eqb_spec b prev) as [->|Hne]; [by apply IH|].
  apply bind_Done in H as (rest & Hrest & H).
  apply bind_Done in H as (out' & Hout' & [= <-]).
  unfold pymod in Hrest. destruct (Z.eqb_spec tps 0) as [|Hne0]; [done|].
  injection Hrest as <-.
  cbn [quantize_tempos_from tempo time].
  rewrite (nearest_tempo_fixed _ b) by (by eapply nearest_tempo_elem). cbn [bind].
  destruct (Z.eqb_spec b prev); [done|].
  rewrite snap_nearest_line by done.
  unfold pymod. destruct (Z.eqb_spec tps 0); [done|]. cbn [bind].
  rewrite nearest_line_on_grid.
  rewrite (IH _ _ Hout'). cbn [bind]. do 2 f_equal.
  unfold snap. destruct (Z.leb_spec (2 * 0) tps); [|lia]. f_equal. lia.
Qed.

(** X13: quantizing again, with the same time division, the tempo
    changes that [quantize_tempos] returned gives the same changes, for
    positive beat resolutions and a time division that is not negative. *)
Theorem quantize_tempos_idempotent (self : MIDITokenizer) (l out : list TempoChange)
    (t : Z) :
  Forall (λ kr, 0 < kr.2) (beat_res self) → 0 ≤ t →
  quantize_tempos self l t = Done out →
  quantize_tempos self out t = Done out.
Proof.
  intros Hres Ht. rewrite !quantize_tempos_spec.
  intros (tps & Htps & Hout)%bind_Done. rewrite Htps. cbn [bind].
  apply (quantize_tempos_from_fixed self tps (-1) l out); [|done].
  by eapply ticks_per_sample_nonneg.
Qed.

Lemma quantize_tempos_idempotent_witness :
  quantize_tempos sample_tokenizer sample_tempos_quantized 480
    = Done sample_tempos_quantized.
Proof.
  apply (quantize_tempos_idempotent sample_tokenizer sample_tempos
           sample_tempos_quantized 480).
  - unfold sample_tokenizer, sample_beat_res. simpl. repeat constructor; simpl; lia.
  - lia.
  - reflexivity.
Defined.




(** ** More on the validation of token-type successions *)

Section ErrorBounds.

Variable token_type : Z → outcome string.
Variable self : MIDITokenizer.

Lemma errors_with_pad_bounds (err err' : Z) (previous : string) (tokens : list Z) :
  errors_with_pad token_type self err previous tokens = Done err' →
  err ≤ err' ≤ err + Z.of_nat (length tokens).
Proof.
  revert err previous. induction tokens as [|token tokens IH]; intros err previous.
  { intros [= <-]. simpl. lia. }
  cbn [errors_with_pad]. intros (type & _ & H)%bind_Done.
  apply bind_Done in H as (allowed & _ & H).
  apply bind_Done in H as (type' & _ & H). apply IH in H.
  rewrite length_cons. destruct (bool_decide _); lia.
Qed.

Lemma errors_until_pad_bounds (err err' : Z) (previous : string) (tokens : list Z) :
  errors_until_pad token_type self err previous tokens = Done err' →
  err ≤ err' ≤ err + Z.of_nat (length tokens).
Proof.
  revert err previous. induction tokens as [|token tokens IH]; intros err previous.
  { intros [= <-]. simpl. lia. }
  cbn [errors_until_pad]. rewrite length_cons.
  case_bool_decide as Hpad; [intros [= <-]; lia|].
  intros (type & _ & H)%bind_Done.
  apply bind_Done in H as (allowed & _ & H).
  apply bind_Done in H as (type' & _ & H). apply IH in H.
  destruct (bool_decide _); lia.
Qed.

(** Up to the first PAD the loop counts no more than over the whole
    sequence. *)
Lemma errors_until_pad_le (err err1 err2 : Z) (previous : string) (tokens : list Z) :
  errors_until_pad token_type self err previous tokens = Done err1 →
  errors_with_pad token_type self err previous tokens = Done err2 →
  err1 ≤ err2.
Proof.
  revert err previous. induction tokens as [|token tokens IH]; intros err previous.
  { intros [= <-] [= <-]. lia. }
  cbn [errors_until_pad errors_with_pad]. case_bool_decide as Hpad.
  - intros [= <-] H. change (errors_with_pad token_type self err previous (token :: tokens)
                             = Done err2) in H.
    apply errors_with_pad_bounds in H. lia.
  - intros (type & Htype & H1)%bind_Done (type0 & Htype0 & H2)%bind_Done.
    assert (type0 = type) as -> by congruence.
    apply bind_Done in H1 as (allowed & Hallowed & H1).
    apply bind_Done in H2 as (allowed0 & Hallowed0 & H2).
    assert (allowed0 = allowed) as -> by congruence.
    apply bind_Done in H1 as (type' & Htype' & H1).
    apply bind_Done in H2 as (type0' & Htype0' & H2).
    assert (type0' = type') as -> by congruence.
    by eapply IH.
Qed.

End ErrorBounds.

Lemma ratio_Done (err : Z) (len : nat) (r : Q) :
  ratio err len = Done r → r = Qmake err (Pos.of_nat len) ∧ (0 < len)%nat.
Proof. destruct len; [done|]. intros [= <-]. split; [done | lia]. Qed.

(** X15: whatever the vocabulary and the graph, a ratio that
    [token_types_errors] returns is the quotient of a number of errors
    from 0 to the length of the sequence minus 1 by that length: it is at
    least 0 and below 1, a sequence of [n] tokens having [n - 1]
    successions. *)
Theorem token_types_errors_range (token_type : Z → outcome string)
    (self : MIDITokenizer) (tokens : list Z) (consider_pad : bool) (r : Q) :
  token_types_errors token_type self tokens consider_pad = Done r →
  (∃ err, 0 ≤ err ≤ Z.of_nat (length tokens) - 1 ∧
          r = Qmake err (Pos.of_nat (length tokens))) ∧
  (0 <= r)%Q ∧ (r < 1)%Q.
Proof.
  unfold token_types_errors. intros (first & Hfirst%subscript_Done & H)%bind_Done.
  apply bind_Done in H as (previous & _ & H).
  apply bind_Done in H as (err & Herr & [-> Hlen]%ratio_Done).
  destruct tokens as [|first' tokens]; [done|]. simpl in Herr.
  rewrite drop_0 in Herr.
  assert (0 ≤ err ≤ Z.of_nat (length tokens)) as Hbound.
  { destruct consider_pad.
    - apply errors_with_pad_bounds in Herr. lia.
    - apply errors_until_pad_bounds in Herr. lia. }
  split; [exists err; split; [rewrite length_cons; lia | done]|].
  unfold Qle, Qlt. cbn [Qnum Qden]. rewrite !length_cons.
  split; lia.
Qed.

Lemma token_types_errors_range_witness :
  token_types_errors sample_token_type sample_tokenizer [1; 2; 0; 5; 5] true
    = Done (Qmake 2 5) ∧
  (∃ err, 0 ≤ err ≤ Z.of_nat (length [1; 2; 0; 5; 5]) - 1 ∧
          Qmake 2 5 = Qmake err (Pos.of_nat (length [1; 2; 0; 5; 5]))) ∧
  (0 <= Qmake 2 5)%Q ∧ (Qmake 2 5 < 1)%Q.
Proof.
  assert (token_types_errors sample_token_type sample_tokenizer [1; 2; 0; 5; 5] true
          = Done (Qmake 2 5)) as H by (vm_compute; reflexivity).
  split; [done|].
  exact (token_types_errors_range _ _ _ _ _ H).
Defined.

(** X16: on the same sequence the default mode, which stops counting at
    the first PAD, never reports a higher ratio than [consider_pad] does
    when both return. *)
Theorem token_types_errors_default_le (token_type : Z → outcome string)
    (self : MIDITokenizer) (tokens : list Z) (r r' : Q) :
  token_types_errors token_type self tokens false = Done r →
  token_types_errors token_type self tokens true = Done r' →
  (r <= r')%Q.
Proof.
  unfold token_types_errors.
  intros (first & Hfirst & H)%bind_Done (first0 & Hfirst0 & H0)%bind_Done.
  assert (first0 = first) as -> by congruence.
  apply bind_Done in H as (previous & Hprev & H).
  apply bind_Done in H0 as (previous0 & Hprev0 & H0).
  assert (previous0 = previous) as -> by congruence.
  apply bind_Done in H as (err & Herr & [-> Hlen]%ratio_Done).
  apply bind_Done in H0 as (err0 & Herr0 & [-> _]%ratio_Done).
  pose proof (errors_until_pad_le _ _ _ _ _ _ _ Herr Herr0) as Hle.
  unfold Qle. simpl Qnum. simpl Qden. nia.
Qed.

Lemma token_types_errors_default_le_witness :
  token_types_errors sample_token_type sample_tokenizer [1; 2; 0; 5; 5] false
    = Done (Qmake 0 5) ∧
  token_types_errors sample_token_type sample_tokenizer [1; 2; 0; 5; 5] true
    = Done (Qmake 2 5) ∧
  (Qmake 0 5 <= Qmake 2 5)%Q.
Proof.
  assert (token_types_errors sample_token_type sample_tokenizer [1; 2; 0; 5; 5] false
          = Done (Qmake 0 5)) as H1 by (vm_compute; reflexivity).
  assert (token_types_errors sample_token_type sample_tokenizer [1; 2; 0; 5; 5] true
          = Done (Qmake 2 5)) as H2 by (vm_compute; reflexivity).
  split; [done | split; [done|]].
  exact (token_types_errors_default_le _ _ _ _ _ H1 H2).
Defined.

(** ** More on decoding *)

Section DecodedTracks.

Variable Tokens : Type.
Variable tokens_to_track :
  Tokens → Z → Z * bool → outcome (Instrument * list TempoChange).

Lemma decode_track_appends (programs : option (list (Z * bool)))
    (time_division : Z) (midi midi' : MidiFile) (i : nat) (track_tokens : Tokens) :
  decode_track Tokens tokens_to_track programs time_division midi i track_tokens
    = Done midi' →
  ticks_per_beat midi' = ticks_per_beat midi ∧
  ∃ program' track changes,
    program_of programs i program' ∧
    tokens_to_track track_tokens time_division program' = Done (track, changes) ∧
    instruments midi' = instruments midi ++ [track].
Proof.
  unfold decode_track. intros ([track changes] & Hdecoded & H)%bind_Done.
  assert (∃ program', program_of programs i program' ∧
            tokens_to_track track_tokens time_division program'
              = Done (track, changes)) as (program' & Hprogram & Htrack).
  { destruct programs as [programs|].
    - apply bind_Done in Hdecoded as (program' & Hprogram%subscript_Done & Hdecoded).
      by exists program'.
    - by exists (0, false). }
  cbn beta iota in H. destruct (i =? 0)%nat.
  - apply bind_Done in H as (first & _ & [= <-]). split; [done|].
    by exists program', track, changes.
  - injection H as <-. split; [done|]. by exists program', track, changes.
Qed.

(** The loop appends one decoded track per sequence of tokens, in
    order, each decoded with the program of its index. *)
Lemma decode_tracks_appends (programs : option (list (Z * bool)))
    (time_division : Z) (tokens : list Tokens) (i : nat) (midi midi' : MidiFile) :
  decode_tracks Tokens tokens_to_track programs time_division midi i tokens
    = Done midi' →
  ticks_per_beat midi' = ticks_per_beat midi ∧
  ∃ tracks,
    instruments midi' = instruments midi ++ tracks ∧
    length tracks = length tokens ∧
    ∀ j track_tokens, tokens !! j = Some track_tokens →
      ∃ program' track changes,
        tracks !! j = Some track ∧
        program_of programs (i + j) program' ∧
        tokens_to_track track_tokens time_division program' = Done (track, changes).
Proof.
  revert i midi. induction tokens as [|track_tokens tokens IH]; intros i midi.
  - intros [= <-]. split; [done|]. exists []. by rewrite app_nil_r.
  - cbn [decode_tracks]. intros (midi1 & Htrack & Hrest)%bind_Done.
    apply decode_track_appends in Htrack
      as (Htpb & program' & track & changes & Hprogram & Htrack & Hinstr).
    apply IH in Hrest as (Htpb' & tracks & Hinstr' & Hlen & Hall).
    split; [congruence|]. exists (track :: tracks).
    split; [by rewrite Hinstr', Hinstr, <- app_assoc|].
    split; [simpl; by rewrite Hlen|].
    intros [|j] track_tokens'.
    + intros [= <-]. exists program', track, changes.
      by rewrite Nat.add_0_r.
    + intros Hj. destruct (Hall j track_tokens' Hj) as (p & tr & ch & ? & ? & ?).
      exists p, tr, ch. by rewrite <- Nat.add_succ_comm.
Qed.

End DecodedTracks.

(** X17: a MIDI object that [tokens_to_midi] returns has the time
    division asked for and one track per sequence of tokens, in order, each
    one being what [tokens_to_track] decodes with the program of the same
    index (so [programs], when given, is at least as long as [tokens]).
    Its [max_tick] is at least the end of every note, and it is the end of
    a note or the 0 of a track without notes.  An empty list of tokens makes
    the call raise a ValueError. *)
Theorem tokens_to_midi_tracks (Tokens : Type)
    (tokens_to_track : Tokens → Z → Z * bool → outcome (Instrument * list TempoChange)) :
  (∀ programs time_division,
     tokens_to_midi Tokens tokens_to_track [] programs time_division
       = Raise ValueError) ∧
  (∀ tokens programs time_division midi,
     tokens_to_midi Tokens tokens_to_track tokens programs time_division
       = Done midi →
     ticks_per_beat midi = time_division ∧
     length (instruments midi) = length tokens ∧
     (∀ i track_tokens, tokens !! i = Some track_tokens →
        ∃ program' track changes,
          instruments midi !! i = Some track ∧
          program_of programs i program' ∧
          tokens_to_track track_tokens time_division program'
            = Done (track, changes)) ∧
     (∀ track note, track ∈ instruments midi → note ∈ notes track →
        end_ note ≤ max_tick midi) ∧
     (∃ track, track ∈ instruments midi ∧
        ((notes track = [] ∧ max_tick midi = 0) ∨
         (∃ note, note ∈ notes track ∧ end_ note = max_tick midi)))).
Proof.
  split; [done|].
  intros tokens programs time_division midi. unfold tokens_to_midi.
  intros (midi1 & Htracks & H)%bind_Done.
  apply bind_Done in H as (ticks & Hticks%all_done_Done & H).
  apply bind_Done in H as (tick & [Htick Hmax]%pymax_Done & [= <-]).
  apply decode_tracks_appends in Htracks as (Htpb & tracks & Hinstr & Hlen & Hall).
  cbn [ticks_per_beat instruments max_tick] in *. rewrite app_nil_l in Hinstr.
  subst tracks.
  split; [done|]. split; [done|]. split; [exact Hall|]. split.
  - intros track note Htrack Hnote.
    apply list_elem_of_lookup in Htrack as [i Hi].
    destruct (Forall2_lookup_l _ _ _ _ _ Hticks Hi) as (tick' & Hi' & Hlast).
    rewrite Forall_lookup in Hmax. specialize (Hmax _ _ Hi').
    unfold last_tick in Hlast. destruct (notes track) as [|n l] eqn:Hnotes.
    { by apply elem_of_nil in Hnote. }
    cbn [length Nat.ltb Nat.leb] in Hlast.
    apply pymax_Done in Hlast as [_ Hle]. rewrite Forall_forall in Hle.
    assert (end_ note ≤ tick'); [|lia].
    apply Hle, list_elem_of_fmap. by exists note.
  - apply list_elem_of_lookup in Htick as [i Hi].
    destruct (Forall2_lookup_r _ _ _ _ _ Hticks Hi) as (track & Htrack & Hlast).
    exists track. split; [by eapply list_elem_of_lookup_2|].
    unfold last_tick in Hlast. destruct (notes track) as [|n l] eqn:Hnotes.
    + left. split; [done|]. by injection Hlast.
    + right. cbn [length Nat.ltb Nat.leb] in Hlast.
      apply pymax_Done in Hlast as [(note & -> & Hnote)%list_elem_of_fmap _].
      by exists note.
Qed.

(** ** Start and end of sequence *)

Section FramingProperties.

Variable token_type : Z → outcome string.
Variable self : MIDITokenizer.
Variable special : SpecialTokens.
Variable dic : types_graph.

Hypothesis dic_base :
  Forall (λ key, key ∉ dict_keys dic) ["PAD"; "SOS"; "EOS"; "MASK"].
Hypothesis sos_eos_enabled : _sos_eos special = true.
Hypothesis graph_self :
  tokens_types_graph self
    = list_to_map (_add_special_tokens_to_types_graph special dic).

(** SOS is followed by every type of the graph. *)
Lemma successors_sos :
  ∃ allowed, successors self "SOS" = Done allowed ∧
             ∀ key, key ∈ dict_keys dic → key ∈ allowed.
Proof.
  unfold successors. rewrite graph_self, add_special_tokens_items by done.
  rewrite sos_eos_enabled.
  apply Forall_cons in dic_base as [Hpad [Hsos _]%Forall_cons].
  rewrite list_to_map_app, lookup_union_r.
  2:{ apply not_elem_of_list_to_map. by rewrite <- list_fmap_compose. }
  destruct (_pad special).
  - simpl. rewrite lookup_insert_ne, lookup_insert_eq by done.
    eexists. split; [done|]. intros key Hkey. apply elem_of_app. by left.
  - simpl. rewrite lookup_insert_eq.
    eexists. split; [done|]. intros key Hkey. apply elem_of_app. by left.
Qed.

(** Every type of the graph is followed by EOS. *)
Lemma successors_to_eos (previous : string) :
  previous ∈ dict_keys dic →
  ∃ allowed, successors self previous = Done allowed ∧ "EOS" ∈ allowed.
Proof.
  intros Hkey. unfold successors. rewrite graph_self.
  destruct (add_special_tokens_lookup special dic previous dic_base Hkey)
    as (allowed & _ & ->).
  eexists. split; [done|]. apply elem_of_app. right.
  unfold appended_types. rewrite sos_eos_enabled.
  rewrite !elem_of_app. right. left. by left.
Qed.

End FramingProperties.

(** X18: a sequence framed by [add_sos_eos_to_seq] has no more errors
    than it had: with a graph made by [_add_special_tokens_to_types_graph]
    with [_sos_eos], a vocabulary that holds SOS_None and EOS_None as
    tokens of the types SOS and EOS, and a sequence that is not empty of
    tokens whose types are types of the graph before that,
    [add_sos_eos_to_seq] puts the SOS token first and the EOS token last,
    and [token_types_errors] counts the same errors in the sequence and in
    the framed one, dividing by a length that is 2 more. *)
Theorem add_sos_eos_to_seq_no_error (vocab : string → outcome Z)
    (token_type : Z → outcome string)
    (self : MIDITokenizer) (special : SpecialTokens) (dic : types_graph)
    (sos eos : Z) (tokens : list Z) (types : list string) (consider_pad : bool) :
  Forall (λ key, key ∉ dict_keys dic) ["PAD"; "SOS"; "EOS"; "MASK"] →
  _sos_eos special = true →
  tokens_types_graph self
    = list_to_map (_add_special_tokens_to_types_graph special dic) →
  vocab "SOS_None" = Done sos → token_type sos = Done "SOS" →
  vocab "EOS_None" = Done eos → token_type eos = Done "EOS" →
  tokens ≠ [] →
  Forall2 (λ token type, token_type token = Done type) tokens types →
  Forall (λ type, type ∈ dict_keys dic) types →
  add_sos_eos_to_seq vocab tokens = (sos :: tokens ++ [eos], Done ()) ∧
  ∃ err,
    token_types_errors token_type self tokens consider_pad
      = Done (Qmake err (Pos.of_nat (length tokens))) ∧
    token_types_errors token_type self (sos :: tokens ++ [eos]) consider_pad
      = Done (Qmake err (Pos.of_nat (length tokens + 2))).
Proof.
  intros Hbase Hflag Hgraph Hsos Hsos_type Heos Heos_type Hne Htypes Hkeys.
  split; [unfold add_sos_eos_to_seq; by rewrite Hsos, Heos|].
  destruct Htypes as [|first type tokens types Hfirst Htypes]; [done|].
  assert (Forall (λ type, is_Some (tokens_types_graph self !! type)) (type :: types))
    as Hsome.
  { eapply Forall_impl; [exact Hkeys|]. intros key Hkey. simpl. rewrite Hgraph.
    destruct (add_special_tokens_lookup special dic key Hbase Hkey)
      as (allowed & _ & ->). eauto. }
  assert (List.last types type ∈ dict_keys dic) as Hlast
    by (by apply (Forall_last (λ type, type ∈ dict_keys dic))).
  assert (Forall (λ type, type ≠ "PAD") ("SOS" :: type :: types)) as Hnopad.
  { constructor; [done|]. eapply Forall_impl; [exact Hkeys|].
    intros key Hkey ->. simpl in Hkey. by apply Forall_cons in Hbase as [? _]. }
  pose proof Hkeys as [Htype_key _]%Forall_cons.
  destruct (successors_sos self special dic Hbase Hflag Hgraph)
    as (after_sos & Hafter_sos & Hall).
  destruct (successors_to_eos self special dic Hbase Hflag Hgraph _ Hlast)
    as (after_last & Hafter_last & Hto_eos).
  assert (Forall2 (λ token type, token_type token = Done type)
            (first :: tokens) (type :: types)) as Htypes' by by constructor.
  unfold token_types_errors.
  change (subscript (first :: tokens) 0 IndexError) with (Done (A:=Z) first).
  change (subscript (sos :: (first :: tokens) ++ [eos]) 0 IndexError)
    with (Done (A:=Z) sos).
  cbn [bind]. rewrite Hfirst, Hsos_type. cbn [bind].
  change (drop 1 (first :: tokens)) with tokens.
  change (drop 1 (sos :: (first :: tokens) ++ [eos])) with ((first :: tokens) ++ [eos]).
  destruct consider_pad.
  - rewrite (errors_with_pad_app token_type self 0 "SOS" (first :: tokens) [eos]
               (type :: types) Htypes').
    cbn [errors_with_pad]. rewrite Hfirst. cbn [bind]. rewrite Hafter_sos. cbn [bind].
    rewrite (bool_decide_eq_true_2 _ (Hall _ Htype_key)).
    rewrite (errors_with_pad_count token_type self 0 type tokens types Htypes Hsome).
    cbn [bind]. rewrite last_cons, Heos_type. cbn [bind].
    rewrite Hafter_last. cbn [bind]. rewrite (bool_decide_eq_true_2 _ Hto_eos).
    eexists. split; [reflexivity|].
    cbn [length]. rewrite length_app. cbn [length].
    replace (S (S (length tokens) + 1)) with (S (length tokens + 2)) by lia.
    replace (S (length tokens) + 2)%nat with (S (length tokens + 2)) by lia.
    reflexivity.
  - rewrite (errors_until_pad_app token_type self 0 "SOS" (first :: tokens) [eos]
               (type :: types) Htypes' Hnopad).
    apply Forall_cons in Hnopad as [_ [Htype_pad Hnopad]%Forall_cons].
    assert (List.last types type ≠ "PAD") as Hlast_pad
      by (apply (Forall_last (λ type, type ≠ "PAD")); by constructor).
    cbn [errors_until_pad]. rewrite bool_decide_eq_false_2 by done.
    rewrite Hfirst. cbn [bind]. rewrite Hafter_sos. cbn [bind].
    rewrite (bool_decide_eq_true_2 _ (Hall _ Htype_key)).
    rewrite (errors_until_pad_count token_type self 0 type tokens types Htypes Hsome).
    cbn [bind]. rewrite last_cons. rewrite bool_decide_eq_false_2 by done.
    rewrite Heos_type. cbn [bind].
    rewrite Hafter_last. cbn [bind]. rewrite (bool_decide_eq_true_2 _ Hto_eos).
    eexists. split; [reflexivity|].
    cbn [length]. rewrite length_app. cbn [length].
    replace (S (S (length tokens) + 1)) with (S (length tokens + 2)) by lia.
    replace (S (length tokens) + 2)%nat with (S (length tokens + 2)) by lia.
    reflexivity.
Qed.

Lemma add_sos_eos_to_seq_no_error_witness :
  add_sos_eos_to_seq sample_vocab [1; 2; 3; 3] = (-1 :: [1; 2; 3; 3] ++ [-2], Done ()) ∧
  ∃ err,
    token_types_errors sample_token_type_sos_eos sample_tokenizer_sos_eos
      [1; 2; 3; 3] false = Done (Qmake err 4) ∧
    token_types_errors sample_token_type_sos_eos sample_tokenizer_sos_eos
      (-1 :: [1; 2; 3; 3] ++ [-2]) false = Done (Qmake err 6).
Proof.
  apply (add_sos_eos_to_seq_no_error sample_vocab sample_token_type_sos_eos
           sample_tokenizer_sos_eos
           {| _pad := true; _sos_eos := true; _mask := false |} sample_base_graph
           (-1) (-2) [1; 2; 3; 3] ["Bar"; "Position"; "Pitch"; "Pitch"]).
  - repeat constructor; simpl; rewrite !elem_of_cons, elem_of_nil; intuition congruence.
  - reflexivity.
  - reflexivity.
  - reflexivity.
  - reflexivity.
  - reflexivity.
  - reflexivity.
  - done.
  - repeat constructor.
  - repeat constructor; simpl; rewrite !elem_of_cons; intuition.
Defined.

(** ** Preprocessing of a MIDI object *)

Lemma key_ltb_false (a b : Note) :
  key_ltb (note_key a) (note_key b) = false → notes_ordered b a.
Proof.
  unfold key_ltb, note_key, notes_ordered.
  destruct (Z.ltb_spec (start a) (start b)), (Z.eqb_spec (start a) (start b)),
    (Z.ltb_spec (pitch a) (pitch b)), (Z.eqb_spec (pitch a) (pitch b)),
    (Z.ltb_spec (end_ a) (end_ b)); simpl; try done; lia.
Qed.

Lemma key_ltb_true (a b : Note) :
  key_ltb (note_key a) (note_key b) = true → notes_ordered a b.
Proof.
  unfold key_ltb, note_key, notes_ordered.
  destruct (Z.ltb_spec (start a) (start b)), (Z.eqb_spec (start a) (start b)),
    (Z.ltb_spec (pitch a) (pitch b)), (Z.eqb_spec (pitch a) (pitch b)),
    (Z.ltb_spec (end_ a) (end_ b)); simpl; try done; lia.
Qed.

Lemma notes_ordered_trans (a b c : Note) :
  notes_ordered a b → notes_ordered b c → notes_ordered a c.
Proof. unfold notes_ordered. lia. Qed.

Lemma insert_note_perm (x : Note) (l : list Note) : insert_note x l ≡ₚ x :: l.
Proof.
  induction l as [|y l IH]; [done|]. cbn [insert_note].
  destruct (key_ltb _ _); [|done]. rewrite IH. apply perm_swap.
Qed.

Lemma sort_notes_perm (l : list Note) : sort_notes l ≡ₚ l.
Proof.
  induction l as [|x l IH]; [done|]. unfold sort_notes in *. cbn [foldr].
  by rewrite insert_note_perm, IH.
Qed.

Lemma insert_note_sorted (x : Note) (l : list Note) :
  StronglySorted notes_ordered l → StronglySorted notes_ordered (insert_note x l).
Proof.
  induction 1 as [|y l Hsorted IH Hy]; [repeat constructor|].
  cbn [insert_note]. destruct (key_ltb _ _) eqn:Hlt.
  - constructor; [done|]. rewrite insert_note_perm.
    constructor; [by apply key_ltb_true | done].
  - apply key_ltb_false in Hlt. constructor; [by constructor|].
    constructor; [done|]. eapply Forall_impl; [exact Hy|].
    intros z Hz. by eapply notes_ordered_trans.
Qed.

Lemma sort_notes_sorted (l : list Note) : StronglySorted notes_ordered (sort_notes l).
Proof.
  induction l as [|x l IH]; [constructor|]. by apply insert_note_sorted.
Qed.

Lemma StronglySorted_sublist {A : Type} (R : relation A) (l k : list A) :
  l `sublist_of` k → StronglySorted R k → StronglySorted R l.
Proof.
  induction 1 as [|x l k Hsub IH|x l k Hsub IH]; [done|..];
    intros [Hk Hx]%StronglySorted_inv.
  - constructor; [by apply IH|].
    apply Forall_forall. intros y Hy. rewrite Forall_forall in Hx.
    apply Hx. by eapply sublist_subseteq.
  - by apply IH.
Qed.

Section PreprocessingProperties.

Variable remove_duplicated_notes : list Note → outcome (list Note).
Variable self : MIDITokenizer.
Variable ticks_per_beat' : Z.

Lemma preprocess_track_Done (track track' : Instrument) :
  preprocess_track remove_duplicated_notes self ticks_per_beat' track = Done track' →
  preprocessed remove_duplicated_notes self ticks_per_beat' track track'.
Proof.
  unfold preprocess_track. intros (quantized & Hq & H)%bind_Done.
  apply bind_Done in H as (notes' & Hnotes & [= <-]).
  repeat split; try done. by exists quantized.
Qed.

Lemma preprocess_tracks_loop_spec (fuel t : nat) (l : list Instrument) :
  (length l - t ≤ fuel)%nat →
  preprocess_tracks_loop remove_duplicated_notes fuel self ticks_per_beat' t l =
    let* rest := preprocess_tracks_from remove_duplicated_notes self ticks_per_beat'
                   (drop t l) in
    Done (take t l ++ rest).
Proof.
  revert t l. induction fuel as [|fuel IH]; intros t l Hfuel;
    cbn [preprocess_tracks_loop]; destruct (l !! t) as [track|] eqn:Ht.
  - apply lookup_lt_Some in Ht. lia.
  - apply lookup_ge_None in Ht. rewrite drop_ge, take_ge by done.
    simpl. by rewrite app_nil_r.
  - pose proof (lookup_lt_Some _ _ _ Ht) as Hlt.
    rewrite (drop_S _ _ _ Ht). cbn [preprocess_tracks_from].
    rewrite bind_assoc.
    destruct (preprocess_track _ _ _ track) as [track'| |]; simpl; [|done..].
    destruct (length (notes track') =? 0)%nat.
    + rewrite IH by (rewrite length_delete, length_insert by
                       (apply lookup_lt_is_Some; rewrite length_insert; lia); lia).
      rewrite delete_take_drop, drop_insert_lt, take_insert_ge by lia.
      rewrite drop_app_length', take_app_length' by (rewrite length_take; lia).
      by destruct (preprocess_tracks_from _ _ _ _).
    + rewrite IH by (rewrite length_insert; lia).
      rewrite drop_insert_lt by lia.
      rewrite (take_S_r _ _ track') by (by apply list_lookup_insert_eq).
      rewrite take_insert_ge by lia.
      destruct (preprocess_tracks_from _ _ _ _); simpl; [|done..].
      by rewrite <- app_assoc.
  - apply lookup_ge_None in Ht. rewrite drop_ge, take_ge by done.
    simpl. by rewrite app_nil_r.
Qed.

(** The tracks that are left: in the order of the file, each with a
    note at least. *)
Lemma preprocess_tracks_from_Done (l out : list Instrument) :
  preprocess_tracks_from remove_duplicated_notes self ticks_per_beat' l = Done out →
  ∃ kept, kept `sublist_of` l ∧ Forall2 (preprocessed remove_duplicated_notes self ticks_per_beat') kept out ∧
          Forall (λ track', notes track' ≠ []) out.
Proof.
  revert out. induction l as [|track l IH]; intros out; cbn [preprocess_tracks_from].
  - intros [= <-]. exists []. by repeat split; constructor.
  - intros (track' & Htrack%preprocess_track_Done & H)%bind_Done.
    apply bind_Done in H as (rest & Hrest & [= <-]).
    destruct (IH _ Hrest) as (kept & Hsub & Hkept & Hnotes).
    destruct (notes track') as [|x notes'] eqn:Hnotes'; simpl.
    + exists kept. split; [by apply sublist_cons | done].
    + exists (track :: kept). split; [by apply sublist_skip|].
      split; [by constructor|]. constructor; [by rewrite Hnotes' | done].
Qed.

End PreprocessingProperties.

Lemma pymax_Some (l : list Z) : l ≠ [] → ∃ m, pymax l = Done m.
Proof. destruct l; [done|]. simpl. eauto. Qed.



Lemma preprocess_midi_sample :
  preprocess_midi sample_remove_duplicated_notes sample_tokenizer sample_raw_midi []
    = Done (sample_preprocessed,
            [ {| TimeSignature.numerator := 4; TimeSignature.denominator := 4;
                 TimeSignature.time := 0 |} ]).
Proof. vm_compute. reflexivity. Qed.


(** The notes that [quantize_notes] leaves are in the pitch range and on
    the grid, with a velocity of the bins. *)
Lemma quantize_notes_on_grid (self : MIDITokenizer) (l out : list Note) (t res : Z) :
  Forall (λ n, start n ≤ end_ n) l →
  pymax (beat_res self).*2 = Done res → 0 < res → res ≤ t →
  quantize_notes self l t None = Done out →
  Forall (λ n', in_range (pitch n') (pitch_range self) ∧
                velocity n' ∈ velocities self ∧
                start n' mod (t ÷ res) = 0 ∧ end_ n' mod (t ÷ res) = 0 ∧
                start n' < end_ n') out.
Proof.
  intros Hl Hres Hpos Hle (step & Hstep & Hout)%quantize_notes_Done.
  destruct (ticks_per_sample_pos self t res) as (step' & Hstep' & Hstep0); [done..|].
  assert (step' = step) as -> by congruence.
  apply ticks_per_sample_Done in Hstep as (res' & Hres' & _ & ->).
  assert (res' = res) as -> by congruence.
  eapply Forall2_Forall_r; [exact Hout|]. apply Forall_forall.
  intros n [Hin Hn]%list_elem_of_filter n'
    (_ & Hp & Hs & He & Hv%nearest_bin_elem)%quantize_note_Done.
  rewrite Forall_forall in Hl. specialize (Hl _ Hn). simpl in Hl.
  pose proof (nearest_line_mono (t ÷ res) _ _ Hstep0 Hl).
  pose proof (nearest_line_on_grid (t ÷ res) (start n)) as Hgs.
  pose proof (nearest_line_on_grid (t ÷ res) (end_ n)) as Hge.
  rewrite Hp, Hs, He. split; [done|]. split; [done|]. split; [done|].
  case_decide.
  - split; [|lia].
    replace (nearest_line (t ÷ res) (end_ n) + t ÷ res)
      with (nearest_line (t ÷ res) (end_ n) + 1 * (t ÷ res)) by lia.
    by rewrite Z.mod_add by lia.
  - split; [done | lia].
Qed.

(** X20: with a [remove_duplicated_notes] that only takes notes away, on
    a file whose notes have [start <= end] and whose time division is at
    least the greatest beat resolution, the notes of every track that
    [preprocess_midi] leaves are in the order of [(start, pitch, end)], in
    the pitch range, with a velocity of the bins, and start and end on
    the grid, the end after the start. *)
Theorem preprocess_midi_notes
    (remove_duplicated_notes : list Note → outcome (list Note))
    (self : MIDITokenizer) (midi midi' : MidiFile) (res : Z)
    (time_signature_changes time_signature_changes' : list TimeSignature.t) :
  (∀ l l', remove_duplicated_notes l = Done l' → l' `sublist_of` l) →
  Forall (λ track, Forall (λ n, start n ≤ end_ n) (notes track)) (instruments midi) →
  pymax (beat_res self).*2 = Done res → 0 < res → res ≤ ticks_per_beat midi →
  preprocess_midi remove_duplicated_notes self midi time_signature_changes
    = Done (midi', time_signature_changes') →
  Forall (λ track,
      StronglySorted notes_ordered (notes track) ∧
      Forall (λ n, in_range (pitch n) (pitch_range self) ∧
                   velocity n ∈ velocities self ∧
                   start n mod (ticks_per_beat midi ÷ res) = 0 ∧
                   end_ n mod (ticks_per_beat midi ÷ res) = 0 ∧
                   start n < end_ n) (notes track))
    (instruments midi').
Proof.
  intros Hremove Hl Hres Hpos Hle. unfold preprocess_midi.
  intros (tracks & Htracks & H)%bind_Done.
  apply bind_Done in H as (tick & _ & H).
  apply bind_Done in H as (tempos' & _ & H).
  apply bind_Done in H as (sigs' & _ & [= <- <-]). cbn [instruments].
  rewrite preprocess_tracks_loop_spec in Htracks by lia.
  rewrite drop_0 in Htracks.
  apply bind_Done in Htracks as (rest & Hrest & [= <-]). simpl.
  destruct (preprocess_tracks_from_Done _ _ _ _ _ Hrest) as (kept & Hsub & Hkept & _).
  eapply Forall2_Forall_r; [exact Hkept|]. apply Forall_forall.
  intros track Htrack track' (_ & _ & quantized & Hq & Hnotes).
  apply Hremove in Hnotes.
  assert (track ∈ instruments midi) as Hin by (by eapply sublist_subseteq).
  rewrite Forall_forall in Hl. specialize (Hl _ Hin). simpl in Hl.
  split.
  - eapply StronglySorted_sublist; [exact Hnotes|]. apply sort_notes_sorted.
  - pose proof (quantize_notes_on_grid _ _ _ _ _ Hl Hres Hpos Hle Hq) as Hgrid.
    apply Forall_forall. intros n Hn.
    rewrite <- (sort_notes_perm quantized) in Hgrid.
    rewrite Forall_forall in Hgrid. apply Hgrid.
    by eapply sublist_subseteq.
Qed.

Lemma sample_remove_duplicated_notes_from_sublist (previous : Note) (l : list Note) :
  sample_remove_duplicated_notes_from previous l `sublist_of` l.
Proof.
  revert previous. induction l as [|x l IH]; intros previous; simpl; [done|].
  destruct (_ && _); [by apply sublist_cons | by apply sublist_skip].
Qed.

Lemma preprocess_midi_notes_witness :
  Forall (λ track,
      StronglySorted notes_ordered (notes track) ∧
      Forall (λ n, in_range (pitch n) (pitch_range sample_tokenizer) ∧
                   velocity n ∈ velocities sample_tokenizer ∧
                   start n mod (480 ÷ 8) = 0 ∧ end_ n mod (480 ÷ 8) = 0 ∧
                   start n < end_ n) (notes track))
    (instruments sample_preprocessed).
Proof.
  refine (preprocess_midi_notes sample_remove_duplicated_notes sample_tokenizer
            sample_raw_midi sample_preprocessed 8 [] _ _ _ _ _ _
            preprocess_midi_sample).
  - intros [|x l] l'; intros [= <-]; [done|].
    apply sublist_skip, sample_remove_duplicated_notes_from_sublist.
  - unfold sample_raw_midi, sample_notes. repeat constructor; simpl; lia.
  - reflexivity.
  - lia.
  - simpl. lia.
Defined.

(** ** Events and tokens *)

Lemma split_not_nil (sep : Ascii.ascii) (s : string) : split sep s ≠ [].
Proof.
  induction s as [|c s IH]; simpl; [done|].
  destruct (Ascii.eqb c sep); [done|]. by destruct (split sep s).
Qed.

Lemma split_length (sep : Ascii.ascii) (s : string) :
  length (split sep s) = S (count_char sep s).
Proof.
  induction s as [|c s IH]; simpl; [done|].
  destruct (Ascii.eqb c sep); simpl; [by rewrite IH|].
  pose proof (split_not_nil sep s). destruct (split sep s); [done|].
  simpl in *. lia.
Qed.

(** A string without the separator is one part. *)
Lemma split_none (sep : Ascii.ascii) (s : string) :
  count_char sep s = 0%nat → split sep s = [s].
Proof.
  induction s as [|c s IH]; simpl; [done|].
  destruct (Ascii.eqb c sep); simpl; [done|]. intros Hs. by rewrite IH.
Qed.

Lemma split_app (sep : Ascii.ascii) (s s' : string) :
  count_char sep s = 0%nat →
  split sep (s +:+ String sep s') = s :: split sep s'.
Proof.
  induction s as [|c s IH]; intros Hs.
  - change (split sep (String sep s') = EmptyString :: split sep s').
    cbn [split]. by rewrite Ascii.eqb_refl.
  - change (String c s +:+ String sep s') with (String c (s +:+ String sep s')).
    cbn [split count_char] in *.
    destruct (Ascii.eqb c sep); [done|]. by rewrite IH.
Qed.

(** The strings that split in two are those with one separator. *)
Lemma split_two (sep : Ascii.ascii) (s a b : string) :
  split sep s = [a; b] ↔
  s = a +:+ String sep b ∧ count_char sep a = 0%nat ∧ count_char sep b = 0%nat.
Proof.
  split.
  - revert a. induction s as [|c s IH]; intros a; simpl; [done|].
    destruct (Ascii.eqb_spec c sep) as [->|Hc].
    + intros [= <- Hb]. pose proof (split_length sep s) as Hlen.
      rewrite Hb in Hlen. simpl in Hlen.
      assert (count_char sep s = 0%nat) as Hs by lia.
      rewrite split_none in Hb by done. injection Hb as ->. done.
    + pose proof (split_not_nil sep s).
      destruct (split sep s) as [|part parts] eqn:Hs; [done|].
      intros [= <- ->]. destruct (IH part eq_refl) as (-> & Hpart & Hb).
      split; [done|]. split; [|done]. simpl.
      destruct (Ascii.eqb_spec c sep); [done|]. by rewrite Hpart.
  - intros (-> & Ha & Hb). by rewrite split_app, split_none.
Qed.

Lemma token_to_event_object_Done (vocab : Vocabulary) (token : Z) (event : Event) :
  token_to_event_object vocab token = Done event ↔
  token_to_event vocab !! token = Some (type_value event) ∧
  count_char underscore (type_ event) = 0%nat ∧
  count_char underscore (value event) = 0%nat.
Proof.
  unfold token_to_event_object, type_value. split.
  - intros (entry & Hentry & H)%bind_Done.
    destruct (token_to_event vocab !! token) as [entry'|]; [|done].
    injection Hentry as ->.
    destruct (split underscore entry) as [|name [|val [|]]] eqn:Hsplit; try done.
    injection H as <-. apply split_two in Hsplit as (-> & ? & ?). done.
  - intros (-> & Htype & Hvalue). cbn [bind].
    rewrite (proj2 (split_two underscore _ (type_ event) (value event))) by done.
    by destruct event.
Qed.

(** X21: with a single vocabulary, [tokens_to_events] returns a list of
    events exactly when every token has an entry in [token_to_event] with
    one underscore in it (without one, or with more, the unpacking raises
    a ValueError), and the events are then, token by token, the type
    before the underscore and the value after it. *)
Theorem tokens_to_events_entries (vocab : Vocabulary) (tokens : list Z)
    (events : list Event) :
  tokens_to_events vocab tokens = Done events ↔
  Forall2 (λ token event,
      token_to_event vocab !! token = Some (type_value event) ∧
      count_char underscore (type_ event) = 0%nat ∧
      count_char underscore (value event) = 0%nat) tokens events.
Proof.
  unfold tokens_to_events. rewrite all_done_Done.
  split; intros H; (eapply Forall2_impl; [exact H|]);
    intros token event; by rewrite token_to_event_object_Done.
Qed.

(** X22: decoding undoes encoding: when [str] writes an event as its
    type, an underscore and its value, and [token_to_event] holds the
    entries of [event_to_token] the other way round, the tokens that
    [events_to_tokens] returns for events without an underscore in their
    types and values are turned back into these events by
    [tokens_to_events]. *)
Theorem tokens_to_events_of_events (str : Event → string) (vocab : Vocabulary)
    (events : list Event) (tokens : list Z) :
  (∀ event, str event = type_value event) →
  (∀ entry token, event_to_token vocab !! entry = Some token →
                  token_to_event vocab !! token = Some entry) →
  Forall (λ event, count_char underscore (type_ event) = 0%nat ∧
                   count_char underscore (value event) = 0%nat) events →
  events_to_tokens str vocab events = Done tokens →
  tokens_to_events vocab tokens = Done events.
Proof.
  intros Hstr Hvocab Hevents Htokens%all_done_Done.
  unfold tokens_to_events. apply all_done_Done.
  induction Htokens as [|event token events tokens Htoken _ IH]; [constructor|].
  apply Forall_cons in Hevents as [[Htype Hvalue] Hevents].
  constructor; [|by apply IH].
  apply token_to_event_object_Done. split; [|done].
  apply Hvocab. rewrite <- Hstr.
  destruct (event_to_token vocab !! str event); by simplify_eq.
Qed.

Lemma tokens_to_events_of_events_witness :
  tokens_to_events sample_vocabulary [1; 2; 0]
    = Done [ {| type_ := "Pitch"; value := "60" |};
             {| type_ := "Velocity"; value := "63" |};
             {| type_ := "PAD"; value := "None" |} ].
Proof.
  apply (tokens_to_events_of_events type_value sample_vocabulary).
  - done.
  - intros entry token Hentry. apply elem_of_list_to_map_2 in Hentry.
    repeat (apply elem_of_cons in Hentry as [[= -> ->]|Hentry]; [reflexivity|]).
    by apply elem_of_nil in Hentry.
  - repeat constructor.
  - reflexivity.
Defined.

Lemma all_done_Forall2 {A : Type} (ms : list (outcome A)) (out : list A) :
  all_done ms = Done out ↔ Forall2 (λ m a, m = Done a) ms out.
Proof.
  rewrite <- (list_fmap_id ms) at 1. apply all_done_Done.
Qed.

Lemma multi_token_Done (vocab : list Vocabulary) (multi_token : list Z)
    (multi_event : list Event) :
  all_done
    (imap (λ i token,
             let* vocab_i := subscript vocab i IndexError in
             token_to_event_object vocab_i token) multi_token) = Done multi_event ↔
  length multi_token = length multi_event ∧
  ∀ i token event,
    multi_token !! i = Some token → multi_event !! i = Some event →
    ∃ vocab_i,
      vocab !! i = Some vocab_i ∧
      token_to_event vocab_i !! token = Some (type_value event) ∧
      count_char underscore (type_ event) = 0%nat ∧
      count_char underscore (value event) = 0%nat.
Proof.
  rewrite all_done_Forall2, Forall2_same_length_lookup, length_imap.
  split; intros [Hlen H]; (split; [done|]).
  - intros i token event Htoken Hevent.
    specialize (H i _ event (proj2 (list_lookup_imap_Some _ _ _ _)
                               (ex_intro _ token (conj Htoken eq_refl))) Hevent).
    apply bind_Done in H as (vocab_i & Hvocab%subscript_Done & H).
    exists vocab_i. split; [done|]. by apply token_to_event_object_Done.
  - intros i m event (token & Htoken & ->)%list_lookup_imap_Some Hevent.
    destruct (H i token event Htoken Hevent) as (vocab_i & Hvocab & Hentry).
    apply bind_Done. exists vocab_i. split; [by apply subscript_Done|].
    by apply token_to_event_object_Done.
Qed.

(** X23: with multiple vocabularies, [tokens_to_events] returns a list
    of time steps exactly when every time step is no longer than the list
    of vocabularies (a longer one raises an IndexError) and its token of
    index [i] has an entry with one underscore in the vocabulary of index
    [i]; the events of a time step are then those entries, in order. *)
Theorem tokens_to_events_multi_entries (vocab : list Vocabulary)
    (tokens : list (list Z)) (events : list (list Event)) :
  tokens_to_events_multi vocab tokens = Done events ↔
  Forall2 (λ multi_token multi_event,
      length multi_token = length multi_event ∧
      ∀ i token event,
        multi_token !! i = Some token → multi_event !! i = Some event →
        ∃ vocab_i,
          vocab !! i = Some vocab_i ∧
          token_to_event vocab_i !! token = Some (type_value event) ∧
          count_char underscore (type_ event) = 0%nat ∧
          count_char underscore (value event) = 0%nat) tokens events.
Proof.
  unfold tokens_to_events_multi. rewrite all_done_Done.
  split; intros H; (eapply Forall2_impl; [exact H|]);
    intros multi_token multi_event; by rewrite multi_token_Done.
Qed.

(** ** Encoding of a MIDI object *)




(** ** Tempo bins *)



